(** * grizzly: verification of the Series column engine

    Shallow embedding of the Go sources
      - general_arrays_maths.go   (arrayMean, arraySum, arrayVariance, ...)
      - series reductions         (GetMax, GetMin, ..., GetVariance)
      - series manipulation       (RemoveIndexes, FilterFloatSeries,
                                   ConvertStringToFloat, ConvertFloatToString)

    Conventions.
      - Go [int] is modelled by [Z]; lemma [chunk_arith_in_int64] shows that
        the chunk arithmetic never leaves the 64-bit range.
      - Go [float64] is modelled by the primitive binary64 floats.
      - [runtime.NumCPU()] is the explicit argument [numCPU].
      - goroutine scheduling is an explicit argument: the order in which a
        channel delivers the workers' results, or the interleaving of the
        workers' loop iterations. *)

From Stdlib Require Import ZArith Lia Bool Ascii String Floats List Permutation Sorted.
Import ListNotations.

#[local] Open Scope string_scope.
#[local] Open Scope list_scope.
#[local] Open Scope Z_scope.

(** ** Index ranges and slices indexed by Go ints *)

(** The indexes visited by [for j := lo; j < hi; j++]. *)
Definition zrange (lo hi : Z) : list Z :=
  map (fun k => lo + Z.of_nat k) (seq 0 (Z.to_nat (hi - lo))).

(** [len(l)] *)
Definition len {A} (l : list A) : Z := Z.of_nat (List.length l).

(** [l[i]]: [None] stands for the run-time panic "index out of range". *)
Definition index {A} (l : list A) (i : Z) : option A :=
  if i <? 0 then None else nth_error l (Z.to_nat i).

(** ** Chunk partitioner (the same arithmetic appears in every worker pool) *)

(** [chunkSize := (length + numGoroutines - 1) / numGoroutines];
    Go's [/] on ints truncates toward zero. *)
Definition chunkSize (length numGoroutines : Z) : Z :=
  Z.quot (length + numGoroutines - 1) numGoroutines.

(** FilterFloatSeries / FilterStringSeries:
    [start := i * chunkSize; end := (i + 1) * chunkSize;
     if end > length { end = length }] *)
Definition filterChunk (length numGoroutines i : Z) : Z * Z :=
  let start := i * chunkSize length numGoroutines in
  let end_ := (i + 1) * chunkSize length numGoroutines in
  let end_ := if end_ >? length then length else end_ in
  (start, end_).

(** ConvertStringToFloat / ConvertFloatToString / Replace:
    [start := i * chunkSize; end := start + chunkSize;
     if end > length { end = length }] *)
Definition convertChunk (length numGoroutines i : Z) : Z * Z :=
  let start := i * chunkSize length numGoroutines in
  let end_ := start + chunkSize length numGoroutines in
  let end_ := if end_ >? length then length else end_ in
  (start, end_).

(** The indexes a worker visits in its chunk. *)
Definition chunkIndexes (c : Z * Z) : list Z := zrange (fst c) (snd c).

(** All chunks of one call, worker 0 first. *)
Definition chunks (length numGoroutines : Z) : list (Z * Z) :=
  map (filterChunk length numGoroutines) (zrange 0 numGoroutines).

(** ** The Series data model *)

(** [type Series struct { ...; Float []float64; String []string;
    DataType string }]: the three fields the operations below read and
    write.  [DataType] is a free-form Go string; ["float"] and ["string"]
    are the two tags the code tests for. *)
Record Series : Type := mkSeries {
  Float : list float;
  String : list string;
  DataType : string
}.

(** A Go call either returns or panics. *)
Inductive result (A : Type) : Type :=
| Ok (a : A)
| Panic (msg : string).
Arguments Ok {A} a.
Arguments Panic {A} msg.

(** Modelled from the spec: [Series.GetLength], whose body is not part of
    the sources at hand ("Length is the length of the active sequence"). *)
Definition GetLength (series : Series) : Z :=
  if (DataType series =? "float")%string then len (Float series)
  else len (String series).

(** [for i, idx := range indexes { filtered[i] = data[idx] }];
    [None] when some [data[idx]] panics. *)
Fixpoint gather {A} (data : list A) (indexes : list Z) : option (list A) :=
  match indexes with
  | [] => Some []
  | idx :: rest =>
      match index data idx with
      | None => None
      | Some x =>
          match gather data rest with
          | None => None
          | Some xs => Some (x :: xs)
          end
      end
  end.

(** [func (series *Series) RemoveIndexes(indexes []int)] *)
Definition RemoveIndexes (series : Series) (indexes : list Z) : result Series :=
  if (DataType series =? "float")%string then
    match gather (Float series) indexes with
    | Some filteredFloats =>
        Ok (mkSeries filteredFloats (String series) (DataType series))
    | None => Panic "index out of range"
    end
  else
    match gather (String series) indexes with
    | Some filteredStrings =>
        Ok (mkSeries (Float series) filteredStrings (DataType series))
    | None => Panic "index out of range"
    end.

(** One filter worker:
    [for j := start; j < end; j++ {
       if condition(data[j]) { localFiltered = append(localFiltered, j) } }] *)
Fixpoint scanChunk {A} (data : list A) (condition : A -> bool)
    (js : list Z) : option (list Z) :=
  match js with
  | [] => Some []
  | j :: rest =>
      match index data j with
      | None => None
      | Some x =>
          match scanChunk data condition rest with
          | None => None
          | Some localFiltered =>
              Some (if condition x then j :: localFiltered else localFiltered)
          end
      end
  end.

(** [for indexes := range ch { filteredIndexes = append(filteredIndexes,
    indexes...) }]: the channel hands over the workers' lists in the order
    the workers sent them; [None] if a worker panicked. *)
Fixpoint collect (received : list (option (list Z))) : option (list Z) :=
  match received with
  | [] => Some []
  | None :: _ => None
  | Some indexes :: rest =>
      match collect rest with
      | None => None
      | Some filteredIndexes => Some (indexes ++ filteredIndexes)
      end
  end.

(** [func (series *Series) FilterFloatSeries(condition func(float64) bool) []int].
    [order] lists the worker numbers in the order in which their sends on
    [ch] took place (the channel is buffered with room for every worker, so
    no send blocks and every arrangement of the workers can occur). *)
Definition FilterFloatSeries (numCPU : Z) (order : list Z)
    (condition : float -> bool) (series : Series) : result (list Z * Series) :=
  if negb (DataType series =? "float")%string then
    Panic "FilterFloatSeries only works with float series"
  else
    let numGoroutines := numCPU in
    let length := GetLength series in
    if length =? 0 then Ok ([], series)
    else
      let worker i :=
        scanChunk (Float series) condition
          (chunkIndexes (filterChunk length numGoroutines i)) in
      match collect (map worker order) with
      | None => Panic "index out of range"
      | Some filteredIndexes =>
          match RemoveIndexes series filteredIndexes with
          | Ok series' => Ok (filteredIndexes, series')
          | Panic msg => Panic msg
          end
      end.

(** [series.String]-side twin of [FilterFloatSeries]. *)
Definition FilterStringSeries (numCPU : Z) (order : list Z)
    (condition : string -> bool) (series : Series) : result (list Z * Series) :=
  if negb (DataType series =? "string")%string then
    Panic "FilterStringSeries only works with string series"
  else
    let numGoroutines := numCPU in
    let length := GetLength series in
    if length =? 0 then Ok ([], series)
    else
      let worker i :=
        scanChunk (String series) condition
          (chunkIndexes (filterChunk length numGoroutines i)) in
      match collect (map worker order) with
      | None => Panic "index out of range"
      | Some filteredIndexes =>
          match RemoveIndexes series filteredIndexes with
          | Ok series' => Ok (filteredIndexes, series')
          | Panic msg => Panic msg
          end
      end.

(** ** float64 arithmetic

    The array functions are written once over the operations of Go's
    [float64] they use; [float64] below instantiates them with IEEE 754
    binary64, which is the program. *)
Class Float64 (F : Type) : Type := {
  fadd : F -> F -> F;
  fsub : F -> F -> F;
  fmul : F -> F -> F;
  fdiv : F -> F -> F;
  fltb : F -> F -> bool;
  fleb : F -> F -> bool;
  (** [float64(n)] for an int [n]; also integer-valued constants *)
  ofInt : Z -> F;
  (** [int(x)]; [None] where Go leaves the value to the implementation *)
  toInt : F -> option Z;
  MaxFloat64 : F
}.

Declare Scope f64_scope.
Delimit Scope f64_scope with f64.
Infix "+" := fadd : f64_scope.
Infix "-" := fsub : f64_scope.
Infix "*" := fmul : f64_scope.
Infix "/" := fdiv : f64_scope.
Infix "<?" := fltb : f64_scope.
Infix "<=?" := fleb : f64_scope.

(** [float64(n)], round to nearest even, for [|n| < 2^63]. *)
Definition Z2float (n : Z) : float :=
  if n <? 0 then PrimFloat.opp (PrimFloat.of_uint63 (Uint63.of_Z (- n)))
  else PrimFloat.of_uint63 (Uint63.of_Z n).

(** [int(x)]: truncation toward zero.  NaN, infinities and values outside
    the 64-bit range give an implementation-specific int in Go. *)
Definition float2Z (x : float) : option Z :=
  match Prim2SF x with
  | S754_zero _ => Some 0
  | S754_finite s m e =>
      let a := if 0 <=? e then Z.pos m * 2 ^ e else Z.pos m / 2 ^ (- e) in
      let v := if s then - a else a in
      if (- 2 ^ 63 <=? v) && (v <? 2 ^ 63) then Some v else None
  | S754_infinity _ | S754_nan => None
  end.

#[export] Instance float64 : Float64 float := {
  fadd := PrimFloat.add;
  fsub := PrimFloat.sub;
  fmul := PrimFloat.mul;
  fdiv := PrimFloat.div;
  fltb := PrimFloat.ltb;
  fleb := PrimFloat.leb;
  ofInt := Z2float;
  toInt := float2Z;
  MaxFloat64 := 0x1.fffffffffffffp+1023%float
}.

(** ** general_arrays_maths.go *)

Section ArrayMaths.
Context {F : Type} {ops : Float64 F}.
#[local] Open Scope f64_scope.

(** [data[start:end]] as a worker reads it. *)
Definition chunkElems (data : list F) (c : Z * Z) : list F :=
  firstn (Z.to_nat (snd c - fst c)) (skipn (Z.to_nat (fst c)) data).

(** The workers of one call: chunk numbers whose start lies inside the
    data ("dropping any chunk whose start >= L"). *)
Definition workers (length numGoroutines : Z) : list Z :=
  filter (fun i => i * chunkSize length numGoroutines <? length)%Z
         (zrange 0 numGoroutines).

(** The orders in which the partial results can arrive, one per worker.
    The spec drops the chunks that start beyond the data; the worker pools
    of the sources at hand start a goroutine for every chunk number, empty
    chunks included.  Both readings are admitted. *)
Definition deliveryOrder (length numGoroutines : Z) (order : list Z) : Prop :=
  Permutation order (workers length numGoroutines) \/
  Permutation order (zrange 0 numGoroutines).

(** Modelled from the spec: [arrayFloatBase], the fan-out of the parallel
    reducer, whose body is not part of the sources at hand ("each worker
    folds combine sequentially over its chunk starting from identity,
    producing one partial result per chunk").  The value is the content
    of the returned channel in the order it is received; [order] lists
    the workers in the order in which they sent, a [deliveryOrder]. *)
Definition arrayFloatBase (numCPU : Z) (order : list Z) (initial : F)
    (data : list F) (operation : F -> F -> F) : list F :=
  map (fun i =>
         fold_left (fun result info => operation info result)
                   (chunkElems data (convertChunk (len data) numCPU i))
                   initial)
      order.

(** [func arrayMean(data []float64) float64] *)
Definition arrayMean (numCPU : Z) (order : list Z) (data : list F) : F :=
  let chain := arrayFloatBase numCPU order (ofInt 0) data
                 (fun info result => result + info) in
  let result := fold_left (fun result val => result + val) chain (ofInt 0) in
  result / ofInt (len data).

(** [func arrayProduct(data []float64) float64] *)
Definition arrayProduct (numCPU : Z) (order : list Z) (data : list F) : F :=
  let chain := arrayFloatBase numCPU order (ofInt 1) data
                 (fun info result => result * info) in
  fold_left (fun result val => result * val) chain (ofInt 1).

(** [func arraySum(data []float64) float64] *)
Definition arraySum (numCPU : Z) (order : list Z) (data : list F) : F :=
  let chain := arrayFloatBase numCPU order (ofInt 0) data
                 (fun info result => result + info) in
  fold_left (fun result val => result + val) chain (ofInt 0).


(** [func arrayMin(data []float64) float64]; a receive from the closed,
    empty channel yields the zero value. *)
Definition arrayMin (numCPU : Z) (order : list Z) (data : list F) : F :=
  let maxChan := arrayFloatBase numCPU order MaxFloat64 data
                   (fun info result => if info <? result then info else result) in
  match maxChan with
  | [] => ofInt 0
  | minVal :: rest =>
      fold_left (fun minVal val => if val <? minVal then val else minVal)
                rest minVal
  end.

(** [func arrayMax(data []float64) float64] *)
Definition arrayMax (numCPU : Z) (order : list Z) (data : list F) : F :=
  let maxChan := arrayFloatBase numCPU order (MaxFloat64 * ofInt (-1)) data
                   (fun info result => if result <? info then info else result) in
  match maxChan with
  | [] => ofInt 0
  | minVal :: rest =>
      fold_left (fun minVal val => if minVal <? val then val else minVal)
                rest minVal
  end.

(** Merging two sorted runs. *)
Fixpoint merge (l1 : list F) : list F -> list F :=
  fix merge_l1 (l2 : list F) : list F :=
    match l1, l2 with
    | [], _ => l2
    | _, [] => l1
    | x :: l1', y :: l2' =>
        if x <=? y then x :: merge l1' l2 else y :: merge_l1 l2'
    end.

Fixpoint mergeSort (depth : nat) (nums : list F) : list F :=
  match depth with
  | O => nums
  | S depth' =>
      match nums with
      | [] | [_] => nums
      | _ =>
          let mid := Nat.div2 (List.length nums) in
          merge (mergeSort depth' (firstn mid nums))
                (mergeSort depth' (skipn mid nums))
      end
  end.

(** Modelled from the spec: [ParallelSortFloat], whose body is not part
    of the sources at hand ("parallel merge sort: recursively halve the
    range, sort each half independently, merge sorted halves"; it works
    on a private copy).  Halving a slice of length n reaches single
    elements within n levels. *)
Definition ParallelSortFloat (nums : list F) : list F :=
  mergeSort (List.length nums) nums.

(** [nums[i]] inside a function that returns a float64 *)
Definition at_ (nums : list F) (i : Z) (k : F -> result F) : result F :=
  match index nums i with
  | Some x => k x
  | None => Panic "index out of range"
  end.

(** [func arrayMedian(nums []float64) float64]; Go's [%] and [/] on ints
    are [Z.rem] and [Z.quot]. *)
Definition arrayMedian (nums : list F) : result F :=
  let nums := ParallelSortFloat nums in
  let n := len nums in
  if Z.rem n 2 =? 1 then
    at_ nums (Z.quot n 2) (fun m => Ok m)
  else
    at_ nums (Z.quot n 2 - 1) (fun a =>
    at_ nums (Z.quot n 2) (fun b =>
    Ok ((a + b) / ofInt 2))).

(** [func arrayCalculatePercentile(nums []float64, percentile float64) float64] *)
Definition arrayCalculatePercentile (nums : list F) (percentile : F) : result F :=
  let size := len nums in
  let index_ := (percentile / ofInt 100) * ofInt size in
  match toInt index_ with
  | None => Panic "int(index) is implementation-specific"
  | Some lower =>
      let upper := (lower + 1)%Z in
      let weight := index_ - ofInt lower in
      if (upper >=? size)%Z then
        at_ nums lower (fun v => Ok v)
      else
        at_ nums lower (fun lo =>
        at_ nums upper (fun hi =>
        Ok (lo * (ofInt 1 - weight) + hi * weight)))
  end.
End ArrayMaths.

(** ** Series reductions *)

(** Go's [error]: [None] is [nil], [Some msg] is [fmt.Errorf(msg)]. *)
Definition error : Type := option string.

Section Reductions.
(** [runtime.NumCPU()] and the order in which the workers of the
    reduction deliver their partial results. *)
Variables (numCPU : Z) (order : list Z).

(** [func (series *Series) GetMax() (float64, error)] *)
Definition GetMax (series : Series) : float * error :=
  if (DataType series =? "string")%string then
    (0%float, Some "to get max select a float column")
  else if GetLength series =? 0 then
    (0%float, Some "GetMax requires a non-empty array")
  else (arrayMax numCPU order (Float series), None).

(** [func (series *Series) GetMin() (float64, error)] *)
Definition GetMin (series : Series) : float * error :=
  if (DataType series =? "string")%string then
    (0%float, Some "to get min select a float column")
  else if GetLength series =? 0 then
    (0%float, Some "GetMin requires a non-empty array")
  else (arrayMin numCPU order (Float series), None).


(** [func (series *Series) GetMedian() (float64, error)];
    [arrayMedian] indexes the sorted slice and may panic. *)
Definition GetMedian (series : Series) : result (float * error) :=
  if (DataType series =? "string")%string then
    Ok (0%float, Some "to get median select a float column")
  else if GetLength series =? 0 then
    Ok (0%float, Some "GetMedian requires a non-empty array")
  else
    match arrayMedian (Float series) with
    | Ok m => Ok (m, None)
    | Panic msg => Panic msg
    end.



End Reductions.

(** ** The conversion worker pool

    [ConvertStringToFloat] and [ConvertFloatToString] run the same loop in
    every goroutine:
<<
      for j := start; j < end; j++ {
          if firstErr != nil { return }
          val, err := convert(input[j])
          if err != nil { once.Do(func() { firstErr = err }); return }
          mu.Lock(); output[j] = val; mu.Unlock()
      }
>>
    (in [ConvertFloatToString] the conversion cannot fail).  One step of the
    pool is one loop iteration of one goroutine.  The read of [firstErr] is
    not synchronised with the write inside [once.Do]: a goroutine may still
    see [nil] after another one has stored its error, which the [stale]
    flag of a step expresses. *)

Inductive goroutine : Type :=
| Running (j end_ : Z)
| Done.

Fixpoint set_nth {A} (l : list A) (n : nat) (v : A) : option (list A) :=
  match l, n with
  | [], _ => None
  | _ :: l', O => Some (v :: l')
  | x :: l', S n' =>
      match set_nth l' n' v with
      | Some r => Some (x :: r)
      | None => None
      end
  end.

(** [l[i] = v]; [None] stands for the panic "index out of range". *)
Definition setIndex {A} (l : list A) (i : Z) (v : A) : option (list A) :=
  if i <? 0 then None else set_nth l (Z.to_nat i) v.

Section ConversionPool.
Variables (A B E : Type).
Variable convert : A -> B + E.
Variable input : list A.

Record poolState : Type := mkPool {
  firstErr : option E;
  output : list B;
  pool : list goroutine;
  panicked : bool
}.

Definition setGoroutine (w : nat) (g : goroutine) (st : poolState) : poolState :=
  match set_nth (pool st) w g with
  | Some p => mkPool (firstErr st) (output st) p (panicked st)
  | None => st
  end.

(** What the unsynchronised test [firstErr != nil] yields. *)
Definition seesError (stale : bool) (st : poolState) : bool :=
  match firstErr st with
  | Some _ => negb stale
  | None => false
  end.

(** [once.Do(func() { firstErr = err })] *)
Definition onceDo (err : E) (st : poolState) : poolState :=
  match firstErr st with
  | Some _ => st
  | None => mkPool (Some err) (output st) (pool st) (panicked st)
  end.

Definition crash (st : poolState) : poolState :=
  mkPool (firstErr st) (output st) (pool st) true.

(** One loop iteration of goroutine [w]. *)
Definition poolStep (w : nat) (stale : bool) (st : poolState) : poolState :=
  match nth_error (pool st) w with
  | Some (Running j end_) =>
      if j <? end_ then
        if seesError stale st then setGoroutine w Done st
        else
          match index input j with
          | None => crash st
          | Some x =>
              match convert x with
              | inr err => setGoroutine w Done (onceDo err st)
              | inl val =>
                  match setIndex (output st) j val with
                  | None => crash st
                  | Some out =>
                      setGoroutine w (Running (j + 1) end_)
                        (mkPool (firstErr st) out (pool st) (panicked st))
                  end
              end
          end
      else setGoroutine w Done st
  | Some Done | None => st
  end.

(** A schedule names, step by step, the goroutine that runs and whether
    its read of [firstErr] is stale. *)
Definition schedule : Type := list (nat * bool).

Definition runSchedule (sched : schedule) (st : poolState) : poolState :=
  fold_left (fun st step => poolStep (fst step) (snd step) st) sched st.

(** [wg.Wait()]: the caller resumes only when every goroutine has
    returned.  Goroutines the schedule has left unfinished run to their
    end one after the other (each needs at most one iteration per element
    and one more to leave its loop). *)
Definition waitAll (st : poolState) : poolState :=
  fold_left
    (fun st w => Nat.iter (S (List.length input)) (poolStep w false) st)
    (seq 0 (List.length (pool st))) st.

(** The pool as the loop [for i := 0; i < numGoroutines; i++] starts it,
    over a fresh output slice [make([]B, length)]. *)
Definition startPool (numGoroutines : Z) (zero : B) : poolState :=
  let length := len input in
  mkPool None (repeat zero (Z.to_nat length))
    (map (fun i => let c := convertChunk length numGoroutines i in
                   Running (fst c) (snd c))
         (zrange 0 numGoroutines))
    false.

Definition runPool (numGoroutines : Z) (zero : B) (sched : schedule) : poolState :=
  waitAll (runSchedule sched (startPool numGoroutines zero)).
End ConversionPool.

Arguments firstErr {B E} _.
Arguments output {B E} _.
Arguments pool {B E} _.
Arguments panicked {B E} _.
Arguments mkPool {B E} _ _ _ _.
Arguments setGoroutine {B E} _ _ _.
Arguments seesError {B E} _ _.
Arguments onceDo {B E} _ _.
Arguments crash {B E} _.
Arguments poolStep {A B E} _ _ _ _ _.
Arguments runSchedule {A B E} _ _ _ _.
Arguments waitAll {A B E} _ _ _.
Arguments startPool {A B E} _ _ _.
Arguments runPool {A B E} _ _ _ _ _.

(** ** What holds of the pool while it runs *)

Section PoolVocabulary.
Variables (A B E : Type).
Variable convert : A -> B + E.
Variable input : list A.
Variable P : Z.

(** Bounds of the chunk of goroutine [w]. *)
Definition lo (w : nat) : Z := fst (convertChunk (len input) P (Z.of_nat w)).
Definition hi (w : nat) : Z := snd (convertChunk (len input) P (Z.of_nat w)).

(** Element [k] converts to [v]. *)
Definition converts (k : Z) (v : B) : Prop :=
  exists x, index input k = Some x /\ convert x = inl v.

(** How far a goroutine has got. *)
Definition progress (w : nat) (g : goroutine) : Z :=
  match g with
  | Running j _ => j
  | Done => hi w
  end.

(** The invariant of the pool. *)
Record poolInv (st : poolState B E) : Prop := {
  inv_alive : panicked st = false;
  inv_pool : List.length (pool st) = Z.to_nat P;
  inv_output : len (output st) = len input;
  inv_range : forall w j e, nth_error (pool st) w = Some (Running j e) ->
      e = hi w /\ lo w <= j /\ (j <= e \/ j = lo w);
  inv_written : firstErr st = None ->
      forall w g k, nth_error (pool st) w = Some g ->
        lo w <= k < progress w g -> k < hi w ->
        exists v, converts k v /\ index (output st) k = Some v;
  inv_error : forall err, firstErr st = Some err ->
      exists w k x, (w < Z.to_nat P)%nat /\ lo w <= k < hi w /\
        index input k = Some x /\ convert x = inr err /\
        forall k', lo w <= k' < k -> exists v, converts k' v
}.

(** Iterations a goroutine still needs before it has returned. *)
Definition remaining (g : goroutine) : nat :=
  match g with
  | Running j e => S (Z.to_nat (e - j))
  | Done => 0
  end.
End PoolVocabulary.

Arguments lo {A} input P w.
Arguments hi {A} input P w.
Arguments converts {A B E} convert input k v.
Arguments progress {A} input P w g.
Arguments poolInv {A B E} convert input P st.
Arguments inv_alive {A B E convert input P} st _.
Arguments inv_pool {A B E convert input P} st _.
Arguments inv_output {A B E convert input P} st _.
Arguments inv_range {A B E convert input P} st _ w j e _.
Arguments inv_written {A B E convert input P} st _ _ w g k _ _ _.
Arguments inv_error {A B E convert input P} st _ err _.

(** ** Series conversions *)

(** [*strconv.NumError] *)
Record NumError : Type := mkNumError {
  Func : string;
  Num : string;
  Err : string
}.

Section Conversions.
(** [strconv.ParseFloat(s, bitSize)]: the value, or the error when
    [err != nil]. *)
Variable ParseFloat : string -> Z -> float + NumError.
(** [strconv.FormatFloat(f, fmt, prec, bitSize)] *)
Variable FormatFloat : float -> ascii -> Z -> Z -> string.
(** [runtime.NumCPU()] *)
Variable numCPU : Z.

(** [func (series *Series) ConvertStringToFloat()].  The function has no
    result; besides the Series, the model returns what the call prints:
    [Some err] for
    [fmt.Println("Processing stopped due to error: ", firstErr)]. *)
Definition ConvertStringToFloat (sched : schedule) (series : Series)
    : result (Series * option NumError) :=
  if (DataType series =? "float")%string then Ok (series, None)
  else
    let st := runPool (fun s => ParseFloat s 64) (String series)
                numCPU 0%float sched in
    if panicked st then Panic "index out of range"
    else
      match firstErr st with
      | Some err => Ok (series, Some err)
      | None => Ok (mkSeries (output st) [] (DataType series), None)
      end.

(** [func (series *Series) ConvertFloatToString()]; [firstErr] is never
    assigned here, the conversion being total. *)
Definition ConvertFloatToString (sched : schedule) (series : Series)
    : result (Series * option NumError) :=
  if (DataType series =? "string")%string then Ok (series, None)
  else
    let st := runPool (E := NumError)
                (fun f => inl (FormatFloat f "f"%char (-1) 64))
                (Float series) numCPU EmptyString sched in
    if panicked st then Panic "index out of range"
    else
      match firstErr st with
      | Some err => Ok (series, Some err)
      | None => Ok (mkSeries [] (output st) (DataType series), None)
      end.
End Conversions.

(** ** A reference reading of [strconv.ParseFloat(s, 64)]

    The theorems about conversion hold for every parser.  The concrete
    evaluations below use this reading of the decimal grammar of Go's
    [ParseFloat]: optional sign, ["inf"]/["infinity"]/["nan"] in any case,
    or digits with an optional point and an optional decimal exponent, the
    value rounded to the nearest binary64 (ties to even).  Hexadecimal
    mantissas and digit-separating underscores are outside this reading. *)

Definition isDigit (c : ascii) : bool :=
  ((48 <=? nat_of_ascii c) && (nat_of_ascii c <=? 57))%nat.

Definition digitVal (c : ascii) : Z := Z.of_nat (nat_of_ascii c) - 48.

Definition lower (c : ascii) : ascii :=
  if ((65 <=? nat_of_ascii c) && (nat_of_ascii c <=? 90))%nat
  then ascii_of_nat (nat_of_ascii c + 32) else c.

(** Leading digits of [cs]: their value appended to [acc], how many there
    were, and the rest of the input. *)
Fixpoint readDigits (cs : list ascii) (acc : Z) (count : Z)
    : Z * Z * list ascii :=
  match cs with
  | c :: rest =>
      if isDigit c then readDigits rest (acc * 10 + digitVal c) (count + 1)
      else (acc, count, cs)
  | [] => (acc, count, cs)
  end.

(** Exponent digits; like Go, stop accumulating once the value has reached
    10000 (such exponents are out of range whatever follows). *)
Fixpoint readExponent (cs : list ascii) (e : Z) (count : Z)
    : Z * Z * list ascii :=
  match cs with
  | c :: rest =>
      if isDigit c
      then readExponent rest (if e <? 10000 then e * 10 + digitVal c else e)
                        (count + 1)
      else (e, count, cs)
  | [] => (e, count, cs)
  end.

(** [mantissa * 10^exp10] for a well-formed decimal numeral. *)
Definition readDecimal (cs : list ascii) : option (Z * Z) :=
  let '(intPart, nInt, rest) := readDigits cs 0 0 in
  let '(mant, nFrac, rest) :=
    match rest with
    | "."%char :: rest' => readDigits rest' intPart 0
    | _ => (intPart, 0, rest)
    end in
  if nInt + nFrac =? 0 then None
  else
    match rest with
    | [] => Some (mant, - nFrac)
    | e :: rest' =>
        if (lower e =? "e")%char then
          let '(esign, rest'') :=
            match rest' with
            | "+"%char :: r => (1, r)
            | "-"%char :: r => (-1, r)
            | _ => (1, rest')
            end in
          match readExponent rest'' 0 0 with
          | (ex, n, []) => if n =? 0 then None else Some (mant, esign * ex - nFrac)
          | _ => None
          end
        else None
    end.

(** The binary64 nearest to [n / d] ([n >= 0], [d > 0]), ties to even: the
    quotient is taken with more than 53 significant bits and a sticky bit
    and then rounded once. *)
Definition roundRatio (n d : Z) : spec_float :=
  if n =? 0 then S754_zero false
  else
    let k := 60 - (Z.log2 n - Z.log2 d) in
    let num := if 0 <=? k then n * 2 ^ k else n in
    let den := if 0 <=? k then d else d * 2 ^ (- k) in
    let q := num / den in
    let sticky := if num mod den =? 0 then 0 else 1 in
    binary_normalize prec emax (2 * q + sticky) (- k - 1) false.

Definition errSyntax (s : string) : NumError :=
  mkNumError "ParseFloat" s "invalid syntax".

Definition errRange (s : string) : NumError :=
  mkNumError "ParseFloat" s "value out of range".

Definition parseUnsigned (s : string) (neg : bool) (cs : list ascii)
    : float + NumError :=
  let word := string_of_list_ascii (map lower cs) in
  if (word =? "inf")%string || (word =? "infinity")%string then
    inl (if neg then neg_infinity else infinity)
  else
    match readDecimal cs with
    | None => inr (errSyntax s)
    | Some (mant, exp10) =>
        let sf := if 0 <=? exp10 then roundRatio (mant * 10 ^ exp10) 1
                  else roundRatio mant (10 ^ (- exp10)) in
        match sf with
        | S754_infinity _ => inr (errRange s)
        | _ => let x := SF2Prim sf in
               inl (if neg then PrimFloat.opp x else x)
        end
    end.

Definition ParseFloat64 (s : string) (bitSize : Z) : float + NumError :=
  match list_ascii_of_string s with
  | "+"%char :: cs => parseUnsigned s false cs
  | "-"%char :: cs => parseUnsigned s true cs
  | cs =>
      if (string_of_list_ascii (map lower cs) =? "nan")%string then inl nan
      else parseUnsigned s false cs
  end.

(** ** Vocabulary of the statements *)

(** [condition(data[j])], for [j] inside the slice. *)
Definition holdsAt {A} (data : list A) (condition : A -> bool) (j : Z) : bool :=
  match index data j with
  | Some x => condition x
  | None => false
  end.

(** The matching indexes in ascending order. *)
Definition matching {A} (data : list A) (condition : A -> bool) : list Z :=
  filter (holdsAt data condition) (zrange 0 (len data)).


(** ** The rewriting worker pool (Replace, ReplaceWholeWord)

    Both functions let every goroutine rewrite its own chunk of the shared
    slice in place:
<<
      for j := start; j < end; j++ {
          series.String[j] = rewrite(series.String[j])
      }
>>
    One step of the pool is one loop iteration of one goroutine; a schedule
    names the goroutine that runs at each step. *)

Section RewritePool.
Variable A : Type.
Variable rewrite : A -> A.

Record rewriteState : Type := mkRewrite {
  cells : list A;
  crew : list goroutine;
  crashed : bool
}.

Definition setCrew (w : nat) (g : goroutine) (st : rewriteState) : rewriteState :=
  match set_nth (crew st) w g with
  | Some c => mkRewrite (cells st) c (crashed st)
  | None => st
  end.

(** One loop iteration of goroutine [w]. *)
Definition rewriteStep (w : nat) (st : rewriteState) : rewriteState :=
  match nth_error (crew st) w with
  | Some (Running j end_) =>
      if j <? end_ then
        match index (cells st) j with
        | None => mkRewrite (cells st) (crew st) true
        | Some x =>
            match setIndex (cells st) j (rewrite x) with
            | None => mkRewrite (cells st) (crew st) true
            | Some c =>
                setCrew w (Running (j + 1) end_)
                  (mkRewrite c (crew st) (crashed st))
            end
        end
      else setCrew w Done st
  | Some Done | None => st
  end.

Definition runRewrite (sched : list nat) (st : rewriteState) : rewriteState :=
  fold_left (fun st w => rewriteStep w st) sched st.

(** [wg.Wait()]: goroutines the schedule has left unfinished run to their
    end one after the other. *)
Definition joinAll (st : rewriteState) : rewriteState :=
  fold_left
    (fun st w => Nat.iter (S (List.length (cells st))) (rewriteStep w) st)
    (seq 0 (List.length (crew st))) st.

(** The pool as [for i := 0; i < numGoroutines; i++] starts it over the
    slice [data], with the chunks of [length]. *)
Definition startRewrite (data : list A) (length numGoroutines : Z) : rewriteState :=
  mkRewrite data
    (map (fun i => let c := convertChunk length numGoroutines i in
                   Running (fst c) (snd c))
         (zrange 0 numGoroutines))
    false.

Definition rewritePool (data : list A) (length numGoroutines : Z)
    (sched : list nat) : rewriteState :=
  joinAll (runRewrite sched (startRewrite data length numGoroutines)).

(** What holds of the pool over the original slice [orig] while it runs:
    a cell a goroutine has passed holds the rewritten element, every other
    cell the original one. *)
Record rewriteInv (orig : list A) (P : Z) (st : rewriteState) : Prop := {
  rw_alive : crashed st = false;
  rw_crew : List.length (crew st) = Z.to_nat P;
  rw_len : len (cells st) = len orig;
  rw_range : forall w j e, nth_error (crew st) w = Some (Running j e) ->
      e = hi orig P w /\ lo orig P w <= j /\ (j <= e \/ j = lo orig P w);
  rw_cells : forall w g k x, nth_error (crew st) w = Some g ->
      lo orig P w <= k < hi orig P w -> index orig k = Some x ->
      index (cells st) k
      = Some (if k <? progress orig P w g then rewrite x else x)
}.
End RewritePool.

Arguments cells {A} _.
Arguments crew {A} _.
Arguments crashed {A} _.
Arguments mkRewrite {A} _ _ _.
Arguments setCrew {A} _ _ _.
Arguments rewriteStep {A} _ _ _.
Arguments runRewrite {A} _ _ _.
Arguments joinAll {A} _ _.
Arguments startRewrite {A} _ _ _.
Arguments rewritePool {A} _ _ _ _ _.
Arguments rewriteInv {A} rewrite orig P st.
Arguments rw_alive {A rewrite orig P} st _.
Arguments rw_crew {A rewrite orig P} st _.
Arguments rw_len {A rewrite orig P} st _.
Arguments rw_range {A rewrite orig P} st _ w j e _.
Arguments rw_cells {A rewrite orig P} st _ w g k x _ _ _.

(** ** Series text rewriting *)

Section TextRewriting.
(** [strings.ReplaceAll(s, old, new)] *)
Variable ReplaceAll : string -> string -> string -> string.
(** [regexp.QuoteMeta(s)] *)
Variable QuoteMeta : string -> string.
(** [regexp.MustCompile(pattern)]: the compiled expression, or [None] where
    it panics. *)
Variable Regexp : Type.
Variable MustCompile : string -> option Regexp.
(** [re.ReplaceAllString(src, repl)] *)
Variable ReplaceAllString : Regexp -> string -> string -> string.
(** [runtime.NumCPU()] *)
Variable numCPU : Z.

(** [func (series *Series) ReplaceWholeWord(old, new string)] *)
Definition ReplaceWholeWord (sched : list nat) (old new : string)
    (series : Series) : result Series :=
  if (DataType series =? "float")%string || (GetLength series =? 0) then
    Ok series
  else
    let numGoroutines := numCPU in
    let length := GetLength series in
    let pattern := ("\b" ++ QuoteMeta old ++ "\b")%string in
    match MustCompile pattern with
    | None => Panic "regexp: Compile"
    | Some re =>
        let st := rewritePool (fun s => ReplaceAllString re s new)
                    (String series) length numGoroutines sched in
        if crashed st then Panic "index out of range"
        else Ok (mkSeries (Float series) (cells st) (DataType series))
    end.

(** [func (series *Series) Replace(old, new string)] *)
Definition Replace (sched : list nat) (old new : string)
    (series : Series) : result Series :=
  if (DataType series =? "float")%string || (GetLength series =? 0) then
    Ok series
  else
    let numGoroutines := numCPU in
    let length := GetLength series in
    let st := rewritePool (fun s => ReplaceAll s old new)
                (String series) length numGoroutines sched in
    if crashed st then Panic "index out of range"
    else Ok (mkSeries (Float series) (cells st) (DataType series)).
End TextRewriting.

(** ** Auxiliary queries *)

Section AuxiliaryQueries.
(** [arrayStringCountWord] and [arrayGetNonFloatValues] are declared
    outside the sources at hand; the two methods only dispatch to them. *)
Variable arrayStringCountWord : list string -> string -> float.
Variable arrayGetNonFloatValues : list string -> list string.

(** [func (series *Series) CountWord(word string) float64] *)
Definition CountWord (series : Series) (word : string) : float :=
  if (DataType series =? "float")%string then 0%float
  else arrayStringCountWord (String series) word.

(** [func (series *Series) GetNonFloatValues() []string] *)
Definition GetNonFloatValues (series : Series) : list string :=
  if (DataType series =? "float")%string then []
  else arrayGetNonFloatValues (String series).
End AuxiliaryQueries.

(** ** Vocabulary of the reducer statements *)

Section ReducerVocabulary2.
Context {F : Type} {ops : Float64 F}.

(** The shape [arrayMin] and [arrayMax] share: every worker keeps the
    element that [before] puts first, starting from [initial]; the caller
    does the same over the partial results, starting from the first one
    received. *)
Definition selectReduce (before : F -> F -> bool) (initial : F)
    (numCPU : Z) (order : list Z) (data : list F) : F :=
  match arrayFloatBase numCPU order initial data
          (fun info result => if before info result then info else result) with
  | [] => ofInt 0
  | first :: rest =>
      fold_left (fun best val => if before val best then val else best)
                rest first
  end.
End ReducerVocabulary2.

(** ** Vocabulary of the reducer statements, continued *)

Section Groupings.
Context {F : Type}.

(** A way of combining values pairwise: which values are combined with
    which, in what order, and where the start value enters. *)
Inductive grouping : Type :=
| Start
| Elem (x : F)
| Join (l r : grouping).

(** The value of a grouping under the operation [op]. *)
Fixpoint combined (op : F -> F -> F) (start : F) (t : grouping) : F :=
  match t with
  | Start => start
  | Elem x => x
  | Join l r => op (combined op start l) (combined op start r)
  end.

(** The values a grouping combines, left to right. *)
Fixpoint elements (t : grouping) : list F :=
  match t with
  | Start => []
  | Elem x => [x]
  | Join l r => elements l ++ elements r
  end.
End Groupings.
Arguments grouping F : clear implicits.

(** The sum and the product of a list of integers. *)
Definition sumZ (l : list Z) : Z := fold_right Z.add 0 l.
Definition prodZ (l : list Z) : Z := fold_right Z.mul 1 l.


(** Not a NaN. *)
Definition isNumber (x : float) : bool := PrimFloat.eqb x x.


(** [m] is the least of [cap] and the numbers of [data]. *)
Definition leastOf (cap : float) (data : list float) (m : float) : Prop :=
  isNumber m = true /\
  PrimFloat.leb m cap = true /\
  (forall x, In x data -> isNumber x = true -> PrimFloat.leb m x = true) /\
  (m = cap \/ In m data).

(** [m] is the greatest of [floor] and the numbers of [data]. *)
Definition greatestOf (floor : float) (data : list float) (m : float) : Prop :=
  isNumber m = true /\
  PrimFloat.leb floor m = true /\
  (forall x, In x data -> isNumber x = true -> PrimFloat.leb x m = true) /\
  (m = floor \/ In m data).


(** ** binary64 values of integers

    An integer [v] with [0 < v < 2^53] is the binary64 number with the
    53-bit mantissa [cman v] and the exponent [cexp v]. *)
Definition cexp (v : positive) : Z := Z.pos (digits2_pos v) - 53.
Definition cman (v : positive) : positive := Z.to_pos (Z.pos v * 2 ^ (- cexp v)).

Definition SFint (z : Z) : spec_float :=
  match z with
  | 0 => S754_zero false
  | Z.pos v => S754_finite false (cman v) (cexp v)
  | Z.neg v => S754_finite true (cman v) (cexp v)
  end.
(** ** Facts about ranges *)

Lemma zrange_nil lo hi : hi <= lo -> zrange lo hi = [].
Proof.
  intros H. unfold zrange.
  replace (Z.to_nat (hi - lo)) with 0%nat by lia. reflexivity.
Qed.

Lemma seq_from (a b : nat) : seq a b = map (Nat.add a) (seq 0 b).
Proof.
  induction a as [|a IH].
  - now rewrite map_id.
  - rewrite <- seq_shift, IH, map_map. reflexivity.
Qed.

Lemma zrange_app lo mid hi :
  lo <= mid -> mid <= hi -> zrange lo mid ++ zrange mid hi = zrange lo hi.
Proof.
  intros H1 H2. unfold zrange.
  replace (Z.to_nat (hi - lo))
    with (Z.to_nat (mid - lo) + Z.to_nat (hi - mid))%nat by lia.
  rewrite seq_app, map_app. f_equal.
  rewrite (seq_from (0 + _)), map_map.
  apply map_ext. intros k. lia.
Qed.

Lemma in_zrange lo hi j : In j (zrange lo hi) <-> lo <= j < hi.
Proof.
  unfold zrange. rewrite in_map_iff. split.
  - intros (k & <- & Hk). apply in_seq in Hk. lia.
  - intros H. exists (Z.to_nat (j - lo)). split; [lia|].
    apply in_seq. lia.
Qed.

Lemma zrange_succ lo hi : lo <= hi -> zrange lo (hi + 1) = zrange lo hi ++ [hi].
Proof.
  intros H. rewrite <- (zrange_app lo hi (hi + 1)) by lia. f_equal.
  unfold zrange. replace (Z.to_nat (hi + 1 - hi)) with 1%nat by lia.
  simpl. f_equal. lia.
Qed.

Lemma length_zrange lo hi : List.length (zrange lo hi) = Z.to_nat (hi - lo).
Proof. unfold zrange. now rewrite length_map, length_seq. Qed.

Lemma len_nonneg {A} (l : list A) : 0 <= len l.
Proof. unfold len. lia. Qed.

(** ** Facts about the chunk partitioner *)

Lemma chunkSize_div L P : 0 <= L -> 1 <= P -> chunkSize L P = (L + P - 1) / P.
Proof. intros. unfold chunkSize. apply Z.quot_div_nonneg; lia. Qed.

Lemma chunkSize_bounds L P :
  0 <= L -> 1 <= P ->
  0 <= chunkSize L P /\ L <= P * chunkSize L P <= L + P - 1.
Proof.
  intros HL HP. rewrite chunkSize_div by assumption.
  pose proof (Z.div_mod (L + P - 1) P ltac:(lia)) as E.
  pose proof (Z.mod_pos_bound (L + P - 1) P ltac:(lia)) as B.
  pose proof (Z.div_pos (L + P - 1) P ltac:(lia) ltac:(lia)).
  lia.
Qed.

Lemma convertChunk_filterChunk L P i : convertChunk L P i = filterChunk L P i.
Proof.
  unfold convertChunk, filterChunk.
  replace (i * chunkSize L P + chunkSize L P) with ((i + 1) * chunkSize L P) by lia.
  reflexivity.
Qed.

Lemma filterChunk_eq L P i :
  filterChunk L P i = (i * chunkSize L P, Z.min ((i + 1) * chunkSize L P) L).
Proof.
  unfold filterChunk. f_equal.
  destruct (Z.gtb_spec ((i + 1) * chunkSize L P) L); lia.
Qed.

(** The arithmetic stays inside Go's 64-bit [int] whenever
    [length + numGoroutines - 1] does, so modelling [int] by [Z] loses
    nothing. *)
Lemma chunk_arith_in_int64 L P i :
  0 <= L -> 1 <= P -> L + P - 1 < 2 ^ 63 -> 0 <= i < P ->
  0 <= i * chunkSize L P < 2 ^ 63 /\ 0 <= (i + 1) * chunkSize L P < 2 ^ 63.
Proof.
  intros HL HP Hm Hi.
  destruct (chunkSize_bounds L P HL HP) as [H0 [_ H2]]. nia.
Qed.

Lemma concat_chunks_prefix L P (k : nat) :
  0 <= L -> 1 <= P ->
  concat (map chunkIndexes (map (filterChunk L P) (zrange 0 (Z.of_nat k))))
  = zrange 0 (Z.min (Z.of_nat k * chunkSize L P) L).
Proof.
  intros HL HP. destruct (chunkSize_bounds L P HL HP) as [H0 _].
  induction k as [|k IH].
  - simpl. rewrite !zrange_nil by lia. reflexivity.
  - replace (Z.of_nat (S k)) with (Z.of_nat k + 1) by lia.
    rewrite zrange_succ by lia.
    rewrite !map_app, concat_app, IH. simpl. rewrite app_nil_r.
    rewrite filterChunk_eq. unfold chunkIndexes. simpl.
    destruct (Z.le_gt_cases L (Z.of_nat k * chunkSize L P)) as [Hge|Hlt].
    + rewrite (zrange_nil (_ * _)) by lia. rewrite app_nil_r. f_equal. lia.
    + replace (Z.min (Z.of_nat k * chunkSize L P) L)
        with (Z.of_nat k * chunkSize L P) by lia.
      apply zrange_app; lia.
Qed.

(** Concatenating the chunks, worker 0 first, enumerates [0, L) exactly
    once and in order. *)
Lemma concat_chunks L P :
  0 <= L -> 1 <= P -> concat (map chunkIndexes (chunks L P)) = zrange 0 L.
Proof.
  intros HL HP. unfold chunks.
  replace P with (Z.of_nat (Z.to_nat P)) at 2 by lia.
  rewrite concat_chunks_prefix by assumption.
  destruct (chunkSize_bounds L P HL HP) as [_ [H1 _]].
  f_equal. lia.
Qed.

Lemma in_chunk L P i j :
  In j (chunkIndexes (filterChunk L P i)) <->
  i * chunkSize L P <= j < (i + 1) * chunkSize L P /\ j < L.
Proof.
  rewrite filterChunk_eq. unfold chunkIndexes. simpl.
  rewrite in_zrange. lia.
Qed.

Lemma in_some_chunk L P j :
  0 <= L -> 1 <= P -> 0 <= j < L ->
  exists i, 0 <= i < P /\ In j (chunkIndexes (filterChunk L P i)).
Proof.
  intros HL HP Hj.
  assert (Hin : In j (concat (map chunkIndexes (chunks L P)))).
  { rewrite concat_chunks by assumption. apply in_zrange. lia. }
  apply in_concat in Hin. destruct Hin as (l & Hl & Hjl).
  apply in_map_iff in Hl. destruct Hl as (c & <- & Hc).
  unfold chunks in Hc. apply in_map_iff in Hc. destruct Hc as (i & <- & Hi).
  apply in_zrange in Hi. now exists i.
Qed.

(** C5: chunk partitioner: for every length L >= 0 and worker count
    P >= 1 the ranges [i*chunkSize, min((i+1)*chunkSize, L)), i = 0..P-1,
    with chunkSize = ceil(L / P), are pairwise disjoint and ordered by
    index, their union is exactly [0, L) (their concatenation is the
    enumeration 0, 1, ..., L-1), both chunk formulas of the source agree,
    and for L = 0 every chunk is empty. *)
Theorem chunks_partition (L P : Z) :
  0 <= L -> 1 <= P ->
  (* chunkSize = ceil(L / P) *)
  (chunkSize L P * P >= L /\ (chunkSize L P - 1) * P < L) /\
  (* the two ways the source computes a chunk agree *)
  (forall i, convertChunk L P i = filterChunk L P i) /\
  (* union, in order, without repetition *)
  concat (map chunkIndexes (chunks L P)) = zrange 0 L /\
  (forall j, 0 <= j < L <->
     exists i, 0 <= i < P /\ In j (chunkIndexes (filterChunk L P i))) /\
  (* ordered, hence pairwise disjoint *)
  (forall i1 i2 j1 j2, 0 <= i1 -> i1 < i2 -> i2 < P ->
     In j1 (chunkIndexes (filterChunk L P i1)) ->
     In j2 (chunkIndexes (filterChunk L P i2)) -> j1 < j2) /\
  (forall i1 i2 j, 0 <= i1 < P -> 0 <= i2 < P ->
     In j (chunkIndexes (filterChunk L P i1)) ->
     In j (chunkIndexes (filterChunk L P i2)) -> i1 = i2) /\
  (* no non-empty chunk when L = 0 *)
  (L = 0 -> forall i, 0 <= i < P -> chunkIndexes (filterChunk L P i) = []).
Proof.
  intros HL HP.
  destruct (chunkSize_bounds L P HL HP) as [H0 [H1 H2]].
  repeat split.
  - lia.
  - lia.
  - apply convertChunk_filterChunk.
  - now apply concat_chunks.
  - intros Hj. now apply in_some_chunk.
  - destruct H as (i & Hi & Hj). apply in_chunk in Hj. nia.
  - destruct H as (i & Hi & Hj). apply in_chunk in Hj. lia.
  - intros i1 i2 j1 j2 Hi1 Hlt Hi2 Hj1 Hj2.
    apply in_chunk in Hj1, Hj2. nia.
  - intros i1 i2 j Hi1 Hi2 Hj1 Hj2.
    apply in_chunk in Hj1, Hj2.
    destruct (Z.lt_trichotomy i1 i2) as [Hlt|[Heq|Hgt]]; [nia|assumption|nia].
  - intros -> i Hi. rewrite filterChunk_eq. unfold chunkIndexes. simpl.
    apply zrange_nil. nia.
Qed.

Lemma chunks_partition_witness :
  concat (map chunkIndexes (chunks 5 4)) = zrange 0 5 /\
  map (filterChunk 5 4) (zrange 0 4) = [(0, 2); (2, 4); (4, 5); (6, 5)].
Proof.
  split.
  - exact (proj1 (proj2 (proj2
      (chunks_partition 5 4 ltac:(lia) ltac:(lia))))).
  - reflexivity.
Defined.


(** ** Slices *)

Lemma index_Some {A} (l : list A) i :
  0 <= i < len l -> exists x, index l i = Some x.
Proof.
  intros Hi. unfold index, len in *.
  destruct (Z.ltb_spec i 0); [lia|].
  destruct (nth_error l (Z.to_nat i)) eqn:E; [eauto|].
  apply nth_error_None in E. lia.
Qed.

Lemma index_Some_lt {A} (l : list A) i x : index l i = Some x -> 0 <= i < len l.
Proof.
  unfold index, len. destruct (Z.ltb_spec i 0); [discriminate|].
  intros E. assert (Hn : nth_error l (Z.to_nat i) <> None) by congruence.
  apply nth_error_Some in Hn. lia.
Qed.

Lemma gather_in_bounds {A} (data : list A) indexes :
  (forall idx, In idx indexes -> 0 <= idx < len data) ->
  exists xs, gather data indexes = Some xs /\
             map Some xs = map (index data) indexes.
Proof.
  induction indexes as [|idx rest IH]; intros Hb.
  - exists []. split; reflexivity.
  - destruct (index_Some data idx) as [x Hx]; [apply Hb; now left|].
    destruct IH as (xs & Hg & Hm); [intros; apply Hb; now right|].
    exists (x :: xs). simpl. rewrite Hx, Hg. split; [reflexivity|].
    now rewrite Hm.
Qed.

Lemma gather_length {A} (data : list A) indexes xs :
  gather data indexes = Some xs -> List.length xs = List.length indexes.
Proof.
  revert xs. induction indexes as [|idx rest IH]; simpl; intros xs H.
  - now inversion H.
  - destruct (index data idx); [|discriminate].
    destruct (gather data rest) eqn:E; [|discriminate].
    inversion H; subst. simpl. f_equal. now apply IH.
Qed.

(** ** RemoveIndexes *)

(** C9: for every Series and every list of in-bounds indexes,
    RemoveIndexes replaces the active backing sequence (Float when the tag
    is "float", String otherwise) by exactly the elements at the listed
    positions, in list order: it retains the listed indexes.  The other
    sequence and the DataType tag are unchanged. *)
Theorem RemoveIndexes_keeps_listed (series : Series) (indexes : list Z) :
  (forall idx, In idx indexes ->
     0 <= idx < (if (DataType series =? "float")%string
                 then len (Float series) else len (String series))) ->
  exists series',
    RemoveIndexes series indexes = Ok series' /\
    DataType series' = DataType series /\
    (DataType series = "float" ->
       map Some (Float series') = map (index (Float series)) indexes /\
       String series' = String series) /\
    (DataType series <> "float" ->
       map Some (String series') = map (index (String series)) indexes /\
       Float series' = Float series).
Proof.
  intros Hb. unfold RemoveIndexes.
  destruct (String.eqb_spec (DataType series) "float") as [Ht|Ht].
  - destruct (gather_in_bounds (Float series) indexes Hb) as (xs & Hg & Hm).
    rewrite Hg. eexists. split; [reflexivity|]. simpl.
    split; [reflexivity|]. split.
    + intros _. now split.
    + congruence.
  - destruct (gather_in_bounds (String series) indexes Hb) as (xs & Hg & Hm).
    rewrite Hg. eexists. split; [reflexivity|]. simpl.
    split; [reflexivity|]. split.
    + congruence.
    + intros _. now split.
Qed.

Lemma RemoveIndexes_keeps_listed_witness :
  exists series',
    RemoveIndexes (mkSeries [10; 20; 30]%float ["a"] "float") [2; 0; 2]
      = Ok series' /\
    Float series' = [30; 10; 30]%float /\ String series' = ["a"].
Proof.
  destruct (RemoveIndexes_keeps_listed
              (mkSeries [10; 20; 30]%float ["a"] "float") [2; 0; 2])
    as (s' & Hr & _ & Hf & _).
  - simpl. intros idx [<-|[<-|[<-|[]]]]; vm_compute; split; congruence.
  - exists s'. split; [exact Hr|].
    destruct (Hf eq_refl) as [Hm Hs]. split; [|exact Hs].
    simpl in Hm. destruct (Float s') as [|a [|b [|c [|d l]]]]; try discriminate.
    now inversion Hm.
Defined.

(** Outside the bounds RemoveIndexes panics, as indexing a Go slice does. *)
Example RemoveIndexes_out_of_range :
  RemoveIndexes (mkSeries [10; 20; 30]%float [] "float") [1; 3]
  = Panic "index out of range".
Proof. reflexivity. Qed.

(** ** Conversions toward the active variant *)

(** C10: converting toward the already-active variant is the identity:
    ConvertStringToFloat on a float-typed Series and ConvertFloatToString on
    a string-typed Series return at once, every field (Float, String,
    DataType) unchanged and nothing printed, whatever the parser, the
    formatter, the number of CPUs and the schedule. *)
Theorem convert_to_active_variant_is_identity
    (ParseFloat : string -> Z -> float + NumError)
    (FormatFloat : float -> ascii -> Z -> Z -> string)
    (numCPU : Z) (sched : schedule) (series : Series) :
  (DataType series = "float" ->
     ConvertStringToFloat ParseFloat numCPU sched series = Ok (series, None)) /\
  (DataType series = "string" ->
     ConvertFloatToString FormatFloat numCPU sched series = Ok (series, None)).
Proof.
  split; intros Ht.
  - unfold ConvertStringToFloat. now rewrite Ht.
  - unfold ConvertFloatToString. now rewrite Ht.
Qed.

Lemma convert_to_active_variant_is_identity_witness :
  ConvertStringToFloat ParseFloat64 4 [(1%nat, false)]
    (mkSeries [1.5; 2]%float [] "float")
  = Ok (mkSeries [1.5; 2]%float [] "float", None) /\
  ConvertFloatToString (fun _ _ _ _ => "?") 4 [(1%nat, false)]
    (mkSeries [] ["1.5"; "x"] "string")
  = Ok (mkSeries [] ["1.5"; "x"] "string", None).
Proof.
  split.
  - apply (proj1 (convert_to_active_variant_is_identity ParseFloat64
      (fun _ _ _ _ => "?") 4 [(1%nat, false)]
      (mkSeries [1.5; 2]%float [] "float"))).
    reflexivity.
  - apply (proj2 (convert_to_active_variant_is_identity ParseFloat64
      (fun _ _ _ _ => "?") 4 [(1%nat, false)]
      (mkSeries [] ["1.5"; "x"] "string"))).
    reflexivity.
Defined.

(** ** Order statistics *)

Section SortFacts.
Context {F : Type} {ops : Float64 F}.

Lemma merge_length (l1 l2 : list F) :
  List.length (merge l1 l2) = (List.length l1 + List.length l2)%nat.
Proof.
  revert l2. induction l1 as [|x l1 IH1]; intros l2.
  - destruct l2; reflexivity.
  - induction l2 as [|y l2 IH2].
    + simpl. lia.
    + simpl. destruct (fleb x y).
      * simpl. rewrite IH1. simpl. lia.
      * simpl in IH2 |- *. rewrite IH2. lia.
Qed.

Lemma mergeSort_length depth (nums : list F) :
  List.length (mergeSort depth nums) = List.length nums.
Proof.
  revert nums. induction depth as [|depth IH]; intros nums; [reflexivity|].
  destruct nums as [|a [|b rest]]; try reflexivity.
  cbn [mergeSort]. rewrite merge_length, !IH.
  rewrite <- length_app, firstn_skipn. reflexivity.
Qed.

Lemma ParallelSortFloat_length (nums : list F) :
  List.length (ParallelSortFloat nums) = List.length nums.
Proof. apply mergeSort_length. Qed.

(** On a non-empty slice [arrayMedian] stays inside the slice. *)
Lemma arrayMedian_returns (nums : list F) :
  nums <> [] -> exists m, arrayMedian nums = Ok m.
Proof.
  intros Hne. unfold arrayMedian, at_.
  assert (Hlen : len (ParallelSortFloat nums) = len nums).
  { unfold len. now rewrite ParallelSortFloat_length. }
  assert (Hpos : 1 <= len nums).
  { unfold len. destruct nums; [congruence|simpl; lia]. }
  rewrite Hlen. set (n := len nums) in *.
  pose proof (Z.quot_rem' n 2) as Hqr.
  pose proof (Z.rem_bound_pos n 2 ltac:(lia) ltac:(lia)) as Hr.
  destruct (Z.eqb_spec (Z.rem n 2) 1) as [Hodd|Heven].
  - destruct (index_Some (ParallelSortFloat nums) (Z.quot n 2)) as [x Hx];
      [rewrite Hlen; fold n; lia|].
    rewrite Hx. eauto.
  - destruct (index_Some (ParallelSortFloat nums) (Z.quot n 2 - 1)) as [a Ha];
      [rewrite Hlen; fold n; lia|].
    destruct (index_Some (ParallelSortFloat nums) (Z.quot n 2)) as [b Hb];
      [rewrite Hlen; fold n; lia|].
    rewrite Ha, Hb. eauto.
Qed.
End SortFacts.

(** ** Reductions: when do they fail *)

Lemma GetLength_float series :
  DataType series = "float" -> GetLength series = len (Float series).
Proof. intros H. unfold GetLength. now rewrite H. Qed.


Lemma guard_value series (msg1 msg2 : string) (v : float) :
  DataType series = "float" -> GetLength series <> 0 ->
  (if (DataType series =? "string")%string then (0%float, Some msg1)
   else if GetLength series =? 0 then (0%float, Some msg2)
   else (v, None)) = (v, None).
Proof.
  intros Hf Hz. rewrite Hf. simpl.
  destruct (Z.eqb_spec (GetLength series) 0); [contradiction|reflexivity].
Qed.


Lemma GetMedian_value series :
  DataType series = "float" -> GetLength series <> 0 ->
  exists m, arrayMedian (Float series) = Ok m /\ GetMedian series = Ok (m, None).
Proof.
  intros Hf Hz. unfold GetMedian. rewrite Hf. simpl.
  destruct (Z.eqb_spec (GetLength series) 0); [contradiction|].
  destruct (arrayMedian_returns (Float series)) as [m Hm].
  { rewrite GetLength_float in Hz by assumption.
    destruct (Float series); [now elim Hz|discriminate]. }
  exists m. now rewrite Hm.
Qed.

(** ** Percentile *)

(** Two binary64 values that [PrimFloat.eqb] tells apart are different. *)
Lemma float_neq (x y : float) : PrimFloat.eqb x y = false -> PrimFloat.eqb y y = true -> x <> y.
Proof. intros Hxy Hyy E. rewrite E in Hxy. congruence. Qed.

Lemma Ok_inj {A} (a b : A) : Ok a = Ok b -> a = b.
Proof. now inversion 1. Qed.

(** ** Parallel filter *)

Lemma scanChunk_filter {A} (data : list A) condition js :
  (forall j, In j js -> 0 <= j < len data) ->
  scanChunk data condition js = Some (filter (holdsAt data condition) js).
Proof.
  induction js as [|j rest IH]; intros Hb; [reflexivity|].
  simpl. unfold holdsAt at 1.
  destruct (index_Some data j) as [x Hx]; [apply Hb; now left|].
  rewrite Hx, IH by (intros; apply Hb; now right).
  now destruct (condition x).
Qed.

Lemma collect_all_some (f : Z -> list Z) (worker : Z -> option (list Z)) order :
  (forall i, In i order -> worker i = Some (f i)) ->
  collect (map worker order) = Some (concat (map f order)).
Proof.
  induction order as [|i rest IH]; intros H; [reflexivity|].
  simpl. rewrite (H i) by now left.
  rewrite IH by (intros; apply H; now right). reflexivity.
Qed.

Lemma concat_map_filter {A B} (p : B -> bool) (g : A -> list B) l :
  concat (map (fun i => filter p (g i)) l) = filter p (concat (map g l)).
Proof.
  induction l as [|a l IH]; [reflexivity|].
  simpl. now rewrite filter_app, IH.
Qed.

Lemma Permutation_concat_map {A B} (g : A -> list B) l1 l2 :
  Permutation l1 l2 -> Permutation (concat (map g l1)) (concat (map g l2)).
Proof.
  induction 1; simpl.
  - constructor.
  - now apply Permutation_app_head.
  - rewrite !app_assoc. apply Permutation_app_tail, Permutation_app_comm.
  - etransitivity; eassumption.
Qed.

Lemma Permutation_filter {A} (p : A -> bool) l1 l2 :
  Permutation l1 l2 -> Permutation (filter p l1) (filter p l2).
Proof.
  induction 1; simpl.
  - constructor.
  - destruct (p x); auto.
  - destruct (p x), (p y); auto. constructor.
  - etransitivity; eassumption.
Qed.

Lemma gather_Permutation {A} (data : list A) l1 l2 :
  Permutation l1 l2 ->
  forall x1, gather data l1 = Some x1 ->
  exists x2, gather data l2 = Some x2 /\ Permutation x1 x2.
Proof.
  induction 1 as [|i l1 l2 Hp IH|i j l|l1 l2 l3 H12 IH12 H23 IH23];
    simpl; intros x1 Hg.
  - inversion Hg. exists []. split; [reflexivity|constructor].
  - destruct (index data i) as [a|]; [|discriminate].
    destruct (gather data l1) as [r|]; [|discriminate].
    inversion Hg; subst. destruct (IH r eq_refl) as (r2 & -> & Hr).
    exists (a :: r2). split; [reflexivity|now constructor].
  - destruct (index data j) as [b|]; [|discriminate].
    destruct (index data i) as [a|]; [|discriminate].
    destruct (gather data l) as [r|]; [|discriminate].
    inversion Hg; subst. exists (a :: b :: r). split; [reflexivity|constructor].
  - destruct (IH12 _ Hg) as (x2 & Hg2 & Hp2).
    destruct (IH23 _ Hg2) as (x3 & Hg3 & Hp3).
    exists x3. split; [assumption|]. etransitivity; eassumption.
Qed.

(** Gathering the ascending matching indexes is filtering the slice. *)
Lemma gather_matching_from {A} (condition : A -> bool) (pre data : list A) :
  gather (pre ++ data)
    (filter (holdsAt (pre ++ data) condition)
            (zrange (len pre) (len pre + len data)))
  = Some (filter condition data).
Proof.
  revert pre. induction data as [|x data IH]; intros pre.
  - rewrite zrange_nil by (unfold len; simpl; lia). reflexivity.
  - assert (Hx : index (pre ++ x :: data) (len pre) = Some x).
    { unfold index, len. destruct (Z.ltb_spec (Z.of_nat (List.length pre)) 0); [lia|].
      rewrite Nat2Z.id, nth_error_app2, Nat.sub_diag by lia. reflexivity. }
    rewrite <- (zrange_app (len pre) (len pre + 1)) by (unfold len; simpl; lia).
    rewrite filter_app.
    replace (zrange (len pre) (len pre + 1)) with [len pre]
      by (unfold zrange; replace (Z.to_nat (len pre + 1 - len pre)) with 1%nat by lia;
          simpl; f_equal; lia).
    specialize (IH (pre ++ [x])).
    rewrite <- app_assoc in IH. simpl in IH.
    replace (len (pre ++ [x])) with (len pre + 1) in IH
      by (unfold len; rewrite length_app; simpl; lia).
    replace (len pre + len (x :: data)) with (len pre + 1 + len data)
      by (unfold len; simpl; lia).
    simpl. unfold holdsAt at 1. rewrite Hx.
    destruct (condition x); simpl; [rewrite Hx|]; rewrite IH; reflexivity.
Qed.

Lemma gather_matching {A} (condition : A -> bool) (data : list A) :
  gather data (matching data condition) = Some (filter condition data).
Proof. exact (gather_matching_from condition [] data). Qed.

Lemma in_matching_bounds {A} (data : list A) condition j :
  In j (matching data condition) -> 0 <= j < len data.
Proof. unfold matching. rewrite filter_In, in_zrange. tauto. Qed.

(** What a filter worker sends for chunk [i]. *)
Lemma filter_worker_sends {A} (data : list A) condition P i :
  0 <= i -> 1 <= P ->
  scanChunk data condition (chunkIndexes (filterChunk (len data) P i))
  = Some (filter (holdsAt data condition)
                 (chunkIndexes (filterChunk (len data) P i))).
Proof.
  intros Hi HP. apply scanChunk_filter. intros j Hj.
  apply in_chunk in Hj.
  destruct (chunkSize_bounds (len data) P (len_nonneg data) HP) as [H0 _].
  nia.
Qed.

(** The list collected from the channel: per-chunk ascending match lists in
    the order the workers delivered them. *)
Lemma collected_indexes {A} (data : list A) condition P order :
  1 <= P -> Permutation order (zrange 0 P) ->
  collect (map (fun i => scanChunk data condition
                           (chunkIndexes (filterChunk (len data) P i))) order)
  = Some (concat (map (fun i => filter (holdsAt data condition)
                                  (chunkIndexes (filterChunk (len data) P i)))
                      order)).
Proof.
  intros HP Hperm. apply collect_all_some. intros i Hi.
  apply filter_worker_sends; [|assumption].
  apply (Permutation_in _ Hperm), in_zrange in Hi. lia.
Qed.

Lemma collected_is_matching_permuted {A} (data : list A) condition P order :
  1 <= P -> Permutation order (zrange 0 P) ->
  Permutation
    (concat (map (fun i => filter (holdsAt data condition)
                             (chunkIndexes (filterChunk (len data) P i))) order))
    (matching data condition).
Proof.
  intros HP Hperm.
  rewrite (concat_map_filter (holdsAt data condition)
             (fun i => chunkIndexes (filterChunk (len data) P i))).
  unfold matching. apply Permutation_filter.
  rewrite <- (concat_chunks (len data) P (len_nonneg data) HP).
  unfold chunks. rewrite map_map.
  now apply Permutation_concat_map.
Qed.

Lemma collected_in_chunk_order {A} (data : list A) condition P :
  1 <= P ->
  concat (map (fun i => filter (holdsAt data condition)
                          (chunkIndexes (filterChunk (len data) P i)))
              (zrange 0 P))
  = matching data condition.
Proof.
  intros HP.
  rewrite (concat_map_filter (holdsAt data condition)
             (fun i => chunkIndexes (filterChunk (len data) P i))).
  unfold matching. f_equal.
  rewrite <- (concat_chunks (len data) P (len_nonneg data) HP).
  unfold chunks. now rewrite map_map.
Qed.

(** FilterFloatSeries on a float-typed Series, for any completion order. *)
Lemma FilterFloatSeries_general (numCPU : Z) (order : list Z)
    (condition : float -> bool) (series : Series) :
  DataType series = "float" -> 1 <= numCPU ->
  Permutation order (zrange 0 numCPU) ->
  exists idxs kept,
    FilterFloatSeries numCPU order condition series
      = Ok (idxs, mkSeries kept (String series) (DataType series)) /\
    idxs = concat (map (fun i =>
             filter (holdsAt (Float series) condition)
               (chunkIndexes (filterChunk (len (Float series)) numCPU i))) order) /\
    Permutation idxs (matching (Float series) condition) /\
    map Some kept = map (index (Float series)) idxs /\
    Permutation kept (filter condition (Float series)) /\
    (order = zrange 0 numCPU ->
       idxs = matching (Float series) condition /\
       kept = filter condition (Float series)).
Proof.
  intros Hf HP Hperm. destruct series as [data st dt]. simpl in *. subst dt.
  unfold FilterFloatSeries, GetLength. simpl.
  pose proof (collected_is_matching_permuted data condition numCPU order
                HP Hperm) as Hc.
  destruct (Z.eqb_spec (len data) 0) as [Hz|Hz].
  - (* empty series: early return *)
    assert (data = []) as ->.
    { unfold len in Hz. destruct data; [reflexivity|simpl in Hz; lia]. }
    change (matching [] condition) with (@nil Z) in *.
    apply Permutation_sym, Permutation_nil in Hc.
    exists [], []. rewrite Hc.
    repeat split; try reflexivity; constructor.
  - rewrite collected_indexes by assumption.
    set (idxs := concat _) in *.
    destruct (gather_Permutation data _ _ (Permutation_sym Hc) _
                (gather_matching condition data))
      as (kept & Hg & Hk).
    unfold RemoveIndexes. simpl. rewrite Hg.
    exists idxs, kept.
    split; [reflexivity|]. split; [reflexivity|]. split; [assumption|].
    split.
    + destruct (gather_in_bounds data idxs) as (xs & Hg' & Hm).
      { intros j Hj. apply (in_matching_bounds data condition).
        eapply Permutation_in; eassumption. }
      congruence.
    + split; [now apply Permutation_sym|].
      intros ->. subst idxs.
      rewrite collected_in_chunk_order in * by assumption.
      split; [reflexivity|].
      rewrite gather_matching in Hg. congruence.
Qed.

(** C2, as stated, fails: with two workers whose results arrive in the
    order worker 1, worker 0 (a permutation of the workers, hence a possible
    completion order), filtering [10, 20, 30, 40, 50] with "> 15" returns the
    indexes [3, 4, 1, 2], not in ascending order, and leaves the Series
    [40, 50, 20, 30]. *)
Lemma filter_follows_completion_order :
  Permutation [1; 0] (zrange 0 2) /\
  FilterFloatSeries 2 [1; 0] (fun x => PrimFloat.ltb 15 x)
    (mkSeries [10; 20; 30; 40; 50]%float [] "float")
  = Ok ([3; 4; 1; 2], mkSeries [40; 50; 20; 30]%float [] "float") /\
  ~ (forall order, Permutation order (zrange 0 2) ->
       FilterFloatSeries 2 order (fun x => PrimFloat.ltb 15 x)
         (mkSeries [10; 20; 30; 40; 50]%float [] "float")
       = Ok ([1; 2; 3; 4], mkSeries [20; 30; 40; 50]%float [] "float")).
Proof.
  assert (Hp : Permutation [1; 0] (zrange 0 2)) by (vm_compute; constructor).
  split; [exact Hp|]. split; [reflexivity|].
  intros H. specialize (H [1; 0] Hp). vm_compute in H. discriminate.
Qed.

(** C2, amended: for every float-typed Series, predicate, worker count
    P >= 1 and completion order of the P workers, FilterFloatSeries returns
    the per-chunk ascending match lists concatenated in completion order: a
    permutation of the matching pre-compaction indexes, ascending when the
    workers deliver in chunk order (always so with one worker).  The Series
    is left holding exactly the elements at the returned indexes, in the
    order returned; String and DataType are unchanged.  Filtering
    [10, 20, 30, 40, 50] with "> 15" yields, for every worker count and
    completion order, the index set {1, 2, 3, 4} and the elements
    20, 30, 40, 50 in some order, and exactly [1, 2, 3, 4] and
    [20, 30, 40, 50] when the workers deliver in chunk order. *)
Theorem FilterFloatSeries_completion_order :
  (forall numCPU order condition series,
     DataType series = "float" -> 1 <= numCPU ->
     Permutation order (zrange 0 numCPU) ->
     exists idxs kept,
       FilterFloatSeries numCPU order condition series
         = Ok (idxs, mkSeries kept (String series) (DataType series)) /\
       idxs = concat (map (fun i =>
                filter (holdsAt (Float series) condition)
                  (chunkIndexes (filterChunk (len (Float series)) numCPU i)))
                order) /\
       Permutation idxs (matching (Float series) condition) /\
       map Some kept = map (index (Float series)) idxs /\
       Permutation kept (filter condition (Float series)) /\
       (order = zrange 0 numCPU ->
          idxs = matching (Float series) condition /\
          kept = filter condition (Float series))) /\
  (forall series condition,
     DataType series = "float" ->
     exists kept,
       FilterFloatSeries 1 [0] condition series
         = Ok (matching (Float series) condition,
               mkSeries kept (String series) (DataType series)) /\
       kept = filter condition (Float series)) /\
  (forall numCPU order,
     1 <= numCPU -> Permutation order (zrange 0 numCPU) ->
     exists idxs kept,
       FilterFloatSeries numCPU order (fun x => PrimFloat.ltb 15 x)
         (mkSeries [10; 20; 30; 40; 50]%float [] "float")
         = Ok (idxs, mkSeries kept [] "float") /\
       Permutation idxs [1; 2; 3; 4] /\
       Permutation kept [20; 30; 40; 50]%float /\
       (order = zrange 0 numCPU ->
          idxs = [1; 2; 3; 4] /\ kept = [20; 30; 40; 50]%float)).
Proof.
  split; [exact FilterFloatSeries_general|]. split.
  - intros series condition Hf.
    destruct (FilterFloatSeries_general 1 [0] condition series Hf)
      as (idxs & kept & Hr & _ & _ & _ & _ & Hord); [lia|reflexivity|].
    destruct (Hord eq_refl) as [-> ->]. eexists. split; [exact Hr|reflexivity].
  - intros numCPU order HP Hperm.
    destruct (FilterFloatSeries_general numCPU order
                (fun x => PrimFloat.ltb 15 x)
                (mkSeries [10; 20; 30; 40; 50]%float [] "float")
                eq_refl HP Hperm)
      as (idxs & kept & Hr & _ & Hi & _ & Hk & Hord).
    exists idxs, kept. split; [exact Hr|]. split; [exact Hi|].
    split; [exact Hk|exact Hord].
Qed.

Lemma FilterFloatSeries_completion_order_witness :
  exists idxs kept,
    FilterFloatSeries 3 [2; 0; 1] (fun x => PrimFloat.ltb 15 x)
      (mkSeries [10; 20; 30; 40; 50]%float [] "float")
      = Ok (idxs, mkSeries kept [] "float") /\
    Permutation idxs [1; 2; 3; 4] /\
    Permutation kept [20; 30; 40; 50]%float.
Proof.
  destruct (proj2 (proj2 FilterFloatSeries_completion_order) 3 [2; 0; 1])
    as (idxs & kept & Hr & Hi & Hk & _).
  - lia.
  - vm_compute. apply (Permutation_cons_app [0; 1] [] 2). apply Permutation_refl.
  - exists idxs, kept. repeat split; assumption.
Defined.

(** ** The conversion worker pool *)

Lemma set_nth_Some {A} (l : list A) n v :
  (n < List.length l)%nat -> exists l', set_nth l n v = Some l'.
Proof.
  revert n. induction l as [|x l IH]; intros n Hn; simpl in *; [lia|].
  destruct n as [|n]; [eauto|].
  destruct (IH n ltac:(lia)) as [l' ->]. eauto.
Qed.

Lemma set_nth_length {A} (l l' : list A) n v :
  set_nth l n v = Some l' -> List.length l' = List.length l.
Proof.
  revert n l'. induction l as [|x l IH]; intros n l' H; simpl in *; [discriminate|].
  destruct n as [|n].
  - inversion H. reflexivity.
  - destruct (set_nth l n v) eqn:E; [|discriminate].
    inversion H. simpl. f_equal. eauto.
Qed.

Lemma set_nth_same {A} (l l' : list A) n v :
  set_nth l n v = Some l' -> nth_error l' n = Some v.
Proof.
  revert n l'. induction l as [|x l IH]; intros n l' H; simpl in *; [discriminate|].
  destruct n as [|n].
  - inversion H. reflexivity.
  - destruct (set_nth l n v) eqn:E; [|discriminate].
    inversion H. simpl. eauto.
Qed.

Lemma set_nth_other {A} (l l' : list A) n m v :
  set_nth l n v = Some l' -> m <> n -> nth_error l' m = nth_error l m.
Proof.
  revert n m l'. induction l as [|x l IH]; intros n m l' H Hm; simpl in *;
    [discriminate|].
  destruct n as [|n].
  - inversion H. destruct m; [congruence|reflexivity].
  - destruct (set_nth l n v) eqn:E; [|discriminate].
    inversion H. destruct m; [reflexivity|]. simpl. eapply IH; eauto.
Qed.

Lemma set_nth_None {A} (l : list A) n v :
  set_nth l n v = None -> (List.length l <= n)%nat.
Proof.
  intros H. destruct (Nat.le_gt_cases (List.length l) n) as [|Hlt]; [assumption|].
  destruct (set_nth_Some l n v Hlt) as [l' E]. congruence.
Qed.

Lemma setIndex_Some {A} (l : list A) i v :
  0 <= i < len l -> exists l', setIndex l i v = Some l'.
Proof.
  intros Hi. unfold setIndex. destruct (Z.ltb_spec i 0); [lia|].
  apply set_nth_Some. unfold len in Hi. lia.
Qed.

Lemma setIndex_len {A} (l l' : list A) i v :
  setIndex l i v = Some l' -> len l' = len l.
Proof.
  unfold setIndex, len. destruct (i <? 0); [discriminate|].
  intros H. now rewrite (set_nth_length _ _ _ _ H).
Qed.

Lemma setIndex_same {A} (l l' : list A) i v :
  setIndex l i v = Some l' -> index l' i = Some v.
Proof.
  unfold setIndex, index. destruct (i <? 0); [discriminate|].
  apply set_nth_same.
Qed.

Lemma setIndex_other {A} (l l' : list A) i k v :
  setIndex l i v = Some l' -> k <> i -> index l' k = index l k.
Proof.
  unfold setIndex, index. destruct (Z.ltb_spec i 0); [discriminate|].
  intros Hs Hk. destruct (Z.ltb_spec k 0); [reflexivity|].
  eapply set_nth_other; [eassumption|lia].
Qed.

Section PoolFacts.
Variables (A B E : Type).
Variable convert : A -> B + E.
Variable input : list A.
Variable P : Z.
Hypothesis HP : 1 <= P.

#[local] Abbreviation lo := (lo input P).
#[local] Abbreviation hi := (hi input P).
#[local] Abbreviation converts := (converts convert input).
#[local] Abbreviation progress := (progress input P).
#[local] Abbreviation poolInv := (poolInv convert input P).

Lemma lo_hi_eq w :
  lo w = Z.of_nat w * chunkSize (len input) P /\
  hi w = Z.min ((Z.of_nat w + 1) * chunkSize (len input) P) (len input).
Proof.
  unfold lo, hi. rewrite convertChunk_filterChunk, filterChunk_eq. now split.
Qed.

Lemma lo_hi_bounds w : 0 <= lo w /\ hi w <= len input.
Proof.
  destruct (lo_hi_eq w) as [-> ->].
  destruct (chunkSize_bounds (len input) P (len_nonneg input) HP) as [H0 _].
  split; [nia|lia].
Qed.

Lemma chunks_disjoint w w' k :
  lo w <= k < hi w -> lo w' <= k < hi w' -> w = w'.
Proof.
  destruct (lo_hi_eq w) as [-> ->]. destruct (lo_hi_eq w') as [-> ->].
  destruct (chunkSize_bounds (len input) P (len_nonneg input) HP) as [H0 _].
  intros H1 H2.
  destruct (Nat.lt_trichotomy w w') as [Hlt|[Heq|Hgt]]; [|assumption|]; nia.
Qed.

Lemma chunks_cover k :
  0 <= k < len input -> exists w, (w < Z.to_nat P)%nat /\ lo w <= k < hi w.
Proof.
  intros Hk.
  destruct (in_some_chunk (len input) P k (len_nonneg input) HP Hk)
    as (i & Hi & Hin).
  apply in_chunk in Hin. exists (Z.to_nat i). split; [lia|].
  destruct (lo_hi_eq (Z.to_nat i)) as [-> ->].
  rewrite Z2Nat.id by lia. lia.
Qed.

Lemma nth_error_setGoroutine_same w g (st : poolState B E) :
  (w < List.length (pool st))%nat ->
  nth_error (pool (setGoroutine w g st)) w = Some g.
Proof.
  intros Hw. unfold setGoroutine.
  destruct (set_nth_Some (pool st) w g Hw) as [p Hp]. rewrite Hp. simpl.
  eapply set_nth_same; eassumption.
Qed.

Lemma nth_error_setGoroutine_other w w' g (st : poolState B E) :
  w' <> w ->
  nth_error (pool (setGoroutine w g st)) w' = nth_error (pool st) w'.
Proof.
  intros Hne. unfold setGoroutine.
  destruct (set_nth (pool st) w g) eqn:Hp; [|reflexivity]. simpl.
  eapply set_nth_other; eassumption.
Qed.

Lemma setGoroutine_fields w g (st : poolState B E) :
  firstErr (setGoroutine w g st) = firstErr st /\
  output (setGoroutine w g st) = output st /\
  panicked (setGoroutine w g st) = panicked st /\
  List.length (pool (setGoroutine w g st)) = List.length (pool st).
Proof.
  unfold setGoroutine. destruct (set_nth (pool st) w g) eqn:Hp; simpl.
  - repeat split. eapply set_nth_length; eassumption.
  - repeat split.
Qed.

Lemma nth_error_lt {X} (l : list X) n x : nth_error l n = Some x -> (n < List.length l)%nat.
Proof. intros H. apply nth_error_Some. congruence. Qed.

(** A goroutine that leaves its loop. *)
Lemma poolInv_finish w j e (st : poolState B E) :
  poolInv st ->
  nth_error (pool st) w = Some (Running j e) ->
  (firstErr st = None -> e <= j) ->
  poolInv (setGoroutine w Done st).
Proof.
  intros [Ha Hp Ho Hr Hw He] Hg Hend.
  destruct (setGoroutine_fields w Done st) as (Ef & Eo & Ep & El).
  pose proof (nth_error_lt _ _ _ Hg) as Hlt.
  constructor; rewrite ?Ef, ?Eo, ?Ep, ?El; try assumption.
  - intros w' j' e' Hg'. destruct (Nat.eq_dec w' w) as [->|Hne].
    + rewrite nth_error_setGoroutine_same in Hg' by assumption. discriminate.
    + rewrite nth_error_setGoroutine_other in Hg' by assumption. eauto.
  - intros Hnone w' g k Hg' Hk Hk'. destruct (Nat.eq_dec w' w) as [->|Hne].
    + rewrite nth_error_setGoroutine_same in Hg' by assumption.
      inversion Hg'; subst g. simpl in Hk.
      destruct (Hr _ _ _ Hg) as (-> & Hlo & _).
      apply (Hw Hnone w (Running j (hi w)) k Hg); simpl; [|assumption].
      specialize (Hend Hnone). lia.
    + rewrite nth_error_setGoroutine_other in Hg' by assumption. eauto.
Qed.

(** One loop iteration keeps the invariant. *)
Lemma poolStep_inv w stale (st : poolState B E) :
  poolInv st -> poolInv (poolStep convert input w stale st).
Proof.
  intros Hinv. unfold poolStep.
  destruct (nth_error (pool st) w) as [[j e|]|] eqn:Hg; try assumption.
  pose proof (nth_error_lt _ _ _ Hg) as Hlt.
  destruct (inv_range st Hinv _ _ _ Hg) as (He & Hlo & Hje).
  destruct (lo_hi_bounds w) as [Hlo0 Hhi].
  destruct (Z.ltb_spec j e) as [Hjlt|Hjge].
  2: { apply (poolInv_finish w j e); auto. }
  destruct (seesError stale st) eqn:Hsee.
  { apply (poolInv_finish w j e); auto.
    unfold seesError in Hsee. intros Hn. rewrite Hn in Hsee. discriminate. }
  destruct (index_Some input j) as [x Hx]; [lia|]. rewrite Hx.
  destruct (convert x) as [val|err] eqn:Hc.
  - (* the element converts: it is stored and the loop goes on *)
    destruct (setIndex_Some (output st) j val) as [out Hout];
      [rewrite (inv_output st Hinv); lia|].
    rewrite Hout.
    set (st1 := mkPool (firstErr st) out (pool st) (panicked st)).
    destruct (setGoroutine_fields w (Running (j + 1) e) st1) as (Ef & Eo & Ep & El).
    destruct Hinv as [Ha Hp Ho Hr Hw Herr].
    constructor; rewrite ?Ef, ?Eo, ?Ep, ?El; simpl; try assumption.
    + now rewrite (setIndex_len _ _ _ _ Hout).
    + intros w' j' e' Hg'. destruct (Nat.eq_dec w' w) as [->|Hne].
      * rewrite nth_error_setGoroutine_same in Hg' by assumption.
        inversion Hg'; subst. split; [reflexivity|]. lia.
      * rewrite nth_error_setGoroutine_other in Hg' by assumption.
        apply (Hr w' j' e' Hg').
    + intros Hnone w' g k Hg' Hk Hk'.
      destruct (Z.eq_dec k j) as [->|Hkj].
      * exists val. split; [exists x; now split|].
        eapply setIndex_same; eassumption.
      * rewrite (setIndex_other _ _ _ _ _ Hout Hkj).
        destruct (Nat.eq_dec w' w) as [->|Hne].
        -- rewrite nth_error_setGoroutine_same in Hg' by assumption.
           inversion Hg'; subst g. simpl in Hk.
           apply (Hw Hnone w (Running j e) k Hg); simpl; [lia|assumption].
        -- rewrite nth_error_setGoroutine_other in Hg' by assumption.
           apply (Hw Hnone w' g k Hg' Hk Hk').
  - (* the element does not convert: once.Do, then return *)
    assert (Hinv1 : poolInv (onceDo err st)).
    { unfold onceDo. destruct (firstErr st) as [e0|] eqn:Hfe; [assumption|].
      destruct Hinv as [Ha Hp Ho Hr Hw Herr].
      constructor; simpl; try assumption; try discriminate.
      intros err' Heq. inversion Heq; subst err'.
      exists w, j, x. split; [lia|]. split; [lia|]. split; [assumption|].
      split; [assumption|].
      intros k' Hk'.
      destruct (Hw Hfe w (Running j e) k' Hg) as (v & Hv & _);
        simpl; [lia|lia|]. now exists v. }
    apply (poolInv_finish w j e); auto.
    + unfold onceDo. now destruct (firstErr st).
    + unfold onceDo. destruct (firstErr st) eqn:Hfe; simpl;
        [rewrite Hfe|]; discriminate.
Qed.

Lemma nth_error_map_zrange {X} (f : Z -> X) n w :
  (w < Z.to_nat n)%nat ->
  nth_error (map f (zrange 0 n)) w = Some (f (Z.of_nat w)).
Proof.
  intros Hw. unfold zrange. rewrite map_map, nth_error_map.
  rewrite nth_error_seq.
  destruct (Nat.ltb_spec w (Z.to_nat (n - 0))) as [_|Hge]; [|lia].
  reflexivity.
Qed.

Lemma startPool_inv (zero : B) : poolInv (startPool (E := E) input P zero).
Proof.
  unfold startPool. constructor; simpl.
  - reflexivity.
  - rewrite length_map, length_zrange. f_equal. lia.
  - unfold len. rewrite repeat_length. lia.
  - intros w j e Hg.
    pose proof (nth_error_lt _ _ _ Hg) as Hlt.
    rewrite length_map, length_zrange in Hlt.
    rewrite nth_error_map_zrange in Hg by lia.
    inversion Hg; subst.
    split; [reflexivity|]. split; [apply Z.le_refl|right; reflexivity].
  - intros _ w g k Hg Hk.
    pose proof (nth_error_lt _ _ _ Hg) as Hlt.
    rewrite length_map, length_zrange in Hlt.
    rewrite nth_error_map_zrange in Hg by lia.
    inversion Hg; subst g. unfold progress, lo in Hk. simpl in Hk. lia.
  - discriminate.
Qed.

Lemma runSchedule_inv sched (st : poolState B E) :
  poolInv st -> poolInv (runSchedule convert input sched st).
Proof.
  revert st. induction sched as [|[w stale] sched IH]; intros st Hinv;
    [assumption|].
  simpl. apply IH. now apply poolStep_inv.
Qed.

(** A step of goroutine [w] leaves the others where they are. *)
Lemma poolStep_other w w' stale (st : poolState B E) :
  w' <> w ->
  nth_error (pool (poolStep convert input w stale st)) w' = nth_error (pool st) w'.
Proof.
  intros Hne. unfold poolStep.
  destruct (nth_error (pool st) w) as [[j e|]|]; try reflexivity.
  destruct (j <? e); [|now apply nth_error_setGoroutine_other].
  destruct (seesError stale st); [now apply nth_error_setGoroutine_other|].
  destruct (index input j) as [x|]; [|reflexivity].
  destruct (convert x) as [val|err].
  - destruct (setIndex (output st) j val); [|reflexivity].
    now rewrite nth_error_setGoroutine_other.
  - rewrite nth_error_setGoroutine_other by assumption.
    unfold onceDo. now destruct (firstErr st).
Qed.

(** A goroutine that has returned stays so. *)
Lemma poolStep_Done w w' stale (st : poolState B E) :
  nth_error (pool st) w' = Some Done ->
  nth_error (pool (poolStep convert input w stale st)) w' = Some Done.
Proof.
  intros Hd. destruct (Nat.eq_dec w' w) as [->|Hne].
  - unfold poolStep. now rewrite Hd.
  - now rewrite poolStep_other.
Qed.

Lemma poolStep_progress w stale g (st : poolState B E) :
  poolInv st -> nth_error (pool st) w = Some g ->
  exists g', nth_error (pool (poolStep convert input w stale st)) w = Some g' /\
             (remaining g' <= Nat.pred (remaining g))%nat.
Proof.
  intros Hinv Hg. pose proof (nth_error_lt _ _ _ Hg) as Hlt.
  unfold poolStep. rewrite Hg. destruct g as [j e|].
  2: { exists Done. split; [assumption|simpl; lia]. }
  destruct (inv_range st Hinv _ _ _ Hg) as (He & Hlo & Hje).
  destruct (lo_hi_bounds w) as [Hlo0 Hhi].
  destruct (Z.ltb_spec j e) as [Hjlt|Hjge].
  2: { exists Done. rewrite nth_error_setGoroutine_same by assumption.
       split; [reflexivity|simpl; lia]. }
  destruct (seesError stale st).
  { exists Done. rewrite nth_error_setGoroutine_same by assumption.
    split; [reflexivity|simpl; lia]. }
  destruct (index_Some input j) as [x Hx]; [lia|]. rewrite Hx.
  destruct (convert x) as [val|err].
  - destruct (setIndex_Some (output st) j val) as [out Hout];
      [rewrite (inv_output st Hinv); lia|].
    rewrite Hout. exists (Running (j + 1) e).
    rewrite nth_error_setGoroutine_same by assumption.
    split; [reflexivity|simpl; lia].
  - exists Done. rewrite nth_error_setGoroutine_same.
    + split; [reflexivity|simpl; lia].
    + unfold onceDo. now destruct (firstErr st).
Qed.

Lemma iter_poolStep_inv w n (st : poolState B E) :
  poolInv st -> poolInv (Nat.iter n (poolStep convert input w false) st).
Proof. intros Hinv. induction n; simpl; [assumption|now apply poolStep_inv]. Qed.

Lemma iter_poolStep_Done w w' n (st : poolState B E) :
  nth_error (pool st) w' = Some Done ->
  nth_error (pool (Nat.iter n (poolStep convert input w false) st)) w' = Some Done.
Proof. intros Hd. induction n; simpl; [assumption|now apply poolStep_Done]. Qed.

Lemma iter_poolStep_finishes w n g (st : poolState B E) :
  poolInv st -> nth_error (pool st) w = Some g -> (remaining g <= n)%nat ->
  nth_error (pool (Nat.iter n (poolStep convert input w false) st)) w = Some Done.
Proof.
  revert g st. induction n as [|n IH]; intros g st Hinv Hg Hn.
  - simpl. destruct g; simpl in Hn; [lia|assumption].
  - rewrite Nat.iter_succ_r.
    destruct (poolStep_progress w false g st Hinv Hg) as (g' & Hg' & Hr).
    apply (IH g'); [now apply poolStep_inv|assumption|lia].
Qed.

Lemma remaining_bound w g (st : poolState B E) :
  poolInv st -> nth_error (pool st) w = Some g ->
  (remaining g <= S (List.length input))%nat.
Proof.
  intros Hinv Hg. destruct g as [j e|]; simpl; [|lia].
  destruct (inv_range st Hinv _ _ _ Hg) as (He & Hlo & Hje).
  destruct (lo_hi_bounds w) as [Hlo0 Hhi]. unfold len in Hhi. lia.
Qed.

Lemma iter_poolStep_length w n (st : poolState B E) :
  poolInv st ->
  List.length (pool (Nat.iter n (poolStep convert input w false) st))
  = List.length (pool st).
Proof.
  intros Hinv.
  rewrite (inv_pool _ (iter_poolStep_inv w n st Hinv)).
  now rewrite (inv_pool _ Hinv).
Qed.

Lemma drain_all ws (st : poolState B E) :
  poolInv st ->
  let st' := fold_left
               (fun st w => Nat.iter (S (List.length input))
                              (poolStep convert input w false) st) ws st in
  poolInv st' /\
  forall w, (w < List.length (pool st))%nat ->
    In w ws \/ nth_error (pool st) w = Some Done ->
    nth_error (pool st') w = Some Done.
Proof.
  revert st. induction ws as [|w0 ws IH]; intros st Hinv; simpl.
  - split; [assumption|]. intros w _ [[]|Hd]. assumption.
  - set (st1 := Nat.iter (S (List.length input))
                  (poolStep convert input w0 false) st).
    assert (Hinv1 : poolInv st1) by now apply iter_poolStep_inv.
    assert (Hlen : List.length (pool st1) = List.length (pool st))
      by now apply iter_poolStep_length.
    destruct (IH st1 Hinv1) as [Hinv' Hdone]. split; [assumption|].
    intros w Hw Hcase. apply Hdone; [lia|].
    destruct (Nat.eq_dec w w0) as [->|Hne].
    + right. destruct (nth_error (pool st) w0) as [g|] eqn:Hg.
      * apply (iter_poolStep_finishes w0 _ g st Hinv Hg).
        exact (remaining_bound w0 g st Hinv Hg).
      * apply nth_error_None in Hg. lia.
    + destruct Hcase as [[Heq|Hin]|Hd]; [congruence|now left|].
      right. now apply iter_poolStep_Done.
Qed.

(** [wg.Wait()] returns, every goroutine having returned. *)
Lemma waitAll_done (st : poolState B E) :
  poolInv st ->
  poolInv (waitAll convert input st) /\
  forall w, (w < Z.to_nat P)%nat ->
    nth_error (pool (waitAll convert input st)) w = Some Done.
Proof.
  intros Hinv. unfold waitAll.
  destruct (drain_all (seq 0 (List.length (pool st))) st Hinv) as [Hinv' Hd].
  split; [assumption|]. intros w Hw. rewrite <- (inv_pool _ Hinv) in Hw.
  apply Hd; [assumption|]. left. apply in_seq. lia.
Qed.

(** The pool after the join. *)
Lemma runPool_done (zero : B) sched :
  let st := runPool convert input P zero sched in
  poolInv st /\
  forall w, (w < Z.to_nat P)%nat -> nth_error (pool st) w = Some Done.
Proof.
  unfold runPool. apply waitAll_done, runSchedule_inv, startPool_inv.
Qed.

(** An element that does not convert leaves [firstErr] set. *)
Lemma runPool_failure (zero : B) sched k x err :
  index input k = Some x -> convert x = inr err ->
  firstErr (runPool convert input P zero sched) <> None.
Proof.
  intros Hx Hc Hnone.
  destruct (runPool_done zero sched) as [Hinv Hdone].
  destruct (chunks_cover k (index_Some_lt _ _ _ Hx)) as (w & Hw & Hk).
  destruct (inv_written _ Hinv Hnone w Done k (Hdone w Hw))
    as (v & (x' & Hx' & Hc') & _); simpl; [lia|lia|].
  congruence.
Qed.

(** The error kept is the one of the first element that does not convert
    in some goroutine's chunk. *)
Lemma runPool_error (zero : B) sched err :
  firstErr (runPool convert input P zero sched) = Some err ->
  exists w k x, (w < Z.to_nat P)%nat /\ lo w <= k < hi w /\
    index input k = Some x /\ convert x = inr err /\
    forall k', lo w <= k' < k -> exists v, converts k' v.
Proof.
  destruct (runPool_done zero sched) as [Hinv _].
  apply (inv_error _ Hinv).
Qed.

(** When every element converts, no error is kept and the output slice
    holds the converted elements, position by position. *)
Lemma runPool_success (zero : B) sched :
  (forall x, In x input -> exists v, convert x = inl v) ->
  let st := runPool convert input P zero sched in
  panicked st = false /\ firstErr st = None /\
  Forall2 (fun x v => convert x = inl v) input (output st).
Proof.
  intros Hall st.
  destruct (runPool_done zero sched) as [Hinv Hdone]. fold st in Hinv, Hdone.
  assert (Hnone : firstErr st = None).
  { destruct (firstErr st) as [err|] eqn:Hfe; [|reflexivity].
    destruct (inv_error _ Hinv err Hfe) as (w & k & x & _ & _ & Hx & Hc & _).
    destruct (Hall x) as [v Hv]; [|congruence].
    unfold index in Hx. destruct (k <? 0); [discriminate|].
    eapply nth_error_In; eassumption. }
  split; [apply (inv_alive _ Hinv)|]. split; [assumption|].
  assert (Hpt : forall n x, nth_error input n = Some x ->
                exists v, convert x = inl v /\ nth_error (output st) n = Some v).
  { intros n x Hx.
    assert (Hk : 0 <= Z.of_nat n < len input).
    { pose proof (nth_error_lt _ _ _ Hx). unfold len. lia. }
    destruct (chunks_cover _ Hk) as (w & Hw & Hkw).
    destruct (inv_written _ Hinv Hnone w Done (Z.of_nat n) (Hdone w Hw))
      as (v & (x' & Hx' & Hc') & Ho); simpl; [lia|lia|].
    unfold index in Hx', Ho.
    destruct (Z.ltb_spec (Z.of_nat n) 0); [lia|].
    rewrite Nat2Z.id in Hx', Ho. exists v. split; [congruence|assumption]. }
  pose proof (inv_output _ Hinv) as Hlen. unfold len in Hlen.
  apply Nat2Z.inj in Hlen. fold st in Hlen.
  clear - Hpt Hlen. revert Hpt Hlen. generalize (output st) as out.
  induction input as [|x l IH]; intros out Hpt Hlen.
  - destruct out; [constructor|discriminate].
  - destruct out as [|v out]; [discriminate|].
    constructor.
    + destruct (Hpt 0%nat x eq_refl) as (v' & Hv' & Hn). simpl in Hn. congruence.
    + apply IH; [|simpl in Hlen; lia].
      intros n y Hy. apply (Hpt (S n) y Hy).
Qed.
End PoolFacts.


(** ** ConvertStringToFloat *)

Lemma In_index {X} (l : list X) x : In x l -> exists k, index l k = Some x.
Proof.
  intros Hin. apply In_nth_error in Hin. destruct Hin as [n Hn].
  exists (Z.of_nat n). unfold index.
  destruct (Z.ltb_spec (Z.of_nat n) 0); [lia|]. now rewrite Nat2Z.id.
Qed.

(** C1: if any element of the String sequence fails to parse,
    ConvertStringToFloat leaves the Series exactly as it was (String, Float
    and DataType), for every parser, every number of CPUs and every
    interleaving of the goroutines; on a Series that is not float-typed the
    call then prints the error it kept. *)
Theorem ConvertStringToFloat_failure_leaves_series
    (ParseFloat : string -> Z -> float + NumError)
    (numCPU : Z) (sched : schedule) (series : Series) (s : string)
    (err : NumError) :
  1 <= numCPU ->
  In s (String series) ->
  ParseFloat s 64 = inr err ->
  exists printed,
    ConvertStringToFloat ParseFloat numCPU sched series = Ok (series, printed) /\
    (DataType series = "string" -> printed <> None).
Proof.
  intros HP Hin Herr. unfold ConvertStringToFloat.
  destruct (String.eqb_spec (DataType series) "float") as [Hf|Hf].
  { exists None. split; [reflexivity|]. intros Hs. rewrite Hs in Hf. discriminate. }
  destruct (In_index _ _ Hin) as [k Hk].
  pose proof (runPool_failure _ _ _ (fun s => ParseFloat s 64) (String series)
                numCPU HP 0%float sched k s err Hk Herr) as Hfe.
  destruct (runPool_done _ _ _ (fun s => ParseFloat s 64) (String series)
              numCPU HP 0%float sched) as [Hinv _].
  rewrite (inv_alive _ Hinv).
  destruct (firstErr _) as [e|]; [|contradiction].
  exists (Some e). split; [reflexivity|discriminate].
Qed.

Lemma ConvertStringToFloat_failure_leaves_series_witness :
  exists printed,
    ConvertStringToFloat ParseFloat64 4
      [(2%nat, false); (0%nat, false); (1%nat, true)]
      (mkSeries [] ["1.5"; "x"; "3"] "string")
    = Ok (mkSeries [] ["1.5"; "x"; "3"] "string", printed) /\
    printed <> None.
Proof.
  destruct (ConvertStringToFloat_failure_leaves_series ParseFloat64 4
              [(2%nat, false); (0%nat, false); (1%nat, true)]
              (mkSeries [] ["1.5"; "x"; "3"] "string") "x" (errSyntax "x"))
    as (printed & Hr & Hp).
  - lia.
  - simpl. right. left. reflexivity.
  - reflexivity.
  - exists printed. split; [exact Hr|]. apply Hp. reflexivity.
Defined.

(** C3, as stated, fails: ConvertStringToFloat has no result; the only
    trace of the failure is the error it prints, and that error is the one
    of the goroutine that called once.Do first.  With two goroutines over
    ["x", "1", "y", "1"], if goroutine 1 runs first the error kept is the
    one of "y" (index 2), although "x" at index 0 fails too; if goroutine 0
    runs first it is the one of "x". *)
Lemma first_error_depends_on_schedule :
  let series := mkSeries [] ["x"; "1"; "y"; "1"] "string" in
  ParseFloat64 "x" 64 = inr (errSyntax "x") /\
  ConvertStringToFloat ParseFloat64 2 [(1%nat, false)] series
    = Ok (series, Some (errSyntax "y")) /\
  ConvertStringToFloat ParseFloat64 2 [(0%nat, false)] series
    = Ok (series, Some (errSyntax "x")) /\
  errSyntax "y" <> errSyntax "x".
Proof. repeat split; try reflexivity. discriminate. Qed.

(** C3, amended: on a string-typed Series with an element that does not
    parse, ConvertStringToFloat returns nothing to its caller; it prints one
    error, which is the parser's error for the first non-parsable element
    of some goroutine's chunk (the error value carries the offending text,
    not an index).  Which chunk depends on the schedule; with a single
    goroutine it is the lowest failing index of the whole Series. *)
Theorem ConvertStringToFloat_prints_a_chunk_first_error
    (ParseFloat : string -> Z -> float + NumError)
    (numCPU : Z) (sched : schedule) (series : Series) (s0 : string)
    (err0 : NumError) :
  1 <= numCPU ->
  DataType series = "string" ->
  In s0 (String series) ->
  ParseFloat s0 64 = inr err0 ->
  exists err w k s,
    ConvertStringToFloat ParseFloat numCPU sched series
      = Ok (series, Some err) /\
    0 <= w < numCPU /\
    In k (chunkIndexes (convertChunk (len (String series)) numCPU w)) /\
    index (String series) k = Some s /\
    ParseFloat s 64 = inr err /\
    (forall k', fst (convertChunk (len (String series)) numCPU w) <= k' < k ->
       exists s' v, index (String series) k' = Some s' /\
                    ParseFloat s' 64 = inl v) /\
    (numCPU = 1 ->
       forall k', 0 <= k' < k ->
       exists s' v, index (String series) k' = Some s' /\
                    ParseFloat s' 64 = inl v).
Proof.
  intros HP Hs Hin Herr0. unfold ConvertStringToFloat.
  rewrite Hs. simpl.
  set (convert := fun s => ParseFloat s 64).
  destruct (In_index _ _ Hin) as [k0 Hk0].
  pose proof (runPool_failure _ _ _ convert (String series) numCPU HP
                0%float sched k0 s0 err0 Hk0 Herr0) as Hfe.
  destruct (runPool_done _ _ _ convert (String series) numCPU HP 0%float sched)
    as [Hinv _].
  rewrite (inv_alive _ Hinv).
  destruct (firstErr _) as [err|] eqn:Hfirst; [|contradiction].
  destruct (runPool_error _ _ _ convert (String series) numCPU HP 0%float
              sched err Hfirst) as (w & k & s & Hw & Hk & Hx & Hc & Hbefore).
  exists err, (Z.of_nat w), k, s.
  split; [reflexivity|]. split; [lia|].
  split.
  { unfold chunkIndexes. apply in_zrange. exact Hk. }
  split; [assumption|]. split; [assumption|].
  split.
  - intros k' Hk'. destruct (Hbefore k' Hk') as (v & s' & Hs' & Hv).
    now exists s', v.
  - intros -> k' Hk'.
    assert (w = 0%nat) by lia. subst w.
    destruct (Hbefore k') as (v & s' & Hs' & Hv).
    + destruct (lo_hi_eq _ (String series) 1 0%nat) as [-> _]. simpl. lia.
    + now exists s', v.
Qed.

Lemma ConvertStringToFloat_prints_a_chunk_first_error_witness :
  exists err w k s,
    ConvertStringToFloat ParseFloat64 2 [(1%nat, false)]
      (mkSeries [] ["x"; "1"; "y"; "1"] "string")
      = Ok (mkSeries [] ["x"; "1"; "y"; "1"] "string", Some err) /\
    0 <= w < 2 /\
    index ["x"; "1"; "y"; "1"] k = Some s /\
    ParseFloat64 s 64 = inr err.
Proof.
  destruct (ConvertStringToFloat_prints_a_chunk_first_error ParseFloat64 2
              [(1%nat, false)] (mkSeries [] ["x"; "1"; "y"; "1"] "string")
              "x" (errSyntax "x"))
    as (err & w & k & s & Hr & Hw & _ & Hk & He & _).
  - lia.
  - reflexivity.
  - simpl. left. reflexivity.
  - reflexivity.
  - exists err, w, k, s. repeat split; try assumption; lia.
Defined.

(** ** The parallel reducer *)

Lemma firstn_plus {X} (a b : nat) (l : list X) :
  firstn (a + b) l = firstn a l ++ firstn b (skipn a l).
Proof.
  revert l. induction a as [|a IH]; intros l; [reflexivity|].
  destruct l as [|x l]; simpl.
  - now rewrite firstn_nil.
  - now rewrite IH.
Qed.

Lemma concat_map_filter_nil {X Y} (p : X -> bool) (f : X -> list Y) l :
  (forall x, In x l -> p x = false -> f x = []) ->
  concat (map f (filter p l)) = concat (map f l).
Proof.
  induction l as [|x l IH]; intros H; [reflexivity|].
  simpl. destruct (p x) eqn:Hp; simpl.
  - rewrite IH; [reflexivity|]. intros; apply H; [now right|assumption].
  - rewrite (H x (or_introl eq_refl) Hp). simpl.
    apply IH. intros; apply H; [now right|assumption].
Qed.

Section ChunkElems.
Context {X : Type}.
Variable data : list X.
Variable P : Z.
Hypothesis HP : 1 <= P.

Lemma concat_chunkElems_prefix (k : nat) :
  concat (map (fun i => firstn (Z.to_nat (snd (convertChunk (len data) P i)
                                          - fst (convertChunk (len data) P i)))
                          (skipn (Z.to_nat (fst (convertChunk (len data) P i)))
                                 data))
              (zrange 0 (Z.of_nat k)))
  = firstn (Z.to_nat (Z.min (Z.of_nat k * chunkSize (len data) P) (len data)))
           data.
Proof.
  destruct (chunkSize_bounds (len data) P (len_nonneg data) HP) as [H0 _].
  induction k as [|k IH].
  - rewrite (zrange_nil 0 (Z.of_nat 0)) by (simpl; lia).
    replace (Z.to_nat _) with 0%nat by lia. reflexivity.
  - replace (Z.of_nat (S k)) with (Z.of_nat k + 1) by lia.
    rewrite zrange_succ by lia.
    rewrite !map_app, concat_app, IH. cbn [map concat]. rewrite app_nil_r.
    rewrite convertChunk_filterChunk, filterChunk_eq. cbn [fst snd].
    destruct (Z.le_gt_cases (len data) (Z.of_nat k * chunkSize (len data) P))
      as [Hge|Hlt].
    + replace (Z.to_nat (Z.min ((Z.of_nat k + 1) * chunkSize (len data) P)
                 (len data) - Z.of_nat k * chunkSize (len data) P))
        with 0%nat by lia.
      simpl. rewrite app_nil_r. f_equal. lia.
    + replace (Z.min (Z.of_nat k * chunkSize (len data) P) (len data))
        with (Z.of_nat k * chunkSize (len data) P) by lia.
      rewrite <- firstn_plus. f_equal. lia.
Qed.

(** The workers' chunks, worker 0 first, make up the data. *)
Lemma concat_chunkElems_workers :
  concat (map (fun i => chunkElems (F := X) data (convertChunk (len data) P i))
              (workers (len data) P))
  = data.
Proof.
  destruct (chunkSize_bounds (len data) P (len_nonneg data) HP) as [H0 [H1 _]].
  unfold workers. rewrite concat_map_filter_nil.
  - unfold chunkElems.
    pose proof (concat_chunkElems_prefix (Z.to_nat P)) as Hpre.
    rewrite Z2Nat.id in Hpre by lia. rewrite Hpre.
    replace (Z.to_nat (Z.min _ _)) with (List.length data)
      by (unfold len in *; lia).
    apply firstn_all.
  - intros i Hi Hout. apply in_zrange in Hi.
    apply Z.ltb_ge in Hout. unfold chunkElems.
    rewrite convertChunk_filterChunk, filterChunk_eq. cbn [fst snd].
    replace (Z.to_nat (Z.min _ _ - _)) with 0%nat by lia. reflexivity.
Qed.
(** So do all chunks, the empty ones included. *)
Lemma concat_chunkElems_all :
  concat (map (fun i => chunkElems (F := X) data (convertChunk (len data) P i))
              (zrange 0 P))
  = data.
Proof.
  etransitivity; [|exact concat_chunkElems_workers]. unfold workers.
  symmetry. apply concat_map_filter_nil.
  intros i Hi Hout. apply in_zrange in Hi.
  destruct (chunkSize_bounds (len data) P (len_nonneg data) HP) as [H0 _].
  apply Z.ltb_ge in Hout. unfold chunkElems.
  rewrite convertChunk_filterChunk, filterChunk_eq. cbn [fst snd].
  replace (Z.to_nat (Z.min _ _ - _)) with 0%nat by lia. reflexivity.
Qed.

(** Whatever the delivery order, the chunks received make up a permutation
    of the data. *)
Lemma delivered_chunks_Permutation order :
  deliveryOrder (len data) P order ->
  Permutation
    (concat (map (fun i => chunkElems (F := X) data (convertChunk (len data) P i))
                 order))
    data.
Proof.
  intros [Hperm|Hperm];
    (eapply Permutation_trans; [apply Permutation_concat_map, Hperm|]).
  - rewrite concat_chunkElems_workers. apply Permutation_refl.
  - rewrite concat_chunkElems_all. apply Permutation_refl.
Qed.
End ChunkElems.

Lemma In_chunkElems {X} (l : list X) c x :
  In x (chunkElems (F := X) l c) -> In x l.
Proof.
  unfold chunkElems. intros Hin.
  rewrite <- (firstn_skipn (Z.to_nat (fst c)) l). apply in_or_app. right.
  rewrite <- (firstn_skipn (Z.to_nat (snd c - fst c))
                (skipn (Z.to_nat (fst c)) l)).
  apply in_or_app. now left.
Qed.

Lemma chunkElems_map {X Y} (f : X -> Y) (l : list X) c :
  chunkElems (F := Y) (map f l) c = map f (chunkElems (F := X) l c).
Proof. unfold chunkElems. now rewrite skipn_map, firstn_map. Qed.

Lemma len_map {X Y} (f : X -> Y) (l : list X) : len (map f l) = len l.
Proof. unfold len. now rewrite length_map. Qed.

(** ** Conversions that succeed *)

Lemma ConvertStringToFloat_success
    (ParseFloat : string -> Z -> float + NumError)
    (numCPU : Z) (sched : schedule) (series : Series) :
  1 <= numCPU ->
  DataType series <> "float" ->
  (forall s, In s (String series) -> exists v, ParseFloat s 64 = inl v) ->
  exists floats,
    ConvertStringToFloat ParseFloat numCPU sched series
      = Ok (mkSeries floats [] (DataType series), None) /\
    Forall2 (fun s v => ParseFloat s 64 = inl v) (String series) floats.
Proof.
  intros HP Hf Hall. unfold ConvertStringToFloat.
  apply String.eqb_neq in Hf. rewrite Hf.
  destruct (runPool_success _ _ _ (fun s => ParseFloat s 64) (String series)
              numCPU HP 0%float sched Hall) as (Hp & Hn & Hout).
  rewrite Hp, Hn. eexists. split; [reflexivity|exact Hout].
Qed.

Lemma Forall2_inl_map {X Y E} (f : X -> Y) (l : list X) (out : list Y) :
  Forall2 (fun x v => @inl Y E (f x) = inl v) l out -> out = map f l.
Proof.
  induction 1 as [|x v l out Hv _ IH]; [reflexivity|].
  simpl. inversion Hv. now rewrite IH.
Qed.

(** ConvertFloatToString cannot fail: on a Series that is not string-typed
    it installs [FormatFloat(x, 'f', -1, 64)] of every element, in order,
    and empties Float; the DataType tag stays as it was. *)
Lemma ConvertFloatToString_formats
    (FormatFloat : float -> ascii -> Z -> Z -> string)
    (numCPU : Z) (sched : schedule) (series : Series) :
  1 <= numCPU ->
  DataType series <> "string" ->
  ConvertFloatToString FormatFloat numCPU sched series
  = Ok (mkSeries [] (map (fun f => FormatFloat f "f"%char (-1) 64) (Float series))
          (DataType series), None).
Proof.
  intros HP Hs. unfold ConvertFloatToString.
  apply String.eqb_neq in Hs. rewrite Hs.
  destruct (runPool_success _ _ NumError
              (fun f => inl (FormatFloat f "f"%char (-1) 64)) (Float series)
              numCPU HP EmptyString sched) as (Hp & Hn & Hout).
  { intros x _. eauto. }
  rewrite Hp, Hn. now rewrite (Forall2_inl_map _ _ _ Hout).
Qed.

(** C8 on the code: converting ["1.5", "2.0", "3"] to numbers and then
    back to text does not yield ["1.5", "2", "3"]: ConvertStringToFloat
    installs the floats [1.5, 2, 3] and empties String but leaves DataType at
    "string", so ConvertFloatToString takes the Series for a string one and
    returns at its guard; the Series ends with an empty String sequence. Had
    the tag been "float", the formatter would have been applied to every
    element. *)
Theorem numeric_then_text_keeps_string_tag
    (FormatFloat : float -> ascii -> Z -> Z -> string)
    (numCPU : Z) (sched sched' : schedule) :
  1 <= numCPU ->
  let series := mkSeries [] ["1.5"; "2.0"; "3"] "string" in
  let converted := mkSeries [1.5; 2; 3]%float [] "string" in
  ConvertStringToFloat ParseFloat64 numCPU sched series = Ok (converted, None) /\
  ConvertFloatToString FormatFloat numCPU sched' converted
    = Ok (converted, None) /\
  String converted = [] /\
  ConvertFloatToString FormatFloat numCPU sched'
    (mkSeries [1.5; 2; 3]%float [] "float")
  = Ok (mkSeries []
          [FormatFloat 1.5%float "f"%char (-1) 64;
           FormatFloat 2%float "f"%char (-1) 64;
           FormatFloat 3%float "f"%char (-1) 64] "float", None).
Proof.
  intros HP series converted.
  split; [|split; [|split]].
  - destruct (ConvertStringToFloat_success ParseFloat64 numCPU sched series HP)
      as (floats & Hr & Hall).
    + discriminate.
    + intros s Hs. simpl in Hs.
      repeat (destruct Hs as [<-|Hs]; [eexists; reflexivity|]). contradiction.
    + rewrite Hr. simpl in Hall.
      inversion Hall as [|s1 v1 l1 o1 H1 Hall1]; subst.
      inversion Hall1 as [|s2 v2 l2 o2 H2 Hall2]; subst.
      inversion Hall2 as [|s3 v3 l3 o3 H3 Hall3]; subst.
      inversion Hall3; subst.
      vm_compute in H1, H2, H3.
      inversion H1; inversion H2; inversion H3. reflexivity.
  - reflexivity.
  - reflexivity.
  - now rewrite ConvertFloatToString_formats by (assumption || discriminate).
Qed.

Lemma numeric_then_text_keeps_string_tag_witness :
  ConvertStringToFloat ParseFloat64 2 [(1%nat, true); (0%nat, false)]
    (mkSeries [] ["1.5"; "2.0"; "3"] "string")
  = Ok (mkSeries [1.5; 2; 3]%float [] "string", None) /\
  ConvertFloatToString (fun _ _ _ _ => "?") 2 []
    (mkSeries [1.5; 2; 3]%float [] "string")
  = Ok (mkSeries [1.5; 2; 3]%float [] "string", None).
Proof.
  destruct (numeric_then_text_keeps_string_tag (fun _ _ _ _ => "?") 2
              [(1%nat, true); (0%nat, false)] [])
    as (H1 & H2 & _).
  - lia.
  - split; [exact H1|exact H2].
Defined.

(** A second call of ConvertStringToFloat is not stopped by the guard
    either (the tag still reads "string") and replaces the converted floats
    by the conversion of the now empty String sequence. *)
Example ConvertStringToFloat_twice :
  ConvertStringToFloat ParseFloat64 2 []
    (mkSeries [1.5; 2; 3]%float [] "string")
  = Ok (mkSeries [] [] "string", None).
Proof. reflexivity. Qed.

(** * Further properties of the code *)

(** ** FilterStringSeries *)

Lemma FilterStringSeries_general (numCPU : Z) (order : list Z)
    (condition : string -> bool) (series : Series) :
  DataType series = "string" -> 1 <= numCPU ->
  Permutation order (zrange 0 numCPU) ->
  exists idxs kept,
    FilterStringSeries numCPU order condition series
      = Ok (idxs, mkSeries (Float series) kept (DataType series)) /\
    idxs = concat (map (fun i =>
             filter (holdsAt (String series) condition)
               (chunkIndexes (filterChunk (len (String series)) numCPU i))) order) /\
    Permutation idxs (matching (String series) condition) /\
    map Some kept = map (index (String series)) idxs /\
    Permutation kept (filter condition (String series)) /\
    (order = zrange 0 numCPU ->
       idxs = matching (String series) condition /\
       kept = filter condition (String series)).
Proof.
  intros Hf HP Hperm. destruct series as [fl data dt]. simpl in *. subst dt.
  unfold FilterStringSeries, GetLength. simpl.
  pose proof (collected_is_matching_permuted data condition numCPU order
                HP Hperm) as Hc.
  destruct (Z.eqb_spec (len data) 0) as [Hz|Hz].
  - assert (data = []) as ->.
    { unfold len in Hz. destruct data; [reflexivity|simpl in Hz; lia]. }
    change (matching [] condition) with (@nil Z) in *.
    apply Permutation_sym, Permutation_nil in Hc.
    exists [], []. rewrite Hc.
    repeat split; try reflexivity; constructor.
  - rewrite collected_indexes by assumption.
    set (idxs := concat _) in *.
    destruct (gather_Permutation data _ _ (Permutation_sym Hc) _
                (gather_matching condition data))
      as (kept & Hg & Hk).
    unfold RemoveIndexes. simpl. rewrite Hg.
    exists idxs, kept.
    split; [reflexivity|]. split; [reflexivity|]. split; [assumption|].
    split.
    + destruct (gather_in_bounds data idxs) as (xs & Hg' & Hm).
      { intros j Hj. apply (in_matching_bounds data condition).
        eapply Permutation_in; eassumption. }
      congruence.
    + split; [now apply Permutation_sym|].
      intros ->. subst idxs.
      rewrite collected_in_chunk_order in * by assumption.
      split; [reflexivity|].
      rewrite gather_matching in Hg. congruence.
Qed.

(** X1: FilterStringSeries on a string-typed Series, for every worker count and
    every completion order of the workers: the returned indexes are exactly
    the per-chunk ascending match lists, concatenated in the order in which
    the workers completed; this list is a permutation of the matching
    indexes; the Series keeps exactly the elements at the returned indexes,
    in that order; Float and DataType are untouched.  When the workers
    deliver in chunk order the result is the sequential filter. *)
Theorem FilterStringSeries_completion_order (numCPU : Z) (order : list Z)
    (condition : string -> bool) (series : Series) :
  DataType series = "string" -> 1 <= numCPU ->
  Permutation order (zrange 0 numCPU) ->
  exists idxs kept,
    FilterStringSeries numCPU order condition series
      = Ok (idxs, mkSeries (Float series) kept (DataType series)) /\
    idxs = concat (map (fun i =>
             filter (holdsAt (String series) condition)
               (chunkIndexes (filterChunk (len (String series)) numCPU i)))
             order) /\
    Permutation idxs (matching (String series) condition) /\
    map Some kept = map (index (String series)) idxs /\
    Permutation kept (filter condition (String series)) /\
    (order = zrange 0 numCPU ->
       idxs = matching (String series) condition /\
       kept = filter condition (String series)).
Proof.
  intros Hs HP Hperm.
  destruct (FilterStringSeries_general numCPU order condition series Hs HP Hperm)
    as (idxs & kept & Hr & Hc & Hi & Hm & Hk & Hord).
  exists idxs, kept. repeat split; try assumption; now apply Hord.
Qed.

Lemma FilterStringSeries_completion_order_witness :
  FilterStringSeries 2 [1; 0] (fun s => negb (s =? "b")%string)
    (mkSeries [] ["a"; "b"; "c"; "d"] "string")
  = Ok ([2; 3; 0], mkSeries [] ["c"; "d"; "a"] "string").
Proof.
  destruct (FilterStringSeries_completion_order 2 [1; 0]
              (fun s => negb (s =? "b")%string)
              (mkSeries [] ["a"; "b"; "c"; "d"] "string"))
    as (idxs & kept & Hr & Hc & _ & Hm & _).
  - reflexivity.
  - lia.
  - apply perm_swap.
  - rewrite Hr. subst idxs.
    change (map Some kept = map Some ["c"; "d"; "a"]) in Hm.
    apply (f_equal (fun l => map (fun o => match o with
                                           | Some s => s
                                           | None => EmptyString
                                           end) l)) in Hm.
    rewrite !map_map, map_id in Hm. rewrite Hm. reflexivity.
Defined.

(** ** The filters and their type guard *)

(** X2: with a well-formed completion order the filters fail in one way only:
    FilterFloatSeries panics exactly when the Series is not tagged "float",
    FilterStringSeries exactly when it is not tagged "string"; no worker
    ever reads outside the slice. *)
Theorem filters_panic_iff_wrong_tag (numCPU : Z) (order : list Z)
    (series : Series) :
  1 <= numCPU -> Permutation order (zrange 0 numCPU) ->
  (forall condition,
     (exists r, FilterFloatSeries numCPU order condition series = Ok r)
     <-> DataType series = "float") /\
  (forall condition,
     (exists r, FilterStringSeries numCPU order condition series = Ok r)
     <-> DataType series = "string").
Proof.
  intros HP Hperm. split; intros condition; split.
  - intros [r Hr]. unfold FilterFloatSeries in Hr.
    destruct (String.eqb_spec (DataType series) "float"); [assumption|discriminate].
  - intros Hf.
    destruct (FilterFloatSeries_general numCPU order condition series Hf HP Hperm)
      as (idxs & kept & Hr & _). eauto.
  - intros [r Hr]. unfold FilterStringSeries in Hr.
    destruct (String.eqb_spec (DataType series) "string"); [assumption|discriminate].
  - intros Hs.
    destruct (FilterStringSeries_general numCPU order condition series Hs HP Hperm)
      as (idxs & kept & Hr & _). eauto.
Qed.

Lemma filters_panic_iff_wrong_tag_witness :
  (exists r, FilterFloatSeries 2 [1; 0] (fun x => PrimFloat.ltb 15 x)
               (mkSeries [10; 20]%float [] "float") = Ok r) /\
  ~ (exists r, FilterStringSeries 2 [1; 0] (fun _ => true)
                 (mkSeries [10; 20]%float [] "float") = Ok r).
Proof.
  assert (Hp : Permutation [1; 0] (zrange 0 2)) by (vm_compute; constructor).
  destruct (filters_panic_iff_wrong_tag 2 [1; 0]
              (mkSeries [10; 20]%float [] "float") ltac:(lia) Hp) as [Hf Hs].
  split.
  - apply Hf. reflexivity.
  - intros H. apply Hs in H. discriminate.
Defined.

(** ** What the filters return *)

Lemma NoDup_zrange lo hi : NoDup (zrange lo hi).
Proof.
  unfold zrange. apply Finite.Injective_map_NoDup; [|apply seq_NoDup].
  intros a b H. lia.
Qed.

Lemma NoDup_matching {A} (data : list A) condition :
  NoDup (matching data condition).
Proof. unfold matching. apply NoDup_filter, NoDup_zrange. Qed.

Lemma filter_all {A} (p : A -> bool) l :
  (forall x, In x l -> p x = true) -> filter p l = l.
Proof.
  induction l as [|x l IH]; intros H; [reflexivity|].
  simpl. rewrite (H x (or_introl eq_refl)). f_equal.
  apply IH. intros y Hy. apply H. now right.
Qed.

Lemma matching_all {A} (data : list A) condition :
  (forall x, In x data -> condition x = true) ->
  matching data condition = zrange 0 (len data).
Proof.
  intros Hall. unfold matching. apply filter_all.
  intros j Hj. apply in_zrange in Hj. unfold holdsAt.
  destruct (index_Some data j Hj) as [x Hx]. rewrite Hx.
  apply Hall. unfold index in Hx. destruct (j <? 0); [discriminate|].
  eapply nth_error_In; eassumption.
Qed.

(** X3: the indexes FilterFloatSeries returns are distinct positions of the
    Series as it was, as many as the elements kept; applied through
    RemoveIndexes to another column of the same length they select the same
    rows there, so that position i of both columns comes from the original
    row idxs[i]. *)
Theorem filter_indexes_select_rows (numCPU : Z) (order : list Z)
    (condition : float -> bool) (series series' other : Series)
    (idxs : list Z) :
  1 <= numCPU -> Permutation order (zrange 0 numCPU) ->
  FilterFloatSeries numCPU order condition series = Ok (idxs, series') ->
  (if (DataType other =? "float")%string then len (Float other)
   else len (String other)) = len (Float series) ->
  NoDup idxs /\
  (forall i, In i idxs -> 0 <= i < len (Float series)) /\
  len (Float series') = len idxs /\
  map Some (Float series') = map (index (Float series)) idxs /\
  exists other',
    RemoveIndexes other idxs = Ok other' /\
    (DataType other = "float" ->
       map Some (Float other') = map (index (Float other)) idxs) /\
    (DataType other <> "float" ->
       map Some (String other') = map (index (String other)) idxs).
Proof.
  intros HP Hperm Hr Hlen.
  assert (Hf : DataType series = "float").
  { unfold FilterFloatSeries in Hr.
    destruct (String.eqb_spec (DataType series) "float"); [assumption|discriminate]. }
  destruct (FilterFloatSeries_general numCPU order condition series Hf HP Hperm)
    as (idxs0 & kept & Hr0 & _ & Hi & Hm & _).
  rewrite Hr in Hr0. inversion Hr0; subst idxs0 series'. clear Hr0. simpl.
  assert (Hb : forall i, In i idxs -> 0 <= i < len (Float series)).
  { intros i Hin. apply (in_matching_bounds (Float series) condition).
    eapply Permutation_in; eassumption. }
  split.
  { eapply Permutation_NoDup; [apply Permutation_sym; eassumption|].
    apply NoDup_matching. }
  split; [assumption|]. split.
  { unfold len. f_equal.
    rewrite <- (length_map Some kept), Hm. apply length_map. }
  split; [assumption|].
  unfold RemoveIndexes.
  destruct (String.eqb_spec (DataType other) "float") as [Ht|Ht].
  - destruct (gather_in_bounds (Float other) idxs) as (xs & Hg & Hx).
    { intros i Hin. rewrite Hlen. now apply Hb. }
    rewrite Hg. eexists. split; [reflexivity|]. simpl.
    split; [intros _; assumption|congruence].
  - destruct (gather_in_bounds (String other) idxs) as (xs & Hg & Hx).
    { intros i Hin. rewrite Hlen. now apply Hb. }
    rewrite Hg. eexists. split; [reflexivity|]. simpl.
    split; [congruence|intros _; assumption].
Qed.

Lemma filter_indexes_select_rows_witness :
  exists names,
    RemoveIndexes (mkSeries [] ["a"; "b"; "c"] "string") [2; 1] = Ok names /\
    map Some (String names) = [Some "c"; Some "b"].
Proof.
  destruct (filter_indexes_select_rows 2 [1; 0] (fun x => PrimFloat.ltb 15 x)
              (mkSeries [10; 20; 30]%float [] "float")
              (mkSeries [30; 20]%float [] "float")
              (mkSeries [] ["a"; "b"; "c"] "string") [2; 1])
    as (_ & _ & _ & _ & names & Hr & _ & Hs).
  - lia.
  - vm_compute. constructor.
  - reflexivity.
  - reflexivity.
  - exists names. split; [exact Hr|]. apply Hs. discriminate.
Defined.

(** X4: filtering again with the same predicate drops nothing: the second call
    returns every position of the filtered Series and leaves a permutation
    of it, the Series itself when the workers deliver in chunk order. *)
Theorem filter_twice_keeps_all (numCPU : Z) (order1 order2 : list Z)
    (condition : float -> bool) (series series1 : Series) (idxs1 : list Z) :
  1 <= numCPU ->
  Permutation order1 (zrange 0 numCPU) -> Permutation order2 (zrange 0 numCPU) ->
  FilterFloatSeries numCPU order1 condition series = Ok (idxs1, series1) ->
  exists idxs2 series2,
    FilterFloatSeries numCPU order2 condition series1 = Ok (idxs2, series2) /\
    Permutation idxs2 (zrange 0 (len (Float series1))) /\
    Permutation (Float series2) (Float series1) /\
    String series2 = String series1 /\
    (forall x, In x (Float series2) -> condition x = true) /\
    (order2 = zrange 0 numCPU -> series2 = series1).
Proof.
  intros HP Hp1 Hp2 Hr.
  assert (Hf : DataType series = "float").
  { unfold FilterFloatSeries in Hr.
    destruct (String.eqb_spec (DataType series) "float"); [assumption|discriminate]. }
  destruct (FilterFloatSeries_general numCPU order1 condition series Hf HP Hp1)
    as (i0 & kept & Hr0 & _ & _ & _ & Hk & _).
  rewrite Hr in Hr0. inversion Hr0; subst i0 series1. clear Hr0.
  assert (Hall : forall x, In x kept -> condition x = true).
  { intros x Hx. apply (Permutation_in _ Hk) in Hx.
    apply filter_In in Hx. tauto. }
  destruct (FilterFloatSeries_general numCPU order2 condition
              (mkSeries kept (String series) (DataType series)) Hf HP Hp2)
    as (idxs2 & kept2 & Hr2 & _ & Hi2 & _ & Hk2 & Hord).
  simpl in *. rewrite (matching_all kept condition Hall) in Hi2, Hord.
  rewrite (filter_all condition kept Hall) in Hk2, Hord.
  exists idxs2, (mkSeries kept2 (String series) (DataType series)).
  simpl. repeat split; try assumption.
  - intros x Hx. apply Hall. eapply Permutation_in; eassumption.
  - intros Ho. destruct (Hord Ho) as [_ ->]. reflexivity.
Qed.

Lemma filter_twice_keeps_all_witness :
  exists idxs2 series2,
    FilterFloatSeries 2 [0; 1] (fun x => PrimFloat.ltb 15 x)
      (mkSeries [30; 20]%float [] "float") = Ok (idxs2, series2) /\
    Permutation (Float series2) [30; 20]%float.
Proof.
  destruct (filter_twice_keeps_all 2 [1; 0] [0; 1] (fun x => PrimFloat.ltb 15 x)
              (mkSeries [10; 20; 30]%float [] "float")
              (mkSeries [30; 20]%float [] "float") [2; 1])
    as (idxs2 & series2 & Hr & _ & Hk & _).
  - lia.
  - vm_compute. constructor.
  - vm_compute. apply Permutation_refl.
  - reflexivity.
  - exists idxs2, series2. split; assumption.
Defined.

(** ** RemoveIndexes: bounds, identity, composition *)

Lemma gather_Some_bounds {A} (data : list A) indexes xs :
  gather data indexes = Some xs ->
  forall idx, In idx indexes -> 0 <= idx < len data.
Proof.
  revert xs. induction indexes as [|i rest IH]; simpl; intros xs Hg idx Hin;
    [contradiction|].
  destruct (index data i) as [x|] eqn:Hx; [|discriminate].
  destruct (gather data rest) as [r|] eqn:Hr; [|discriminate].
  destruct Hin as [<-|Hin]; [eapply index_Some_lt; eassumption|].
  eapply IH; [reflexivity|assumption].
Qed.

Lemma gather_ok_iff {A} (data : list A) indexes :
  (exists xs, gather data indexes = Some xs) <->
  (forall idx, In idx indexes -> 0 <= idx < len data).
Proof.
  split.
  - intros [xs Hg]. eapply gather_Some_bounds; eassumption.
  - intros Hb. destruct (gather_in_bounds data indexes Hb) as (xs & Hg & _).
    eauto.
Qed.

(** X5: RemoveIndexes returns exactly when every listed index is a position of
    the active sequence; otherwise it panics (and, being a panic inside the
    loop that fills the fresh slice, before the Series is assigned). *)
Theorem RemoveIndexes_returns_iff_in_bounds (series : Series) (indexes : list Z) :
  ((exists series', RemoveIndexes series indexes = Ok series') <->
   (forall idx, In idx indexes ->
      0 <= idx < (if (DataType series =? "float")%string
                  then len (Float series) else len (String series)))) /\
  ((exists idx, In idx indexes /\
      ~ 0 <= idx < (if (DataType series =? "float")%string
                    then len (Float series) else len (String series))) ->
   RemoveIndexes series indexes = Panic "index out of range").
Proof.
  unfold RemoveIndexes.
  destruct (String.eqb_spec (DataType series) "float") as [Ht|Ht].
  - pose proof (gather_ok_iff (Float series) indexes) as Hiff.
    destruct (gather (Float series) indexes) as [xs|] eqn:Hg.
    + split.
      * split; [intros _; apply Hiff; eauto|eauto].
      * intros (idx & Hin & Hout). exfalso. apply Hout.
        apply (proj1 Hiff); eauto.
    + split; [|reflexivity].
      split; [intros [s' Hs']; discriminate|].
      intros Hb. apply Hiff in Hb. destruct Hb as [xs Hxs]. discriminate.
  - pose proof (gather_ok_iff (String series) indexes) as Hiff.
    destruct (gather (String series) indexes) as [xs|] eqn:Hg.
    + split.
      * split; [intros _; apply Hiff; eauto|eauto].
      * intros (idx & Hin & Hout). exfalso. apply Hout.
        apply (proj1 Hiff); eauto.
    + split; [|reflexivity].
      split; [intros [s' Hs']; discriminate|].
      intros Hb. apply Hiff in Hb. destruct Hb as [xs Hxs]. discriminate.
Qed.

Lemma RemoveIndexes_returns_iff_in_bounds_witness :
  RemoveIndexes (mkSeries [10; 20; 30]%float [] "float") [0; -1]
  = Panic "index out of range".
Proof.
  apply (proj2 (RemoveIndexes_returns_iff_in_bounds
                  (mkSeries [10; 20; 30]%float [] "float") [0; -1])).
  exists (-1). split; [simpl; auto|]. vm_compute. intros [H _]. now apply H.
Defined.

Lemma gather_all {A} (data : list A) :
  gather data (zrange 0 (len data)) = Some data.
Proof.
  pose proof (gather_matching (fun _ : A => true) data) as H.
  rewrite matching_all in H by reflexivity.
  now rewrite filter_all in H by reflexivity.
Qed.

(** X6: listing every position in order keeps the Series as it is; listing
    nothing empties the active sequence. *)
Theorem RemoveIndexes_all_and_none (series : Series) :
  RemoveIndexes series
    (zrange 0 (if (DataType series =? "float")%string
               then len (Float series) else len (String series)))
  = Ok series /\
  RemoveIndexes series []
  = Ok (if (DataType series =? "float")%string
        then mkSeries [] (String series) (DataType series)
        else mkSeries (Float series) [] (DataType series)).
Proof.
  unfold RemoveIndexes. destruct series as [fl st dt]. simpl.
  destruct (dt =? "float")%string; simpl; rewrite ?gather_all; split; reflexivity.
Qed.

Lemma gather_index {A} (data : list A) a xs :
  gather data a = Some xs ->
  forall n y, nth_error xs n = Some y ->
  exists j, nth_error a n = Some j /\ index data j = Some y.
Proof.
  revert xs. induction a as [|i rest IH]; simpl; intros xs Hg n y Hn.
  - inversion Hg; subst. destruct n; discriminate.
  - destruct (index data i) as [x|] eqn:Hx; [|discriminate].
    destruct (gather data rest) as [r|] eqn:Hr; [|discriminate].
    inversion Hg; subst. destruct n as [|n]; simpl in *.
    + inversion Hn; subst. eauto.
    + eapply IH; [reflexivity|eassumption].
Qed.

Lemma gather_compose {A} (data : list A) a b xs ys :
  gather data a = Some xs -> gather xs b = Some ys ->
  exists c, gather a b = Some c /\ gather data c = Some ys.
Proof.
  intros Ha. revert ys. induction b as [|i rest IH]; simpl; intros ys Hb.
  - inversion Hb. exists []. split; reflexivity.
  - destruct (index xs i) as [y|] eqn:Hy; [|discriminate].
    destruct (gather xs rest) as [r|] eqn:Hr; [|discriminate].
    inversion Hb; subst. destruct (IH r eq_refl) as (c & Hc & Hd).
    assert (Hj : exists j, index a i = Some j /\ index data j = Some y).
    { unfold index in Hy |- *. destruct (i <? 0); [discriminate|].
      eapply gather_index; eassumption. }
    destruct Hj as (j & Hj & Hjy).
    exists (j :: c). rewrite Hj, Hc. split; [reflexivity|].
    simpl. now rewrite Hjy, Hd.
Qed.

(** X7: two selections in a row are one selection: RemoveIndexes with [a] and
    then with [b] gives what RemoveIndexes gives with the list
    a[b[0]], a[b[1]], ... *)
Theorem RemoveIndexes_compose (series series1 series2 : Series) (a b : list Z) :
  RemoveIndexes series a = Ok series1 ->
  RemoveIndexes series1 b = Ok series2 ->
  exists c, gather a b = Some c /\ RemoveIndexes series c = Ok series2.
Proof.
  unfold RemoveIndexes. intros H1 H2.
  destruct (String.eqb_spec (DataType series) "float") as [Ht|Ht].
  - destruct (gather (Float series) a) as [xs|] eqn:Ha; [|discriminate].
    inversion H1; subst series1. clear H1. simpl in H2. rewrite Ht in H2.
    simpl in H2.
    destruct (gather xs b) as [ys|] eqn:Hb; [|discriminate].
    inversion H2; subst series2. clear H2.
    destruct (gather_compose _ _ _ _ _ Ha Hb) as (c & Hc & Hd).
    exists c. rewrite Hd. split; [assumption|]. now rewrite Ht.
  - destruct (gather (String series) a) as [xs|] eqn:Ha; [|discriminate].
    inversion H1; subst series1. clear H1. simpl in H2.
    apply String.eqb_neq in Ht. rewrite Ht in H2.
    destruct (gather xs b) as [ys|] eqn:Hb; [|discriminate].
    inversion H2; subst series2. clear H2.
    destruct (gather_compose _ _ _ _ _ Ha Hb) as (c & Hc & Hd).
    exists c. rewrite Hd. split; [assumption|reflexivity].
Qed.

Lemma RemoveIndexes_compose_witness :
  exists c,
    gather [3; 1; 2] [2; 0] = Some c /\
    RemoveIndexes (mkSeries [10; 20; 30; 40]%float [] "float") c
    = Ok (mkSeries [30; 40]%float [] "float").
Proof.
  apply (RemoveIndexes_compose
           (mkSeries [10; 20; 30; 40]%float [] "float")
           (mkSeries [40; 20; 30]%float [] "float")
           (mkSeries [30; 40]%float [] "float") [3; 1; 2] [2; 0]);
    reflexivity.
Defined.

(** ** ConvertStringToFloat: outcome for every schedule *)

Lemma Forall2_nil_l {X Y} (R : X -> Y -> Prop) l : Forall2 R [] l -> l = [].
Proof. now inversion 1. Qed.

(** X8: on a Series that is not tagged "float" ConvertStringToFloat never
    panics and never changes the DataType tag, and its outcome does not
    depend on the schedule: it prints nothing exactly when every element
    parses, and then Float holds the parsed values position by position
    (as many as there were strings) and String is empty; otherwise the
    Series is as before. *)
Theorem ConvertStringToFloat_outcome
    (ParseFloat : string -> Z -> float + NumError)
    (numCPU : Z) (sched : schedule) (series : Series) :
  1 <= numCPU -> DataType series <> "float" ->
  exists series' printed,
    ConvertStringToFloat ParseFloat numCPU sched series = Ok (series', printed) /\
    DataType series' = DataType series /\
    (printed = None <->
       forall s, In s (String series) -> exists v, ParseFloat s 64 = inl v) /\
    (printed = None ->
       String series' = [] /\
       Forall2 (fun s v => ParseFloat s 64 = inl v) (String series) (Float series') /\
       len (Float series') = len (String series)) /\
    (printed <> None -> series' = series).
Proof.
  intros HP Hf.
  set (convert := fun s => ParseFloat s 64).
  destruct (runPool_done _ _ _ convert (String series) numCPU HP 0%float sched)
    as [Hinv _].
  assert (Hdec : (forall s, In s (String series) -> exists v, convert s = inl v) \/
                 (exists s err, In s (String series) /\ convert s = inr err)).
  { clear. induction (String series) as [|s l IH].
    - left. intros s [].
    - destruct (convert s) as [v|err] eqn:Hs.
      + destruct IH as [IH|(s' & err & Hin & He)].
        * left. intros s0 [<-|Hin]; eauto.
        * right. exists s', err. split; [now right|assumption].
      + right. exists s, err. split; [now left|assumption]. }
  unfold ConvertStringToFloat. apply String.eqb_neq in Hf. rewrite Hf.
  fold convert. rewrite (inv_alive _ Hinv).
  destruct Hdec as [Hall|(s & err & Hin & He)].
  - destruct (runPool_success _ _ _ convert (String series) numCPU HP 0%float
                sched Hall) as (_ & Hn & Hout).
    rewrite Hn. do 2 eexists. split; [reflexivity|]. simpl.
    split; [reflexivity|]. split; [tauto|]. split; [|congruence].
    intros _. split; [reflexivity|]. split; [exact Hout|].
    unfold len. f_equal. symmetry. eapply Forall2_length; eassumption.
  - destruct (In_index _ _ Hin) as [k Hk].
    pose proof (runPool_failure _ _ _ convert (String series) numCPU HP
                  0%float sched k s err Hk He) as Hfe.
    destruct (firstErr _) as [e|]; [|contradiction].
    do 2 eexists. split; [reflexivity|]. split; [reflexivity|].
    split; [|split; [discriminate|reflexivity]].
    split; [discriminate|].
    intros Hall. destruct (Hall s Hin) as [v Hv]. unfold convert in He. congruence.
Qed.

Lemma ConvertStringToFloat_outcome_witness :
  exists series',
    ConvertStringToFloat ParseFloat64 3 [(2%nat, true); (0%nat, false)]
      (mkSeries [] ["1e2"; "-0.5"; "7"] "string") = Ok (series', None) /\
    String series' = [] /\ len (Float series') = 3.
Proof.
  destruct (ConvertStringToFloat_outcome ParseFloat64 3
              [(2%nat, true); (0%nat, false)]
              (mkSeries [] ["1e2"; "-0.5"; "7"] "string"))
    as (series' & printed & Hr & _ & Hiff & Hok & _).
  - lia.
  - discriminate.
  - assert (Hp : printed = None).
    { apply Hiff. intros s Hs. simpl in Hs.
      repeat (destruct Hs as [<-|Hs]; [eexists; reflexivity|]). contradiction. }
    subst printed. exists series'. split; [exact Hr|].
    destruct (Hok eq_refl) as (Hs & _ & Hl). split; [exact Hs|exact Hl].
Defined.

(** X9: when exactly one position holds a string that does not parse, the error
    printed is the parser's error for that string, whatever the schedule. *)
Theorem ConvertStringToFloat_single_failure
    (ParseFloat : string -> Z -> float + NumError)
    (numCPU : Z) (sched : schedule) (series : Series)
    (k : Z) (s : string) (err : NumError) :
  1 <= numCPU -> DataType series <> "float" ->
  index (String series) k = Some s -> ParseFloat s 64 = inr err ->
  (forall k' s', index (String series) k' = Some s' -> k' <> k ->
     exists v, ParseFloat s' 64 = inl v) ->
  ConvertStringToFloat ParseFloat numCPU sched series = Ok (series, Some err).
Proof.
  intros HP Hf Hk He Hothers.
  set (convert := fun s => ParseFloat s 64).
  destruct (runPool_done _ _ _ convert (String series) numCPU HP 0%float sched)
    as [Hinv _].
  pose proof (runPool_failure _ _ _ convert (String series) numCPU HP
                0%float sched k s err Hk He) as Hfe.
  unfold ConvertStringToFloat. apply String.eqb_neq in Hf. rewrite Hf.
  fold convert. rewrite (inv_alive _ Hinv).
  destruct (firstErr _) as [e|] eqn:Hfirst; [|contradiction].
  destruct (runPool_error _ _ _ convert (String series) numCPU HP 0%float
              sched e Hfirst) as (w & k' & s' & _ & _ & Hk' & He' & _).
  destruct (Z.eq_dec k' k) as [->|Hne].
  - unfold convert in He'. congruence.
  - destruct (Hothers k' s' Hk' Hne) as [v Hv]. unfold convert in He'. congruence.
Qed.

Lemma ConvertStringToFloat_single_failure_witness :
  ConvertStringToFloat ParseFloat64 2 [(1%nat, false); (0%nat, true)]
    (mkSeries [] ["1"; "2"; "oops"; "4"] "string")
  = Ok (mkSeries [] ["1"; "2"; "oops"; "4"] "string", Some (errSyntax "oops")).
Proof.
  apply (ConvertStringToFloat_single_failure ParseFloat64 2
           [(1%nat, false); (0%nat, true)]
           (mkSeries [] ["1"; "2"; "oops"; "4"] "string") 2 "oops"
           (errSyntax "oops")).
  - lia.
  - discriminate.
  - reflexivity.
  - reflexivity.
  - intros k' s' Hk' Hne. unfold index in Hk'.
    destruct (Z.ltb_spec k' 0); [discriminate|].
    destruct (Z.to_nat k') as [|[|[|[|n]]]] eqn:En; simpl in Hk'.
    + inversion Hk'. eexists. reflexivity.
    + inversion Hk'. eexists. reflexivity.
    + exfalso. apply Hne. lia.
    + inversion Hk'. eexists. reflexivity.
    + destruct n; discriminate.
Defined.

(** ** Conversions and the tag that never moves *)

(** X10: ConvertFloatToString on a Series that is not tagged "string": for every
    schedule it returns without printing, String holds
    FormatFloat(x, 'f', -1, 64) of every element in order, Float is empty,
    the tag is unchanged. *)
Theorem ConvertFloatToString_outcome
    (FormatFloat : float -> ascii -> Z -> Z -> string)
    (numCPU : Z) (sched : schedule) (series : Series) :
  1 <= numCPU -> DataType series <> "string" ->
  exists series',
    ConvertFloatToString FormatFloat numCPU sched series = Ok (series', None) /\
    String series' = map (fun f => FormatFloat f "f"%char (-1) 64) (Float series) /\
    len (String series') = len (Float series) /\
    Float series' = [] /\
    DataType series' = DataType series.
Proof.
  intros HP Hs.
  rewrite (ConvertFloatToString_formats FormatFloat numCPU sched series HP Hs).
  eexists. split; [reflexivity|]. simpl.
  repeat split. apply len_map.
Qed.

Lemma ConvertFloatToString_outcome_witness :
  exists series',
    ConvertFloatToString (fun f _ _ _ => if PrimFloat.ltb f 2 then "lo" else "hi")
      2 [(1%nat, false)] (mkSeries [1; 2; 3]%float [] "float")
    = Ok (series', None) /\
    String series' = ["lo"; "hi"; "hi"].
Proof.
  destruct (ConvertFloatToString_outcome
              (fun f _ _ _ => if PrimFloat.ltb f 2 then "lo" else "hi")
              2 [(1%nat, false)] (mkSeries [1; 2; 3]%float [] "float"))
    as (series' & Hr & Hs & _).
  - lia.
  - discriminate.
  - exists series'. split; [exact Hr|exact Hs].
Defined.

(** X11: since neither conversion moves the tag, a repeated call is not stopped
    by the guard and converts the sequence the first call emptied: after a
    successful ConvertStringToFloat a second call leaves Float empty, and
    after ConvertFloatToString a second call leaves String empty; the data
    are gone from both sequences. *)
Theorem repeated_conversion_loses_data
    (ParseFloat : string -> Z -> float + NumError)
    (FormatFloat : float -> ascii -> Z -> Z -> string)
    (numCPU : Z) (sched1 sched2 : schedule) (series : Series) :
  1 <= numCPU ->
  (DataType series <> "float" ->
   (forall s, In s (String series) -> exists v, ParseFloat s 64 = inl v) ->
   exists series1,
     ConvertStringToFloat ParseFloat numCPU sched1 series = Ok (series1, None) /\
     ConvertStringToFloat ParseFloat numCPU sched2 series1
       = Ok (mkSeries [] [] (DataType series), None)) /\
  (DataType series <> "string" ->
   exists series1,
     ConvertFloatToString FormatFloat numCPU sched1 series = Ok (series1, None) /\
     ConvertFloatToString FormatFloat numCPU sched2 series1
       = Ok (mkSeries [] [] (DataType series), None)).
Proof.
  intros HP. split.
  - intros Hf Hall.
    destruct (ConvertStringToFloat_success ParseFloat numCPU sched1 series
                HP Hf Hall) as (floats & Hr & _).
    eexists. split; [exact Hr|].
    destruct (ConvertStringToFloat_success ParseFloat numCPU sched2
                (mkSeries floats [] (DataType series)) HP Hf)
      as (floats2 & Hr2 & Hall2).
    { intros s []. }
    simpl in *. apply Forall2_nil_l in Hall2. now subst floats2.
  - intros Hs.
    rewrite (ConvertFloatToString_formats FormatFloat numCPU sched1 series HP Hs).
    eexists. split; [reflexivity|].
    rewrite ConvertFloatToString_formats by assumption. reflexivity.
Qed.

Lemma repeated_conversion_loses_data_witness :
  exists series1,
    ConvertStringToFloat ParseFloat64 2 [] (mkSeries [] ["1"; "2"] "string")
      = Ok (series1, None) /\
    ConvertStringToFloat ParseFloat64 2 [(0%nat, false)] series1
      = Ok (mkSeries [] [] "string", None).
Proof.
  destruct (repeated_conversion_loses_data ParseFloat64 (fun _ _ _ _ => "-")
              2 [] [(0%nat, false)] (mkSeries [] ["1"; "2"] "string"))
    as [H _]; [lia|].
  apply H; [discriminate|].
  intros s Hs. simpl in Hs.
  repeat (destruct Hs as [<-|Hs]; [eexists; reflexivity|]). contradiction.
Defined.

(** ** The rewriting worker pool *)

Section RewriteFacts.
Variable A : Type.
Variable rewrite : A -> A.
Variable orig : list A.
Variable P : Z.
Hypothesis HP : 1 <= P.

#[local] Abbreviation lo := (lo orig P).
#[local] Abbreviation hi := (hi orig P).
#[local] Abbreviation progress := (progress orig P).
#[local] Abbreviation rewriteInv := (rewriteInv rewrite orig P).

Lemma setCrew_same w g (st : rewriteState A) :
  (w < List.length (crew st))%nat -> nth_error (crew (setCrew w g st)) w = Some g.
Proof.
  intros Hw. unfold setCrew.
  destruct (set_nth_Some (crew st) w g Hw) as [c Hc]. rewrite Hc. simpl.
  eapply set_nth_same; eassumption.
Qed.

Lemma setCrew_other w w' g (st : rewriteState A) :
  w' <> w -> nth_error (crew (setCrew w g st)) w' = nth_error (crew st) w'.
Proof.
  intros Hne. unfold setCrew.
  destruct (set_nth (crew st) w g) eqn:Hc; [|reflexivity]. simpl.
  eapply set_nth_other; eassumption.
Qed.

Lemma setCrew_fields w g (st : rewriteState A) :
  cells (setCrew w g st) = cells st /\
  crashed (setCrew w g st) = crashed st /\
  List.length (crew (setCrew w g st)) = List.length (crew st).
Proof.
  unfold setCrew. destruct (set_nth (crew st) w g) eqn:Hc; simpl.
  - repeat split. eapply set_nth_length; eassumption.
  - repeat split.
Qed.

Lemma rewriteStep_inv w (st : rewriteState A) :
  rewriteInv st -> rewriteInv (rewriteStep rewrite w st).
Proof.
  intros Hinv. unfold rewriteStep.
  destruct (nth_error (crew st) w) as [[j e|]|] eqn:Hg; try assumption.
  pose proof (nth_error_lt _ _ _ Hg) as Hlt.
  destruct (rw_range st Hinv _ _ _ Hg) as (He & Hlo & Hje).
  destruct (lo_hi_bounds _ orig P HP w) as [Hlo0 Hhi].
  destruct (Z.ltb_spec j e) as [Hjlt|Hjge].
  - destruct (index_Some orig j) as [x Hx]; [lia|].
    pose proof (rw_cells st Hinv w _ j x Hg ltac:(lia) Hx) as Hcell.
    simpl in Hcell. rewrite Z.ltb_irrefl in Hcell. rewrite Hcell.
    destruct (setIndex_Some (cells st) j (rewrite x)) as [c Hc];
      [rewrite (rw_len st Hinv); lia|].
    rewrite Hc.
    set (st1 := mkRewrite c (crew st) (crashed st)).
    destruct (setCrew_fields w (Running (j + 1) e) st1) as (Ec & Ea & El).
    destruct Hinv as [Ha Hp Hl Hr Hcs].
    constructor; rewrite ?Ec, ?Ea, ?El; simpl; try assumption.
    + now rewrite (setIndex_len _ _ _ _ Hc).
    + intros w' j' e' Hg'. destruct (Nat.eq_dec w' w) as [->|Hne].
      * rewrite setCrew_same in Hg' by assumption.
        inversion Hg'; subst. split; [reflexivity|]. lia.
      * rewrite setCrew_other in Hg' by assumption. apply (Hr w' j' e' Hg').
    + intros w' g k y Hg' Hk Hy.
      destruct (Z.eq_dec k j) as [->|Hkj].
      * assert (w' = w) by (eapply chunks_disjoint; [exact HP| |]; eassumption || lia).
        subst w'. rewrite setCrew_same in Hg' by assumption.
        inversion Hg'; subst g. simpl.
        rewrite (setIndex_same _ _ _ _ Hc).
        destruct (Z.ltb_spec j (j + 1)); [|lia]. congruence.
      * rewrite (setIndex_other _ _ _ _ _ Hc Hkj).
        destruct (Nat.eq_dec w' w) as [->|Hne].
        -- rewrite setCrew_same in Hg' by assumption.
           inversion Hg'; subst g. simpl.
           rewrite (Hcs w (Running j e) k y Hg Hk Hy). simpl.
           destruct (Z.ltb_spec k j), (Z.ltb_spec k (j + 1)); try reflexivity; lia.
        -- rewrite setCrew_other in Hg' by assumption.
           apply (Hcs w' g k y Hg' Hk Hy).
  - destruct (setCrew_fields w Done st) as (Ec & Ea & El).
    destruct Hinv as [Ha Hp Hl Hr Hcs].
    constructor; rewrite ?Ec, ?Ea, ?El; try assumption.
    + intros w' j' e' Hg'. destruct (Nat.eq_dec w' w) as [->|Hne].
      * rewrite setCrew_same in Hg' by assumption. discriminate.
      * rewrite setCrew_other in Hg' by assumption. eauto.
    + intros w' g k y Hg' Hk Hy. destruct (Nat.eq_dec w' w) as [->|Hne].
      * rewrite setCrew_same in Hg' by assumption.
        inversion Hg'; subst g. simpl.
        rewrite (Hcs w (Running j e) k y Hg Hk Hy). simpl.
        destruct (Z.ltb_spec k j), (Z.ltb_spec k (hi w));
          try reflexivity; lia.
      * rewrite setCrew_other in Hg' by assumption. eauto.
Qed.

Lemma startRewrite_inv : rewriteInv (startRewrite orig (len orig) P).
Proof.
  unfold startRewrite. constructor; simpl.
  - reflexivity.
  - rewrite length_map, length_zrange. f_equal. lia.
  - reflexivity.
  - intros w j e Hg.
    pose proof (nth_error_lt _ _ _ Hg) as Hlt.
    rewrite length_map, length_zrange in Hlt.
    rewrite nth_error_map_zrange in Hg by lia.
    inversion Hg; subst.
    split; [reflexivity|]. split; [apply Z.le_refl|right; reflexivity].
  - intros w g k x Hg Hk Hx.
    pose proof (nth_error_lt _ _ _ Hg) as Hlt.
    rewrite length_map, length_zrange in Hlt.
    rewrite nth_error_map_zrange in Hg by lia.
    inversion Hg; subst g. rewrite Hx. f_equal.
    match goal with
    | |- _ = (if ?b then _ else _) => replace b with false; [reflexivity|]
    end.
    symmetry. apply Z.ltb_ge. exact (proj1 Hk).
Qed.

Lemma runRewrite_inv sched (st : rewriteState A) :
  rewriteInv st -> rewriteInv (runRewrite rewrite sched st).
Proof.
  revert st. induction sched as [|w sched IH]; intros st Hinv; [assumption|].
  simpl. apply IH. now apply rewriteStep_inv.
Qed.

Lemma rewriteStep_other w w' (st : rewriteState A) :
  w' <> w ->
  nth_error (crew (rewriteStep rewrite w st)) w' = nth_error (crew st) w'.
Proof.
  intros Hne. unfold rewriteStep.
  destruct (nth_error (crew st) w) as [[j e|]|]; try reflexivity.
  destruct (j <? e); [|now apply setCrew_other].
  destruct (index (cells st) j) as [x|]; [|reflexivity].
  destruct (setIndex (cells st) j (rewrite x)); [|reflexivity].
  now rewrite setCrew_other.
Qed.

Lemma rewriteStep_Done w w' (st : rewriteState A) :
  nth_error (crew st) w' = Some Done ->
  nth_error (crew (rewriteStep rewrite w st)) w' = Some Done.
Proof.
  intros Hd. destruct (Nat.eq_dec w' w) as [->|Hne].
  - unfold rewriteStep. now rewrite Hd.
  - now rewrite rewriteStep_other.
Qed.

Lemma rewriteStep_progress w g (st : rewriteState A) :
  rewriteInv st -> nth_error (crew st) w = Some g ->
  exists g', nth_error (crew (rewriteStep rewrite w st)) w = Some g' /\
             (remaining g' <= Nat.pred (remaining g))%nat.
Proof.
  intros Hinv Hg. pose proof (nth_error_lt _ _ _ Hg) as Hlt.
  unfold rewriteStep. rewrite Hg. destruct g as [j e|].
  2: { exists Done. split; [assumption|simpl; lia]. }
  destruct (rw_range st Hinv _ _ _ Hg) as (He & Hlo & Hje).
  destruct (lo_hi_bounds _ orig P HP w) as [Hlo0 Hhi].
  destruct (Z.ltb_spec j e) as [Hjlt|Hjge].
  2: { exists Done. rewrite setCrew_same by assumption.
       split; [reflexivity|simpl; lia]. }
  destruct (index_Some (cells st) j) as [x Hx];
    [rewrite (rw_len st Hinv); lia|].
  rewrite Hx.
  destruct (setIndex_Some (cells st) j (rewrite x)) as [c Hc];
    [rewrite (rw_len st Hinv); lia|].
  rewrite Hc. exists (Running (j + 1) e).
  rewrite setCrew_same by assumption.
  split; [reflexivity|simpl; lia].
Qed.

Lemma iter_rewriteStep_inv w n (st : rewriteState A) :
  rewriteInv st -> rewriteInv (Nat.iter n (rewriteStep rewrite w) st).
Proof. intros Hinv. induction n; simpl; [assumption|now apply rewriteStep_inv]. Qed.

Lemma iter_rewriteStep_Done w w' n (st : rewriteState A) :
  nth_error (crew st) w' = Some Done ->
  nth_error (crew (Nat.iter n (rewriteStep rewrite w) st)) w' = Some Done.
Proof. intros Hd. induction n; simpl; [assumption|now apply rewriteStep_Done]. Qed.

Lemma iter_rewriteStep_finishes w n g (st : rewriteState A) :
  rewriteInv st -> nth_error (crew st) w = Some g -> (remaining g <= n)%nat ->
  nth_error (crew (Nat.iter n (rewriteStep rewrite w) st)) w = Some Done.
Proof.
  revert g st. induction n as [|n IH]; intros g st Hinv Hg Hn.
  - simpl. destruct g; simpl in Hn; [lia|assumption].
  - rewrite Nat.iter_succ_r.
    destruct (rewriteStep_progress w g st Hinv Hg) as (g' & Hg' & Hr).
    apply (IH g'); [now apply rewriteStep_inv|assumption|lia].
Qed.

Lemma rewrite_remaining_bound w g (st : rewriteState A) :
  rewriteInv st -> nth_error (crew st) w = Some g ->
  (remaining g <= S (List.length (cells st)))%nat.
Proof.
  intros Hinv Hg. destruct g as [j e|]; simpl; [|lia].
  destruct (rw_range st Hinv _ _ _ Hg) as (He & Hlo & Hje).
  destruct (lo_hi_bounds _ orig P HP w) as [Hlo0 Hhi].
  pose proof (rw_len st Hinv) as Hl. unfold len in Hhi, Hl. lia.
Qed.

Lemma rewrite_drain ws (st : rewriteState A) :
  rewriteInv st ->
  let st' := fold_left
               (fun st w => Nat.iter (S (List.length (cells st)))
                              (rewriteStep rewrite w) st) ws st in
  rewriteInv st' /\
  forall w, (w < Z.to_nat P)%nat ->
    In w ws \/ nth_error (crew st) w = Some Done ->
    nth_error (crew st') w = Some Done.
Proof.
  revert st. induction ws as [|w0 ws IH]; intros st Hinv; simpl.
  - split; [assumption|]. intros w _ [[]|Hd]. assumption.
  - set (st1 := Nat.iter (S (List.length (cells st))) (rewriteStep rewrite w0) st).
    assert (Hinv1 : rewriteInv st1) by now apply iter_rewriteStep_inv.
    destruct (IH st1 Hinv1) as [Hinv' Hdone]. split; [assumption|].
    intros w Hw Hcase. apply Hdone; [assumption|].
    destruct (Nat.eq_dec w w0) as [->|Hne].
    + right. destruct (nth_error (crew st) w0) as [g|] eqn:Hg.
      * apply (iter_rewriteStep_finishes w0 _ g st Hinv Hg).
        exact (rewrite_remaining_bound w0 g st Hinv Hg).
      * apply nth_error_None in Hg. rewrite (rw_crew st Hinv) in Hg. lia.
    + destruct Hcase as [[Heq|Hin]|Hd]; [congruence|now left|].
      right. now apply iter_rewriteStep_Done.
Qed.

Lemma nth_error_pointwise_map {X Y} (f : X -> Y) (l : list X) (out : list Y) :
  List.length out = List.length l ->
  (forall n x, nth_error l n = Some x -> nth_error out n = Some (f x)) ->
  out = map f l.
Proof.
  revert out. induction l as [|x l IH]; intros out Hlen Hpt.
  - destruct out; [reflexivity|discriminate].
  - destruct out as [|y out]; [discriminate|]. simpl. f_equal.
    + specialize (Hpt 0%nat x eq_refl). simpl in Hpt. congruence.
    + apply IH; [simpl in Hlen; lia|]. intros n z Hz. apply (Hpt (S n) z Hz).
Qed.

(** After the join every cell holds the rewritten element, whatever the
    schedule. *)
Lemma rewritePool_result sched :
  let st := rewritePool rewrite orig (len orig) P sched in
  crashed st = false /\ cells st = map rewrite orig.
Proof.
  unfold rewritePool, joinAll.
  set (st0 := runRewrite rewrite sched (startRewrite orig (len orig) P)).
  assert (Hinv0 : rewriteInv st0) by apply runRewrite_inv, startRewrite_inv.
  destruct (rewrite_drain (seq 0 (List.length (crew st0))) st0 Hinv0)
    as [Hinv Hdone].
  split; [apply (rw_alive _ Hinv)|].
  apply nth_error_pointwise_map.
  - pose proof (rw_len _ Hinv) as Hl. unfold len in Hl. lia.
  - intros n x Hx.
    assert (Hk : 0 <= Z.of_nat n < len orig).
    { pose proof (nth_error_lt _ _ _ Hx). unfold len. lia. }
    destruct (chunks_cover _ orig P HP _ Hk) as (w & Hw & Hkw).
    assert (Hd : nth_error (crew (fold_left
                   (fun st w => Nat.iter (S (List.length (cells st)))
                                  (rewriteStep rewrite w) st)
                   (seq 0 (List.length (crew st0))) st0)) w = Some Done).
    { apply Hdone; [assumption|]. left. apply in_seq.
      rewrite (rw_crew _ Hinv0). lia. }
    assert (Hxi : index orig (Z.of_nat n) = Some x).
    { unfold index. destruct (Z.ltb_spec (Z.of_nat n) 0); [lia|].
      now rewrite Nat2Z.id. }
    pose proof (rw_cells _ Hinv w Done (Z.of_nat n) x Hd Hkw Hxi) as Hc.
    simpl in Hc. destruct (Z.ltb_spec (Z.of_nat n) (hi w)); [|lia].
    unfold index in Hc. destruct (Z.ltb_spec (Z.of_nat n) 0); [lia|].
    now rewrite Nat2Z.id in Hc.
Qed.
End RewriteFacts.

(** ** Replace and ReplaceWholeWord *)

Lemma GetLength_not_float series :
  DataType series <> "float" -> GetLength series = len (String series).
Proof.
  intros H. unfold GetLength. apply String.eqb_neq in H. now rewrite H.
Qed.

Lemma len_zero_nil {X} (l : list X) : len l = 0 -> l = [].
Proof. unfold len. destruct l; [reflexivity|simpl; lia]. Qed.

(** X12: Replace, for every number of CPUs and every interleaving of the
    goroutines: on a Series not tagged "float" every element of String is
    replaced by strings.ReplaceAll(element, old, new), in place and in
    order; Float and the tag are untouched and the length is unchanged.  A
    Series tagged "float" is returned as it is. *)
Theorem Replace_rewrites_every_element
    (ReplaceAll : string -> string -> string -> string)
    (numCPU : Z) (sched : list nat) (old new : string) (series : Series) :
  1 <= numCPU ->
  (DataType series <> "float" ->
   Replace ReplaceAll numCPU sched old new series
   = Ok (mkSeries (Float series)
           (map (fun s => ReplaceAll s old new) (String series))
           (DataType series))) /\
  (DataType series = "float" ->
   Replace ReplaceAll numCPU sched old new series = Ok series).
Proof.
  intros HP. split; intros Ht; unfold Replace.
  - rewrite (GetLength_not_float _ Ht).
    apply String.eqb_neq in Ht. rewrite Ht. simpl.
    destruct (Z.eqb_spec (len (String series)) 0) as [Hz|Hz].
    + rewrite (len_zero_nil _ Hz). destruct series as [fl st dt].
      simpl in *. now rewrite (len_zero_nil _ Hz).
    + destruct (rewritePool_result _ (fun s => ReplaceAll s old new)
                  (String series) numCPU HP sched) as [Hc Hr].
      now rewrite Hc, Hr.
  - now rewrite Ht.
Qed.

Lemma Replace_rewrites_every_element_witness :
  Replace (fun s old new => if (s =? old)%string then new else s)
    3 [2%nat; 0%nat; 2%nat] "b" "B" (mkSeries [] ["a"; "b"; "c"; "b"] "string")
  = Ok (mkSeries [] ["a"; "B"; "c"; "B"] "string").
Proof.
  apply (proj1 (Replace_rewrites_every_element
                  (fun s old new => if (s =? old)%string then new else s)
                  3 [2%nat; 0%nat; 2%nat] "b" "B"
                  (mkSeries [] ["a"; "b"; "c"; "b"] "string") ltac:(lia))).
  discriminate.
Defined.

(** X13: ReplaceWholeWord, for every number of CPUs and every interleaving: on a
    non-empty Series not tagged "float" the expression compiled once from
    \b, QuoteMeta(old), \b is applied to every element through
    ReplaceAllString(element, new); Float and the tag are untouched.  If
    compiling panics, nothing has been rewritten. *)
Theorem ReplaceWholeWord_rewrites_every_element
    (QuoteMeta : string -> string) (Regexp : Type)
    (MustCompile : string -> option Regexp)
    (ReplaceAllString : Regexp -> string -> string -> string)
    (numCPU : Z) (sched : list nat) (old new : string) (series : Series) :
  1 <= numCPU -> DataType series <> "float" -> String series <> [] ->
  (forall re, MustCompile ("\b" ++ QuoteMeta old ++ "\b")%string = Some re ->
     ReplaceWholeWord QuoteMeta Regexp MustCompile ReplaceAllString numCPU
       sched old new series
     = Ok (mkSeries (Float series)
             (map (fun s => ReplaceAllString re s new) (String series))
             (DataType series))) /\
  (MustCompile ("\b" ++ QuoteMeta old ++ "\b")%string = None ->
     ReplaceWholeWord QuoteMeta Regexp MustCompile ReplaceAllString numCPU
       sched old new series
     = Panic "regexp: Compile").
Proof.
  intros HP Ht Hne. unfold ReplaceWholeWord.
  rewrite (GetLength_not_float _ Ht).
  apply String.eqb_neq in Ht. rewrite Ht. cbn [orb].
  destruct (Z.eqb_spec (len (String series)) 0) as [Hz|Hz];
    [elim Hne; now apply len_zero_nil|].
  split.
  - intros re Hre. rewrite Hre.
    destruct (rewritePool_result _ (fun s => ReplaceAllString re s new)
                (String series) numCPU HP sched) as [Hc Hr].
    now rewrite Hc, Hr.
  - intros Hnone. now rewrite Hnone.
Qed.

Lemma ReplaceWholeWord_rewrites_every_element_witness :
  ReplaceWholeWord (fun s => s) string (fun p => Some p)
    (fun re s new => if (re =? "\b" ++ s ++ "\b")%string then new else s)
    2 [1%nat; 1%nat; 0%nat] "cat" "dog" (mkSeries [] ["cat"; "cats"; "cat"] "string")
  = Ok (mkSeries [] ["dog"; "cats"; "dog"] "string").
Proof.
  apply (proj1 (ReplaceWholeWord_rewrites_every_element (fun s => s) string
                  (fun p => Some p)
                  (fun re s new => if (re =? "\b" ++ s ++ "\b")%string then new else s)
                  2 [1%nat; 1%nat; 0%nat] "cat" "dog"
                  (mkSeries [] ["cat"; "cats"; "cat"] "string")
                  ltac:(lia) ltac:(discriminate) ltac:(discriminate))
               ("\bcat\b")).
  reflexivity.
Defined.

Lemma map_fixed {X} (f : X -> X) l : (forall x, In x l -> f x = x) -> map f l = l.
Proof.
  induction l as [|x l IH]; intros H; [reflexivity|].
  simpl. rewrite (H x (or_introl eq_refl)). f_equal.
  apply IH. intros y Hy. apply H. now right.
Qed.

(** X14: when the text rewriting changes nothing: both functions return a Series
    tagged "float" or of length 0 at their guard (ReplaceWholeWord before
    it compiles anything), and Replace leaves the Series exactly as it was
    when no element is changed by strings.ReplaceAll, as does
    ReplaceWholeWord when no element is changed by the compiled expression. *)
Theorem text_rewriting_is_a_noop
    (ReplaceAll : string -> string -> string -> string)
    (QuoteMeta : string -> string) (Regexp : Type)
    (MustCompile : string -> option Regexp)
    (ReplaceAllString : Regexp -> string -> string -> string)
    (numCPU : Z) (sched : list nat) (old new : string) (series : Series) :
  1 <= numCPU ->
  (DataType series = "float" \/ GetLength series = 0 ->
   Replace ReplaceAll numCPU sched old new series = Ok series /\
   ReplaceWholeWord QuoteMeta Regexp MustCompile ReplaceAllString numCPU
     sched old new series = Ok series) /\
  ((forall s, In s (String series) -> ReplaceAll s old new = s) ->
   Replace ReplaceAll numCPU sched old new series = Ok series) /\
  (forall re,
     MustCompile ("\b" ++ QuoteMeta old ++ "\b")%string = Some re ->
     (forall s, In s (String series) -> ReplaceAllString re s new = s) ->
     ReplaceWholeWord QuoteMeta Regexp MustCompile ReplaceAllString numCPU
       sched old new series = Ok series).
Proof.
  intros HP. split; [|split].
  - intros Hg. unfold Replace, ReplaceWholeWord.
    destruct Hg as [Hf|Hz].
    + rewrite Hf. simpl. now split.
    + rewrite Hz. rewrite Bool.orb_true_r. now split.
  - intros Hfix. unfold Replace.
    destruct (String.eqb_spec (DataType series) "float") as [Ht|Ht];
      [reflexivity|].
    rewrite (GetLength_not_float _ Ht). cbn [orb].
    destruct (Z.eqb_spec (len (String series)) 0) as [Hz|Hz]; [reflexivity|].
    destruct (rewritePool_result _ (fun s => ReplaceAll s old new)
                (String series) numCPU HP sched) as [Hc Hr].
    rewrite Hc, Hr, (map_fixed _ _ Hfix). now destruct series.
  - intros re Hre Hfix. unfold ReplaceWholeWord.
    destruct (String.eqb_spec (DataType series) "float") as [Ht|Ht];
      [reflexivity|].
    rewrite (GetLength_not_float _ Ht). cbn [orb].
    destruct (Z.eqb_spec (len (String series)) 0) as [Hz|Hz]; [reflexivity|].
    rewrite Hre.
    destruct (rewritePool_result _ (fun s => ReplaceAllString re s new)
                (String series) numCPU HP sched) as [Hc Hr].
    rewrite Hc, Hr, (map_fixed _ _ Hfix). now destruct series.
Qed.

Lemma text_rewriting_is_a_noop_witness :
  Replace (fun s old new => if (s =? old)%string then new else s)
    2 [1%nat] "z" "Z" (mkSeries [] ["a"; "b"; "c"] "string")
  = Ok (mkSeries [] ["a"; "b"; "c"] "string").
Proof.
  apply (proj1 (proj2 (text_rewriting_is_a_noop
                  (fun s old new => if (s =? old)%string then new else s)
                  (fun s => s) string (fun p => Some p) (fun _ s _ => s)
                  2 [1%nat] "z" "Z" (mkSeries [] ["a"; "b"; "c"] "string")
                  ltac:(lia)))).
  intros s Hs. simpl in Hs.
  repeat (destruct Hs as [<-|Hs]; [reflexivity|]). contradiction.
Defined.

(** ** arrayMin and arrayMax in binary64 *)

(** *** The order of binary64, from its specification *)

Ltac sf_signs :=
  repeat match goal with
  | s : bool |- _ => destruct s
  end;
  simpl in *; try discriminate; try reflexivity; try congruence.

Ltac sf_compare :=
  repeat match goal with
  | H : context [Z.compare ?a ?b] |- _ =>
      destruct (Z.compare_spec a b); simpl in H
  | |- context [Z.compare ?a ?b] => destruct (Z.compare_spec a b); simpl
  | H : context [Pos.compare_cont Eq ?a ?b] |- _ =>
      change (Pos.compare_cont Eq a b) with (Pos.compare a b) in H
  | |- context [Pos.compare_cont Eq ?a ?b] =>
      change (Pos.compare_cont Eq a b) with (Pos.compare a b)
  | H : context [Pos.compare ?a ?b] |- _ =>
      destruct (Pos.compare_spec a b); simpl in H
  | |- context [Pos.compare ?a ?b] => destruct (Pos.compare_spec a b); simpl
  end; subst; try discriminate; try reflexivity; try congruence; try lia.

Lemma SFltb_lt_le a b c :
  SFltb a c = true -> SFltb b c = false -> SFeqb b b = true -> SFltb a b = true.
Proof.
  unfold SFltb, SFeqb, SFcompare.
  destruct a as [sa|sa| |sa ma ea], b as [sb|sb| |sb mb eb],
           c as [sc|sc| |sc mc ec];
    sf_signs; intros; sf_compare.
Qed.

Lemma SFltb_le_lt a b c :
  SFltb c a = true -> SFltb c b = false -> SFeqb b b = true -> SFltb b a = true.
Proof.
  unfold SFltb, SFeqb, SFcompare.
  destruct a as [sa|sa| |sa ma ea], b as [sb|sb| |sb mb eb],
           c as [sc|sc| |sc mc ec];
    sf_signs; intros; sf_compare.
Qed.

Lemma SFltb_trans a b c :
  SFltb a b = true -> SFltb b c = true -> SFltb a c = true.
Proof.
  unfold SFltb, SFcompare.
  destruct a as [sa|sa| |sa ma ea], b as [sb|sb| |sb mb eb],
           c as [sc|sc| |sc mc ec];
    sf_signs; intros; sf_compare.
Qed.

Lemma SFltb_irrefl a : SFltb a a = false.
Proof.
  unfold SFltb, SFcompare. destruct a as [sa|sa| |sa ma ea]; sf_signs; sf_compare.
Qed.

Lemma SFltb_not_nan a b :
  SFltb a b = true -> SFeqb a a = true /\ SFeqb b b = true.
Proof.
  unfold SFltb, SFeqb, SFcompare.
  destruct a as [sa|sa| |sa ma ea], b as [sb|sb| |sb mb eb];
    sf_signs; intros; split; sf_compare.
Qed.

(** *** Selecting by a strict order *)

Section SelectReduce.
Context {F : Type} {ops : Float64 F}.
Variable before : F -> F -> bool.
(** [ok x]: [x] is comparable (not a NaN). *)
Variable ok : F -> bool.
Hypothesis before_irrefl : forall x, before x x = false.
Hypothesis before_trans :
  forall x y z, before x y = true -> before y z = true -> before x z = true.
Hypothesis before_mix :
  forall a b c, before a c = true -> before b c = false -> ok b = true ->
                before a b = true.
Hypothesis before_ok : forall a b, before a b = true -> ok a = true.

Lemma select_fold (l : list F) (r0 : F) :
  ok r0 = true ->
  let r := fold_left (fun result info => if before info result then info else result)
                     l r0 in
  (forall x, In x l -> before x r = false) /\
  before r0 r = false /\ (r = r0 \/ In r l) /\ ok r = true.
Proof.
  revert r0. induction l as [|x l IH]; intros r0 Hok; simpl.
  - repeat split; auto. contradiction.
  - destruct (before x r0) eqn:Hx.
    + destruct (IH x (before_ok _ _ Hx)) as (Ha & Hb & Hc & Hd).
      repeat split; try assumption.
      * intros y [<-|Hy]; [assumption|now apply Ha].
      * destruct (before r0 _) eqn:Hr; [|reflexivity].
        (* x before r0 and r0 before r would put x before r *)
        rewrite (before_trans _ _ _ Hx Hr) in Hb. discriminate.
      * destruct Hc as [->|Hc]; [right; now left|right; now right].
    + destruct (IH r0 Hok) as (Ha & Hb & Hc & Hd).
      repeat split; try assumption.
      * intros y [<-|Hy]; [|now apply Ha].
        match goal with
        | |- before x ?r = false => destruct (before x r) eqn:Hy; [|reflexivity]
        end.
        (* x before r while r0 is not: then x before r0 *)
        rewrite (before_mix _ _ _ Hy Hb Hok) in Hx. discriminate.
      * destruct Hc as [->|Hc]; [now left|right; now right].
Qed.

Lemma selectReduce_selects (initial : F) (data : list F) (P : Z) (order : list Z) :
  1 <= P -> deliveryOrder (len data) P order -> data <> [] ->
  ok initial = true ->
  let m := selectReduce before initial P order data in
  (forall x, In x data -> before x m = false) /\
  before initial m = false /\
  (m = initial \/ In m data) /\
  ok m = true.
Proof.
  intros HP Hord Hne Hok. unfold selectReduce, arrayFloatBase.
  pose proof (delivered_chunks_Permutation data P HP order Hord) as Hperm.
  set (elems := fun i => chunkElems data (convertChunk (len data) P i)) in *.
  set (part := fun i => fold_left
                 (fun result info => if before info result then info else result)
                 (elems i) initial).
  assert (Hpart : forall i,
            (forall x, In x (elems i) -> before x (part i) = false) /\
            before initial (part i) = false /\
            (part i = initial \/ In (part i) (elems i)) /\ ok (part i) = true).
  { intros i. apply select_fold. assumption. }
  destruct order as [|i0 order].
  { simpl in Hperm. apply Permutation_nil in Hperm. congruence. }
  cbn [map].
  destruct (select_fold (map part order) (part i0)) as (Ha & Hb & Hc & Hd);
    [apply Hpart|].
  set (m := fold_left _ (map part order) (part i0)) in *.
  assert (Hm : exists j, In j (i0 :: order) /\ m = part j).
  { destruct Hc as [->|Hc]; [exists i0; split; [now left|reflexivity]|].
    apply in_map_iff in Hc. destruct Hc as (j & <- & Hj).
    exists j. split; [now right|reflexivity]. }
  assert (Hall : forall j, In j (i0 :: order) -> before (part j) m = false).
  { intros j [<-|Hj]; [assumption|]. apply Ha. now apply in_map. }
  assert (Hgoal : (forall x, In x data -> before x m = false) /\
                  before initial m = false /\ (m = initial \/ In m data) /\
                  ok m = true);
    [|exact Hgoal].
  split; [|split; [|split; [|exact Hd]]].
  - intros x Hx. apply (Permutation_in _ (Permutation_sym Hperm)) in Hx.
    apply in_concat in Hx. destruct Hx as (l & Hl & Hxl).
    apply in_map_iff in Hl. destruct Hl as (j & <- & Hj).
    destruct (before x m) eqn:Hxm; [|reflexivity].
    destruct (Hpart j) as (Hj1 & _ & _ & Hj4).
    specialize (Hj1 x Hxl).
    rewrite (before_mix _ _ _ Hxm (Hall j Hj) Hj4) in Hj1. discriminate.
  - destruct Hm as (j & _ & ->). apply Hpart.
  - destruct Hm as (j & Hj & ->).
    destruct (Hpart j) as (_ & _ & [Hi|Hi] & _); [now left|right].
    apply (Permutation_in _ Hperm). apply in_concat.
    exists (elems j). split; [|assumption]. now apply in_map.
Qed.
End SelectReduce.

(** *** binary64 *)

Lemma ltb_trans (x y z : float) :
  PrimFloat.ltb x y = true -> PrimFloat.ltb y z = true -> PrimFloat.ltb x z = true.
Proof. rewrite !ltb_spec. apply SFltb_trans. Qed.

Lemma ltb_irrefl (x : float) : PrimFloat.ltb x x = false.
Proof. rewrite ltb_spec. apply SFltb_irrefl. Qed.

Lemma ltb_lt_le (a b c : float) :
  PrimFloat.ltb a c = true -> PrimFloat.ltb b c = false ->
  PrimFloat.eqb b b = true -> PrimFloat.ltb a b = true.
Proof. rewrite !ltb_spec, eqb_spec. apply SFltb_lt_le. Qed.

Lemma ltb_le_lt (a b c : float) :
  PrimFloat.ltb c a = true -> PrimFloat.ltb c b = false ->
  PrimFloat.eqb b b = true -> PrimFloat.ltb b a = true.
Proof. rewrite !ltb_spec, eqb_spec. apply SFltb_le_lt. Qed.

Lemma ltb_not_nan (a b : float) :
  PrimFloat.ltb a b = true ->
  PrimFloat.eqb a a = true /\ PrimFloat.eqb b b = true.
Proof. rewrite ltb_spec, !eqb_spec. apply SFltb_not_nan. Qed.

(** ** Worker ranges *)

(** X20: the range every worker pool hands to worker i (both ways the source
    computes it agree).  As long as length + numGoroutines - 1 fits in
    Go's 64-bit int, so do the products formed before clamping.  The start
    i*chunkSize is not negative and is not clamped: it lies beyond the
    slice exactly for the trailing workers with i*chunkSize > length, whose
    range is then empty (end = length < start), as is the range of a worker
    that starts at length.  The end is clamped to at most length.  Every
    index the loop visits is a valid position, no worker gets more than
    chunkSize elements, and a worker whose unclamped end is within the
    slice gets exactly chunkSize. *)
Theorem worker_range_is_safe (L P i : Z) :
  0 <= L -> 1 <= P -> 0 <= i < P -> L + P - 1 < 2 ^ 63 ->
  let start := fst (filterChunk L P i) in
  let end_ := snd (filterChunk L P i) in
  filterChunk L P i = convertChunk L P i /\
  0 <= i * chunkSize L P < 2 ^ 63 /\
  0 <= (i + 1) * chunkSize L P < 2 ^ 63 /\
  start = i * chunkSize L P /\
  end_ = Z.min ((i + 1) * chunkSize L P) L /\
  (start <= L -> start <= end_) /\
  (L < start -> end_ = L) /\
  (L <= start -> chunkIndexes (filterChunk L P i) = []) /\
  (forall j, In j (chunkIndexes (filterChunk L P i)) <-> start <= j < end_) /\
  (forall j, In j (chunkIndexes (filterChunk L P i)) -> 0 <= j < L) /\
  len (chunkIndexes (filterChunk L P i)) <= chunkSize L P /\
  ((i + 1) * chunkSize L P <= L ->
   len (chunkIndexes (filterChunk L P i)) = chunkSize L P).
Proof.
  intros HL HP Hi Hm start end_.
  destruct (chunkSize_bounds L P HL HP) as [H0 [H1 H2]].
  subst start end_. rewrite filterChunk_eq. cbn [fst snd].
  split; [symmetry; rewrite convertChunk_filterChunk; apply filterChunk_eq|].
  split; [nia|]. split; [nia|].
  split; [reflexivity|]. split; [reflexivity|].
  split; [nia|]. split; [nia|].
  unfold chunkIndexes, len. cbn [fst snd]. rewrite length_zrange.
  split; [intros Hs; apply zrange_nil; nia|].
  split; [intros j; apply in_zrange|].
  split; [intros j Hj; apply in_zrange in Hj; nia|].
  split; [nia|]. intros Hle. nia.
Qed.

Lemma worker_range_is_safe_witness :
  filterChunk 5 4 3 = (6, 5) /\
  chunkIndexes (filterChunk 5 4 3) = [] /\
  filterChunk 10 4 3 = (9, 10) /\
  len (chunkIndexes (filterChunk 10 4 3)) <= chunkSize 10 4.
Proof.
  destruct (worker_range_is_safe 5 4 3) as (_ & _ & _ & _ & _ & _ & _ & Hnil & _);
    try lia.
  destruct (worker_range_is_safe 10 4 3)
    as (_ & _ & _ & _ & _ & _ & _ & _ & _ & _ & Hlen & _); try lia.
  split; [reflexivity|]. split; [apply Hnil; vm_compute; discriminate|].
  split; [reflexivity|exact Hlen].
Defined.

(** ** Percentile: when it returns *)

(** X21: arrayCalculatePercentile returns exactly when int((p/100)*N) is a
    position of the slice; otherwise it panics.  In particular it panics on
    the empty slice for every p. *)
Theorem percentile_returns_iff (F : Type) (ops : Float64 F)
    (nums : list F) (p : F) :
  ((exists v, arrayCalculatePercentile nums p = Ok v) <->
   (exists lower,
      toInt (fmul (fdiv p (ofInt 100)) (ofInt (len nums))) = Some lower /\
      0 <= lower < len nums)) /\
  (nums = [] -> exists msg, arrayCalculatePercentile nums p = Panic msg).
Proof.
  assert (Hiff : (exists v, arrayCalculatePercentile nums p = Ok v) <->
   (exists lower,
      toInt (fmul (fdiv p (ofInt 100)) (ofInt (len nums))) = Some lower /\
      0 <= lower < len nums)).
  { unfold arrayCalculatePercentile, at_.
    destruct (toInt _) as [lower|].
    - destruct (Z.geb_spec (lower + 1) (len nums)) as [Hup|Hup].
      + destruct (index nums lower) as [x|] eqn:Hx.
        * split; [intros _|eauto]. exists lower. split; [reflexivity|].
          eapply index_Some_lt; eassumption.
        * split; [intros [v Hv]; discriminate|].
          intros (l & Hl & Hb). inversion Hl; subst l.
          destruct (index_Some nums lower Hb) as [x Hx']. congruence.
      + destruct (index nums lower) as [x|] eqn:Hx.
        * destruct (index_Some nums (lower + 1)) as [y Hy].
          { pose proof (index_Some_lt _ _ _ Hx). lia. }
          rewrite Hy. split; [intros _|eauto]. exists lower.
          split; [reflexivity|]. eapply index_Some_lt; eassumption.
        * split; [intros [v Hv]; discriminate|].
          intros (l & Hl & Hb). inversion Hl; subst l.
          destruct (index_Some nums lower Hb) as [x Hx']. congruence.
    - split; [intros [v Hv]; discriminate|intros (l & Hl & _); discriminate]. }
  split; [exact Hiff|].
  intros ->. destruct (arrayCalculatePercentile [] p) as [v|msg] eqn:Hr; [|eauto].
  exfalso. destruct (proj1 Hiff (ex_intro _ v eq_refl)) as (l & _ & Hb).
  unfold len in Hb. simpl in Hb. lia.
Qed.

(** ** Cleaning, then converting *)

(** X22: keeping only the strings that parse makes the conversion succeed:
    after FilterStringSeries with the predicate "ParseFloat accepts it",
    ConvertStringToFloat prints no error and installs as many floats as
    there were parsable strings, for every completion order of the filter
    and every schedule of the conversion. *)
Theorem filter_parsable_then_convert
    (ParseFloat : string -> Z -> float + NumError)
    (numCPU : Z) (order : list Z) (sched : schedule) (series : Series) :
  1 <= numCPU -> Permutation order (zrange 0 numCPU) ->
  DataType series = "string" ->
  let parses := fun s => match ParseFloat s 64 with inl _ => true | inr _ => false end in
  exists idxs filtered converted,
    FilterStringSeries numCPU order parses series = Ok (idxs, filtered) /\
    ConvertStringToFloat ParseFloat numCPU sched filtered = Ok (converted, None) /\
    len (Float converted) = len (filter parses (String series)) /\
    String converted = [].
Proof.
  intros HP Hperm Hs parses.
  destruct (FilterStringSeries_general numCPU order parses series Hs HP Hperm)
    as (idxs & kept & Hr & _ & _ & _ & Hk & _).
  assert (Hall : forall s, In s kept -> exists v, ParseFloat s 64 = inl v).
  { intros s Hin. apply (Permutation_in _ Hk), filter_In in Hin.
    destruct Hin as [_ Hp]. unfold parses in Hp.
    destruct (ParseFloat s 64) as [v|]; [eauto|discriminate]. }
  destruct (ConvertStringToFloat_success ParseFloat numCPU sched
              (mkSeries (Float series) kept (DataType series)) HP)
    as (floats & Hc & Hf2).
  { simpl. rewrite Hs. discriminate. }
  { exact Hall. }
  exists idxs, (mkSeries (Float series) kept (DataType series)).
  eexists. split; [exact Hr|]. split; [exact Hc|]. simpl.
  split; [|reflexivity].
  unfold len. f_equal. simpl in Hf2.
  rewrite <- (Forall2_length Hf2). now apply Permutation_length.
Qed.

Lemma filter_parsable_then_convert_witness :
  exists idxs filtered converted,
    FilterStringSeries 2 [1; 0]
      (fun s => match ParseFloat64 s 64 with inl _ => true | inr _ => false end)
      (mkSeries [] ["1"; "x"; "2.5"; "y"] "string") = Ok (idxs, filtered) /\
    ConvertStringToFloat ParseFloat64 2 [(1%nat, false)] filtered
      = Ok (converted, None) /\
    len (Float converted) = 2.
Proof.
  destruct (filter_parsable_then_convert ParseFloat64 2 [1; 0] [(1%nat, false)]
              (mkSeries [] ["1"; "x"; "2.5"; "y"] "string"))
    as (idxs & filtered & converted & Hf & Hc & Hl & _).
  - lia.
  - vm_compute. constructor.
  - reflexivity.
  - exists idxs, filtered, converted. split; [exact Hf|]. split; [exact Hc|].
    exact Hl.
Defined.

Lemma percentile_returns_iff_witness :
  exists msg, arrayCalculatePercentile ([] : list float) 50%float = Panic msg.
Proof.
  apply (proj2 (percentile_returns_iff float float64 [] 50%float)).
  reflexivity.
Defined.

(** * binary64 on integers: exact arithmetic below 2^53 *)

Lemma digits2_pos_bounds (p : positive) :
  2 ^ (Z.pos (digits2_pos p) - 1) <= Z.pos p < 2 ^ Z.pos (digits2_pos p).
Proof.
  induction p as [p IH|p IH|]; cbn [digits2_pos].
  - rewrite Pos2Z.inj_succ.
    replace (Z.succ (Z.pos (digits2_pos p)) - 1) with (Z.succ (Z.pos (digits2_pos p) - 1)) by lia.
    rewrite !Z.pow_succ_r by lia. lia.
  - rewrite Pos2Z.inj_succ.
    replace (Z.succ (Z.pos (digits2_pos p)) - 1) with (Z.succ (Z.pos (digits2_pos p) - 1)) by lia.
    rewrite !Z.pow_succ_r by lia. lia.
  - simpl. lia.
Qed.

Lemma digits2_pos_unique (p : positive) (k : Z) :
  2 ^ (k - 1) <= Z.pos p < 2 ^ k -> Z.pos (digits2_pos p) = k.
Proof.
  intros [Hlo Hhi]. pose proof (digits2_pos_bounds p) as [Dlo Dhi].
  set (d := Z.pos (digits2_pos p)) in *.
  assert (Hd : 1 <= d) by (subst d; lia).
  assert (Hk : 1 <= k).
  { destruct (Z.le_gt_cases 1 k); [assumption|].
    assert (2 ^ k <= 2 ^ 0) by (destruct (Z.le_gt_cases 0 k);
      [apply Z.pow_le_mono_r; lia|rewrite Z.pow_neg_r by lia; simpl; lia]).
    simpl in *. lia. }
  destruct (Z.lt_trichotomy d k) as [H|[H|H]]; [|assumption|].
  - assert (2 ^ d <= 2 ^ (k - 1)) by (apply Z.pow_le_mono_r; lia). lia.
  - assert (2 ^ k <= 2 ^ (d - 1)) by (apply Z.pow_le_mono_r; lia). lia.
Qed.

Lemma iter_xO_Z (m d : positive) :
  Z.pos (Pos.iter xO m d) = Z.pos m * 2 ^ Z.pos d.
Proof.
  induction d as [|d IH] using Pos.peano_ind.
  - simpl. lia.
  - rewrite Pos.iter_succ, Pos2Z.inj_succ, Z.pow_succ_r by lia.
    rewrite Pos2Z.inj_xO, IH. lia.
Qed.

Lemma iter_pos_iter {A} (f : A -> A) (n : positive) (x : A) :
  iter_pos f n x = Pos.iter f x n.
Proof.
  revert x. induction n as [n IH|n IH|]; intros x; simpl.
  - rewrite !IH. now rewrite <- !Pos.iter_swap.
  - now rewrite !IH.
  - reflexivity.
Qed.

Lemma shr_exact (m k : positive) :
  iter_pos shr_1 k (Build_shr_record (Z.pos (Pos.iter xO m k)) false false)
  = Build_shr_record (Z.pos m) false false.
Proof.
  rewrite iter_pos_iter.
  induction k as [|k IH] using Pos.peano_ind.
  - reflexivity.
  - rewrite !Pos.iter_succ, <- Pos.iter_swap.
    exact IH.
Qed.

Lemma digits2_pos_shift (m0 M : positive) (k : Z) :
  0 <= k -> Z.pos M = Z.pos m0 * 2 ^ k ->
  Z.pos (digits2_pos M) = Z.pos (digits2_pos m0) + k.
Proof.
  intros Hk HM. apply digits2_pos_unique.
  pose proof (digits2_pos_bounds m0) as [Hlo Hhi].
  replace (Z.pos (digits2_pos m0) + k - 1) with (Z.pos (digits2_pos m0) - 1 + k) by lia.
  rewrite !Z.pow_add_r by lia. rewrite HM.
  assert (0 < 2 ^ k) by (apply Z.pow_pos_nonneg; lia). nia.
Qed.

Lemma fexp_normal (e : Z) : -1074 <= e -> fexp prec emax (53 + e) = e.
Proof. intros H. unfold fexp, emin, prec, emax. lia. Qed.

Lemma round_aux_exact (s : bool) (M m0 : positive) (ex k : Z) :
  0 <= k -> Z.pos M = Z.pos m0 * 2 ^ k ->
  Z.pos (digits2_pos m0) = 53 -> -1074 <= ex + k <= 971 ->
  binary_round_aux prec emax s (Z.pos M) ex loc_Exact = S754_finite s m0 (ex + k).
Proof.
  intros Hk HM Hd He.
  pose proof (digits2_pos_shift m0 M k Hk HM) as HdM. rewrite Hd in HdM.
  unfold binary_round_aux, shr_fexp. cbn [Zdigits2 shr_record_of_loc].
  replace (Z.pos (digits2_pos M) + ex) with (53 + (ex + k)) by lia.
  rewrite fexp_normal by lia.
  replace (ex + k - ex) with k by lia.
  assert (Hfirst : shr (Build_shr_record (Z.pos M) false false) ex k
                   = (Build_shr_record (Z.pos m0) false false, ex + k)).
  { destruct k as [|p|p]; [| |lia].
    - simpl in HM. replace (ex + 0) with ex by lia. simpl.
      do 2 f_equal. lia.
    - simpl shr. rewrite <- iter_xO_Z in HM. injection HM as ->.
      now rewrite shr_exact. }
  rewrite Hfirst. cbn [shr_m loc_of_shr_record round_nearest_even Zdigits2
                         shr_record_of_loc].
  rewrite Hd, fexp_normal by lia.
  replace (ex + k - (ex + k)) with 0 by lia. cbn [shr shr_m].
  replace (ex + k <=? emax - prec) with true; [reflexivity|].
  symmetry. apply Z.leb_le. unfold emax, prec. lia.
Qed.

Lemma cman_spec (v : positive) :
  Z.pos v < 2 ^ 53 ->
  -52 <= cexp v <= 0 /\
  Z.pos (cman v) = Z.pos v * 2 ^ (- cexp v) /\
  Z.pos (digits2_pos (cman v)) = 53.
Proof.
  intros Hv. pose proof (digits2_pos_bounds v) as [Hlo Hhi].
  assert (Hd : Z.pos (digits2_pos v) <= 53).
  { destruct (Z.le_gt_cases (Z.pos (digits2_pos v)) 53); [assumption|].
    assert (2 ^ 53 <= 2 ^ (Z.pos (digits2_pos v) - 1))
      by (apply Z.pow_le_mono_r; lia). lia. }
  assert (Hc : -52 <= cexp v <= 0) by (unfold cexp; lia).
  assert (Hpos : 0 < Z.pos v * 2 ^ (- cexp v)).
  { apply Z.mul_pos_pos; [lia|apply Z.pow_pos_nonneg; lia]. }
  assert (Hm : Z.pos (cman v) = Z.pos v * 2 ^ (- cexp v)).
  { unfold cman. now rewrite Z2Pos.id. }
  split; [assumption|]. split; [assumption|].
  rewrite (digits2_pos_shift v (cman v) (- cexp v)) by (lia || assumption).
  unfold cexp. lia.
Qed.

(** Rounding a dyadic number that is an integer below 2^53. *)
Lemma binary_round_exact (s : bool) (M v : positive) (ex : Z) :
  Z.pos v < 2 ^ 53 -> -1074 <= ex <= 0 -> Z.pos M = Z.pos v * 2 ^ (- ex) ->
  binary_round prec emax s M ex = S754_finite s (cman v) (cexp v).
Proof.
  intros Hv Hex HM. destruct (cman_spec v Hv) as (Hc & Hm & Hd).
  assert (HdM : Z.pos (digits2_pos M) = Z.pos (digits2_pos v) - ex).
  { rewrite (digits2_pos_shift v M (- ex)) by (lia || assumption). lia. }
  unfold binary_round.
  replace (Z.pos (digits2_pos M) + ex) with (53 + cexp v) by (unfold cexp; lia).
  rewrite fexp_normal by lia.
  unfold shl_align.
  assert (Haux : forall M' ex' k, 0 <= k -> Z.pos M' = Z.pos (cman v) * 2 ^ k ->
            ex' + k = cexp v ->
            binary_round_aux prec emax s (Z.pos M') ex' loc_Exact
            = S754_finite s (cman v) (cexp v)).
  { intros M' ex' k Hk HM' He. rewrite <- He.
    apply round_aux_exact; try assumption. lia. }
  destruct (cexp v - ex) as [|p|p] eqn:Hdiff.
  - apply (Haux M ex 0); try lia.
    rewrite Hm, HM. simpl (2 ^ 0). replace ex with (cexp v) by lia. lia.
  - apply (Haux M ex (Z.pos p)); try lia.
    rewrite HM. replace (- ex) with (- cexp v + Z.pos p) by lia.
    rewrite Z.pow_add_r by lia. rewrite Hm. lia.
  - apply (Haux _ (cexp v) 0); try lia.
    rewrite iter_xO_Z, HM, Hm. simpl (2 ^ 0). rewrite Z.mul_1_r.
    replace (- cexp v) with (- ex + Z.pos p) by lia.
    rewrite Z.pow_add_r by lia. lia.
Qed.

Lemma binary_normalize_exact (M ex z : Z) :
  Z.abs z < 2 ^ 53 -> -1074 <= ex <= 0 -> M = z * 2 ^ (- ex) ->
  binary_normalize prec emax M ex false = SFint z.
Proof.
  intros Hz Hex HM.
  assert (Hp : 0 < 2 ^ (- ex)) by (apply Z.pow_pos_nonneg; lia).
  destruct z as [|v|v].
  - subst M. reflexivity.
  - destruct M as [|m|m]; try nia.
    simpl. apply binary_round_exact; try lia.
  - destruct M as [|m|m]; try nia.
    simpl. apply binary_round_exact; try lia.
Qed.

Lemma SFint_finite (a : Z) :
  a <> 0 -> Z.abs a < 2 ^ 53 ->
  exists m e, SFint a = S754_finite (a <? 0) m e /\
              -52 <= e <= 0 /\ Z.pos m = Z.abs a * 2 ^ (- e) /\
              Z.pos (digits2_pos m) = 53 /\
              Z.pos (digits2_pos m) + e = Z.log2 (Z.abs a) + 1.
Proof.
  intros Ha Hb. destruct a as [|v|v]; [congruence| |];
    destruct (cman_spec v Hb) as (Hc & Hm & Hd);
    exists (cman v), (cexp v); (split; [reflexivity|]);
    (split; [assumption|]); (split; [exact Hm|]); (split; [exact Hd|]);
    rewrite Hd; unfold cexp; cbn [Z.abs];
    pose proof (digits2_pos_bounds v);
    pose proof (Z.log2_spec (Z.pos v) ltac:(lia));
    assert (Z.log2 (Z.pos v) + 1 = Z.pos (digits2_pos v));
    try lia;
    symmetry; apply digits2_pos_unique;
    replace (Z.log2 (Z.pos v) + 1 - 1) with (Z.log2 (Z.pos v)) by lia;
    replace (Z.log2 (Z.pos v) + 1) with (Z.succ (Z.log2 (Z.pos v))) by lia;
    assumption.
Qed.

Lemma Prim2SF_Z2float (z : Z) :
  Z.abs z < 2 ^ 53 -> Prim2SF (Z2float z) = SFint z.
Proof.
  intros Hz. unfold Z2float.
  assert (Hof : forall n, 0 <= n < 2 ^ 53 ->
            Prim2SF (of_uint63 (Uint63.of_Z n)) = SFint n).
  { intros n Hn. rewrite FloatAxioms.of_uint63_spec.
    change (Uint63Axioms.to_Z (Uint63.of_Z n)) with (Uint63.to_Z (Uint63.of_Z n)).
    rewrite Uint63.of_Z_spec, Z.mod_small.
    - apply binary_normalize_exact; [lia|lia|simpl; lia].
    - change Uint63.wB with (2 ^ 63). split; [lia|].
      assert (2 ^ 53 < 2 ^ 63) by (apply Z.pow_lt_mono_r; lia). lia. }
  destruct (Z.ltb_spec z 0).
  - rewrite FloatAxioms.opp_spec, Hof by lia. destruct z; try lia. reflexivity.
  - apply Hof. lia.
Qed.

Lemma shl_align_value (m : positive) (e ez : Z) :
  ez <= e -> Z.pos (fst (shl_align m e ez)) = Z.pos m * 2 ^ (e - ez).
Proof.
  intros H. unfold shl_align.
  destruct (ez - e) as [|p|p] eqn:Hd; [| lia |].
  - replace (e - ez) with 0 by lia. simpl. lia.
  - cbn [fst]. rewrite iter_xO_Z. f_equal. f_equal. lia.
Qed.

Lemma cond_Zopp_abs (a : Z) : cond_Zopp (a <? 0) (Z.abs a) = a.
Proof. unfold cond_Zopp. destruct (Z.ltb_spec a 0); lia. Qed.

Lemma cond_Zopp_mul b x y : cond_Zopp b (x * y) = cond_Zopp b x * y.
Proof. destruct b; simpl; lia. Qed.

Lemma aligned_value (a : Z) (m : positive) (e ez : Z) :
  Z.pos m = Z.abs a * 2 ^ (- e) -> ez <= e -> e <= 0 ->
  cond_Zopp (a <? 0) (Z.pos (fst (shl_align m e ez))) = a * 2 ^ (- ez).
Proof.
  intros Hm H1 H2. rewrite shl_align_value, Hm by assumption.
  rewrite <- Z.mul_assoc, <- Z.pow_add_r by lia.
  replace (- e + (e - ez)) with (- ez) by lia.
  now rewrite cond_Zopp_mul, cond_Zopp_abs.
Qed.

Lemma SFadd_exact (a b : Z) :
  Z.abs a < 2 ^ 53 -> Z.abs b < 2 ^ 53 -> Z.abs (a + b) < 2 ^ 53 ->
  SF64add (SFint a) (SFint b) = SFint (a + b).
Proof.
  intros Ha Hb Hab.
  destruct (Z.eq_dec a 0) as [->|Na].
  { destruct b; reflexivity. }
  destruct (Z.eq_dec b 0) as [->|Nb].
  { rewrite Z.add_0_r. destruct a; reflexivity. }
  destruct (SFint_finite a Na Ha) as (ma & ea & -> & Hea & Hma & _).
  destruct (SFint_finite b Nb Hb) as (mb & eb & -> & Heb & Hmb & _).
  unfold SF64add, SFadd.
  apply binary_normalize_exact; [assumption|lia|].
  rewrite (aligned_value a), (aligned_value b) by (assumption || lia). lia.
Qed.


Lemma log2_mul_lower (a b : Z) :
  0 < a -> 0 < b -> Z.log2 a + Z.log2 b <= Z.log2 (a * b).
Proof.
  intros Ha Hb.
  pose proof (Z.log2_spec a Ha) as [La _]. pose proof (Z.log2_spec b Hb) as [Lb _].
  apply Z.log2_le_pow2; [nia|].
  rewrite Z.pow_add_r by apply Z.log2_nonneg.
  pose proof (Z.log2_nonneg a). pose proof (Z.log2_nonneg b).
  assert (0 < 2 ^ Z.log2 a) by (apply Z.pow_pos_nonneg; lia).
  assert (0 < 2 ^ Z.log2 b) by (apply Z.pow_pos_nonneg; lia).
  nia.
Qed.

Lemma log2_mul_upper (a b : Z) :
  0 < a -> 0 < b -> Z.log2 (a * b) <= Z.log2 a + Z.log2 b + 1.
Proof.
  intros Ha Hb.
  pose proof (Z.log2_spec a Ha) as [_ La]. pose proof (Z.log2_spec b Hb) as [_ Lb].
  pose proof (Z.log2_nonneg a). pose proof (Z.log2_nonneg b).
  assert (Z.log2 (a * b) < Z.log2 a + Z.log2 b + 2); [|lia].
  apply Z.log2_lt_pow2; [nia|].
  replace (Z.log2 a + Z.log2 b + 2) with (Z.succ (Z.log2 a) + Z.succ (Z.log2 b)) by lia.
  rewrite Z.pow_add_r by lia. nia.
Qed.

Lemma xorb_sign (a b : Z) :
  a <> 0 -> b <> 0 -> xorb (a <? 0) (b <? 0) = (a * b <? 0).
Proof.
  intros Ha Hb.
  destruct (Z.ltb_spec a 0), (Z.ltb_spec b 0), (Z.ltb_spec (a * b) 0);
    simpl; try reflexivity; nia.
Qed.

Lemma SFint_sign (s : bool) (z : Z) (v : positive) :
  z <> 0 -> Z.abs z = Z.pos v -> s = (z <? 0) ->
  S754_finite s (cman v) (cexp v) = SFint z.
Proof.
  intros Hz Hv ->. destruct z as [|p|p]; [congruence| |];
    simpl in Hv; injection Hv as ->; reflexivity.
Qed.

Lemma SFmul_exact (a b : Z) :
  a <> 0 -> b <> 0 -> Z.abs (a * b) < 2 ^ 53 ->
  SF64mul (SFint a) (SFint b) = SFint (a * b).
Proof.
  intros Na Nb Hab.
  assert (Ha : Z.abs a < 2 ^ 53) by nia.
  assert (Hb : Z.abs b < 2 ^ 53) by nia.
  destruct (SFint_finite a Na Ha) as (ma & ea & -> & Hea & Hma & Hda & Hla).
  destruct (SFint_finite b Nb Hb) as (mb & eb & -> & Heb & Hmb & Hdb & Hlb).
  unfold SF64mul, SFmul.
  destruct (Z.abs (a * b)) as [|v|v] eqn:Hv; [lia| |lia].
  destruct (cman_spec v Hab) as (Hc & Hm & Hd).
  rewrite <- (SFint_sign (xorb (a <? 0) (b <? 0)) (a * b) v);
    [|nia|assumption|now apply xorb_sign].
  assert (Hlog : Z.pos (digits2_pos v) = Z.log2 (Z.abs a * Z.abs b) + 1).
  { apply digits2_pos_unique. rewrite <- Hv, Z.abs_mul.
    replace (Z.log2 (Z.abs a * Z.abs b) + 1 - 1)
      with (Z.log2 (Z.abs a * Z.abs b)) by lia.
    replace (Z.log2 (Z.abs a * Z.abs b) + 1)
      with (Z.succ (Z.log2 (Z.abs a * Z.abs b))) by lia.
    apply Z.log2_spec. nia. }
  pose proof (log2_mul_lower (Z.abs a) (Z.abs b) ltac:(lia) ltac:(lia)) as Hlow.
  set (k := cexp v - (ea + eb)).
  assert (Hk : 0 <= k) by (unfold k, cexp; lia).
  replace (cexp v) with (ea + eb + k) by (unfold k; lia).
  apply round_aux_exact; try assumption.
  - rewrite Pos2Z.inj_mul, Hma, Hmb, Hm.
    rewrite <- Hv, Z.abs_mul.
    replace (Z.abs a * 2 ^ (- ea) * (Z.abs b * 2 ^ (- eb)))
      with (Z.abs a * Z.abs b * (2 ^ (- ea) * 2 ^ (- eb))) by lia.
    rewrite <- (Z.mul_assoc (Z.abs a * Z.abs b)). f_equal.
    rewrite <- !Z.pow_add_r by lia. f_equal. unfold k. lia.
  - unfold k. lia.
Qed.

Lemma new_location_0 (n : Z) : new_location n 0 = loc_Exact.
Proof.
  unfold new_location, new_location_even, new_location_odd.
  destruct (Z.even n); reflexivity.
Qed.

Lemma SFdiv_exact (q b : Z) :
  0 < b < 2 ^ 53 -> Z.abs (q * b) < 2 ^ 53 ->
  SF64div (SFint (q * b)) (SFint b) = SFint q.
Proof.
  intros Hb0 Hab.
  assert (Nb : b <> 0) by lia.
  assert (Hb : Z.abs b < 2 ^ 53) by lia.
  destruct (SFint_finite b Nb Hb) as (mb & eb & -> & Heb & Hmb & Hdb & Hlb).
  destruct (Z.eq_dec q 0) as [->|Nq].
  { simpl. destruct (Z.ltb_spec b 0); [lia|reflexivity]. }
  assert (Na : q * b <> 0) by nia.
  assert (Hq : Z.abs q < 2 ^ 53) by nia.
  destruct (SFint_finite (q * b) Na Hab) as (ma & ea & -> & Hea & Hma & Hda & Hla).
  unfold SF64div, SFdiv, SFdiv_core_binary. cbn [Zdigits2].
  rewrite Hda, Hdb.
  replace (53 + ea - (53 + eb)) with (53 + (ea - eb - 53)) by lia.
  rewrite fexp_normal by lia.
  replace (Z.min (ea - eb - 53) (ea - eb)) with (ea - eb - 53) by lia.
  replace (ea - eb - (ea - eb - 53)) with 53 by lia.
  rewrite Z.shiftl_mul_pow2 by lia.
  assert (Hquot : Z.pos ma * 2 ^ 53 = (Z.abs q * 2 ^ (53 + eb - ea)) * Z.pos mb).
  { rewrite Hma, Hmb, Z.abs_mul.
    replace (Z.abs q * Z.abs b * 2 ^ (- ea) * 2 ^ 53)
      with (Z.abs q * Z.abs b * (2 ^ (- ea) * 2 ^ 53)) by lia.
    replace (Z.abs q * 2 ^ (53 + eb - ea) * (Z.abs b * 2 ^ (- eb)))
      with (Z.abs q * Z.abs b * (2 ^ (53 + eb - ea) * 2 ^ (- eb))) by lia.
    f_equal. rewrite <- !Z.pow_add_r by lia. f_equal. lia. }
  rewrite Hquot.
  assert (Hqpos : 0 < Z.abs q * 2 ^ (53 + eb - ea)).
  { apply Z.mul_pos_pos; [lia|apply Z.pow_pos_nonneg; lia]. }
  assert (Hde : Z.div_eucl (Z.abs q * 2 ^ (53 + eb - ea) * Z.pos mb) (Z.pos mb)
                = (Z.abs q * 2 ^ (53 + eb - ea), 0)).
  { pose proof (Z.div_mul (Z.abs q * 2 ^ (53 + eb - ea)) (Z.pos mb) ltac:(lia)) as Hdv.
    pose proof (Z.mod_mul (Z.abs q * 2 ^ (53 + eb - ea)) (Z.pos mb) ltac:(lia)) as Hmd.
    unfold Z.div, Z.modulo in Hdv, Hmd.
    destruct (Z.div_eucl _ _) as [x y]. simpl in *. congruence. }
  rewrite Hde, new_location_0.
  destruct (Z.abs q) as [|v|v] eqn:Hv; [lia| |lia].
  destruct (cman_spec v Hq) as (Hc & Hm & Hd).
  rewrite <- (SFint_sign (xorb (q * b <? 0) (b <? 0)) q v);
    [|assumption|assumption|].
  2: { destruct (Z.ltb_spec (q * b) 0), (Z.ltb_spec b 0), (Z.ltb_spec q 0);
       simpl; try reflexivity; nia. }
  destruct (Z.pos v * 2 ^ (53 + eb - ea)) as [|M|M] eqn:HM; try lia.
  pose proof (log2_mul_upper (Z.abs q) (Z.abs b) ltac:(lia) ltac:(lia)) as Hup.
  rewrite <- Z.abs_mul in Hup.
  assert (Hlq : Z.pos (digits2_pos v) = Z.log2 (Z.abs q) + 1).
  { apply digits2_pos_unique. rewrite <- Hv.
    replace (Z.log2 (Z.abs q) + 1 - 1) with (Z.log2 (Z.abs q)) by lia.
    replace (Z.log2 (Z.abs q) + 1) with (Z.succ (Z.log2 (Z.abs q))) by lia.
    apply Z.log2_spec. lia. }
  set (k := cexp v - (ea - eb - 53)).
  assert (Hk : 0 <= k) by (unfold k, cexp; lia).
  replace (cexp v) with (ea - eb - 53 + k) by (unfold k; lia).
  apply round_aux_exact; try assumption.
  - rewrite Hm, <- HM, <- Z.mul_assoc, <- Z.pow_add_r by lia.
    f_equal. f_equal. unfold k. lia.
  - unfold k. lia.
Qed.

Lemma float2Z_Z2float (n : Z) :
  Z.abs n < 2 ^ 53 -> float2Z (Z2float n) = Some n.
Proof.
  intros Hn. unfold float2Z. rewrite Prim2SF_Z2float by assumption.
  destruct (Z.eq_dec n 0) as [->|Nn]; [reflexivity|].
  destruct (SFint_finite n Nn Hn) as (m & e & -> & He & Hm & _).
  assert (Hp : 0 < 2 ^ (- e)) by (apply Z.pow_pos_nonneg; lia).
  assert (Hv : (if 0 <=? e then Z.pos m * 2 ^ e else Z.pos m / 2 ^ (- e)) = Z.abs n).
  { destruct (Z.leb_spec 0 e).
    - replace e with 0 in * by lia. simpl in *. lia.
    - rewrite Hm. apply Z.div_mul. lia. }
  rewrite Hv.
  assert (H63 : 2 ^ 53 < 2 ^ 63) by (apply Z.pow_lt_mono_r; lia).
  destruct (Z.ltb_spec n 0).
  - replace (- Z.abs n) with n by lia.
    destruct (Z.leb_spec (- 2 ^ 63) n); [|lia].
    destruct (Z.ltb_spec n (2 ^ 63)); [reflexivity|lia].
  - replace (Z.abs n) with n by lia.
    destruct (Z.leb_spec (- 2 ^ 63) n); [|lia].
    destruct (Z.ltb_spec n (2 ^ 63)); [reflexivity|lia].
Qed.

(** binary64 arithmetic on integers below 2^53 *)
Lemma Z2float_add (a b : Z) :
  Z.abs a < 2 ^ 53 -> Z.abs b < 2 ^ 53 -> Z.abs (a + b) < 2 ^ 53 ->
  PrimFloat.add (Z2float a) (Z2float b) = Z2float (a + b).
Proof.
  intros Ha Hb Hab. apply Prim2SF_inj.
  rewrite FloatAxioms.add_spec, !Prim2SF_Z2float by assumption. now apply SFadd_exact.
Qed.


Lemma Z2float_mul (a b : Z) :
  a <> 0 -> b <> 0 -> Z.abs (a * b) < 2 ^ 53 ->
  PrimFloat.mul (Z2float a) (Z2float b) = Z2float (a * b).
Proof.
  intros Na Nb Hab. apply Prim2SF_inj.
  rewrite FloatAxioms.mul_spec, !Prim2SF_Z2float by nia. now apply SFmul_exact.
Qed.


Lemma Z2float_div (q b : Z) :
  0 < b < 2 ^ 53 -> Z.abs (q * b) < 2 ^ 53 ->
  PrimFloat.div (Z2float (q * b)) (Z2float b) = Z2float q.
Proof.
  intros Hb Hab. assert (Z.abs q < 2 ^ 53) by nia. apply Prim2SF_inj.
  rewrite FloatAxioms.div_spec, !Prim2SF_Z2float by lia. now apply SFdiv_exact.
Qed.

(** * The parallel reducer as a pairwise combination *)

Section GroupingFacts.
Context {F : Type}.
Variable op : F -> F -> F.
Variable start : F.

Lemma fold_left_grouping (h : F -> F) (l : list F) (t0 : grouping F) :
  exists t,
    fold_left (fun result info => op result (h info)) l (combined op start t0)
    = combined op start t /\
    elements t = elements t0 ++ map h l.
Proof.
  revert t0. induction l as [|x l IH]; intros t0.
  - exists t0. split; [reflexivity|]. now rewrite app_nil_r.
  - destruct (IH (Join t0 (Elem (h x)))) as (t & Ht & He).
    exists t. split; [exact Ht|].
    rewrite He. cbn [elements map]. now rewrite <- app_assoc.
Qed.

Lemma fold_left_groupings (parts : list F) (ts : list (grouping F)) (t0 : grouping F) :
  Forall2 (fun p t => p = combined op start t) parts ts ->
  exists t,
    fold_left (fun result val => op result val) parts (combined op start t0)
    = combined op start t /\
    elements t = elements t0 ++ concat (map elements ts).
Proof.
  intros H. revert t0. induction H as [|p t parts ts Hp _ IH]; intros t0.
  - exists t0. split; [reflexivity|]. simpl. now rewrite app_nil_r.
  - destruct (IH (Join t0 t)) as (t' & Ht & He).
    exists t'. split; [simpl; rewrite Hp; exact Ht|].
    rewrite He. cbn [elements map concat]. now rewrite <- app_assoc.
Qed.

(** The fan-out followed by the sequential combine is one pairwise
    combination of the values [h x], each taken once. *)
Lemma reduce_is_grouping (h : F -> F) (data : list F) (P : Z) (order : list Z) :
  1 <= P -> deliveryOrder (len data) P order ->
  exists t,
    fold_left (fun result val => op result val)
      (arrayFloatBase P order start data (fun info result => op result (h info)))
      start
    = combined op start t /\
    Permutation (elements t) (map h data).
Proof.
  intros HP Hord.
  set (elems := fun i => chunkElems data (convertChunk (len data) P i)).
  assert (Hparts : forall js, exists ts,
            Forall2 (fun p t => p = combined op start t)
              (arrayFloatBase P js start data (fun info result => op result (h info)))
              ts /\
            concat (map elements ts) = map h (concat (map elems js))).
  { induction js as [|j js (ts & Hts & Hel)].
    - exists []. split; [constructor|reflexivity].
    - destruct (fold_left_grouping h (elems j) Start) as (t & Ht & He).
      exists (t :: ts). split.
      + cbn [arrayFloatBase map]. constructor; [exact Ht|exact Hts].
      + cbn [map concat]. rewrite He, Hel, map_app. reflexivity. }
  destruct (Hparts order) as (ts & Hts & Hel).
  destruct (fold_left_groupings _ ts Start Hts) as (t & Ht & He).
  exists t. split; [exact Ht|].
  rewrite He, Hel. cbn [elements app].
  apply Permutation_map. now apply delivered_chunks_Permutation.
Qed.
End GroupingFacts.

(** * The reducer on integers, in binary64 *)

Lemma sumZ_app l1 l2 : sumZ (l1 ++ l2) = sumZ l1 + sumZ l2.
Proof. induction l1 as [|x l1 IH]; simpl; lia. Qed.

Lemma sumZ_Permutation l1 l2 : Permutation l1 l2 -> sumZ l1 = sumZ l2.
Proof. induction 1; simpl; lia. Qed.

Lemma sumZ_concat (ls : list (list Z)) : sumZ (concat ls) = sumZ (map sumZ ls).
Proof. induction ls as [|l ls IH]; simpl; [reflexivity|]. now rewrite sumZ_app, IH. Qed.

Lemma sumZ_abs l : Z.abs (sumZ l) <= sumZ (map Z.abs l).
Proof. induction l as [|x l IH]; simpl; lia. Qed.

Lemma sumZ_abs_nonneg l : 0 <= sumZ (map Z.abs l).
Proof. induction l as [|x l IH]; simpl; lia. Qed.


Lemma prodZ_app l1 l2 : prodZ (l1 ++ l2) = prodZ l1 * prodZ l2.
Proof.
  induction l1 as [|x l1 IH]; unfold prodZ in *; cbn [fold_right app]; [ring|].
  rewrite IH. ring.
Qed.

Lemma prodZ_Permutation l1 l2 : Permutation l1 l2 -> prodZ l1 = prodZ l2.
Proof.
  induction 1; unfold prodZ in *; cbn [fold_right]; try congruence; ring.
Qed.

Lemma prodZ_concat (ls : list (list Z)) : prodZ (concat ls) = prodZ (map prodZ ls).
Proof. induction ls as [|l ls IH]; simpl; [reflexivity|]. now rewrite prodZ_app, IH. Qed.

Lemma prodZ_nonzero l : (forall x, In x l -> x <> 0) -> prodZ l <> 0.
Proof.
  induction l as [|x l IH]; simpl; intros H; [lia|].
  specialize (H x (or_introl eq_refl)) as Hx.
  assert (prodZ l <> 0) by (apply IH; intros; apply H; now right). nia.
Qed.

(** A worker's fold over integers, in binary64, is the integer sum. *)
Lemma fold_integers (hf : float -> float) (hz : Z -> Z) lz a :
  (forall z, In z lz -> hf (Z2float z) = Z2float (hz z)) ->
  Z.abs a + sumZ (map Z.abs (map hz lz)) < 2 ^ 53 ->
  fold_left (fun result info => PrimFloat.add result (hf info))
            (map Z2float lz) (Z2float a)
  = Z2float (a + sumZ (map hz lz)).
Proof.
  revert a. induction lz as [|z lz IH]; intros a Hh Hb; simpl in *.
  - f_equal. lia.
  - pose proof (sumZ_abs_nonneg (map hz lz)).
    rewrite (Hh z (or_introl eq_refl)), Z2float_add by lia.
    rewrite IH; [f_equal; lia| |lia].
    intros y Hy. apply Hh. now right.
Qed.

Lemma chunk_partition_sum {X} (g : list X -> Z) (data : list X) (P : Z) (order : list Z) :
  (forall l1 l2, g (l1 ++ l2) = g l1 + g l2) -> g [] = 0 ->
  (forall l1 l2, Permutation l1 l2 -> g l1 = g l2) ->
  1 <= P -> deliveryOrder (len data) P order ->
  sumZ (map (fun i => g (chunkElems data (convertChunk (len data) P i))) order)
  = g data.
Proof.
  intros Happ Hnil Hperm HP Hord.
  rewrite <- (Hperm _ _ (delivered_chunks_Permutation data P HP order Hord)).
  clear Hord. induction order as [|i order IH]; cbn [map concat sumZ fold_right].
  - now rewrite Hnil.
  - rewrite Happ. f_equal. exact IH.
Qed.

(** The binary64 reducer over integers returns the exact sum, whatever the
    number of workers and the order of their results, as long as the sum
    of the absolute values stays below 2^53. *)
Lemma reduce_integers (hf : float -> float) (hz : Z -> Z)
    (dataZ : list Z) (P : Z) (order : list Z) :
  1 <= P -> deliveryOrder (len dataZ) P order ->
  (forall z, In z dataZ -> hf (Z2float z) = Z2float (hz z)) ->
  sumZ (map Z.abs (map hz dataZ)) < 2 ^ 53 ->
  fold_left (fun result val => PrimFloat.add result val)
    (arrayFloatBase P order (Z2float 0) (map Z2float dataZ)
       (fun info result => PrimFloat.add result (hf info)))
    (Z2float 0)
  = Z2float (sumZ (map hz dataZ)).
Proof.
  intros HP Hord Hh Hb. unfold arrayFloatBase. rewrite len_map.
  set (elems := fun i => chunkElems dataZ (convertChunk (len dataZ) P i)).
  set (zp := fun i => sumZ (map hz (elems i))).
  set (za := fun i => sumZ (map Z.abs (map hz (elems i)))).
  assert (Htotal : sumZ (map zp order) = sumZ (map hz dataZ)).
  { apply (chunk_partition_sum (fun l => sumZ (map hz l))); try assumption.
    - intros. now rewrite map_app, sumZ_app.
    - reflexivity.
    - intros. now apply sumZ_Permutation, Permutation_map. }
  assert (Habs : sumZ (map za order) = sumZ (map Z.abs (map hz dataZ))).
  { apply (chunk_partition_sum (fun l => sumZ (map Z.abs (map hz l)))); try assumption.
    - intros. now rewrite !map_app, sumZ_app.
    - reflexivity.
    - intros. now apply sumZ_Permutation, Permutation_map, Permutation_map. }
  assert (Hza : forall i, 0 <= za i) by (intros; apply sumZ_abs_nonneg).
  assert (Hzpa : forall i, Z.abs (zp i) <= za i) by (intros; apply sumZ_abs).
  assert (Hin : forall i, In i order -> za i <= sumZ (map za order)).
  { intros i Hi. clear - Hi Hza. induction order as [|j order IH]; [contradiction|].
    simpl. assert (0 <= sumZ (map za order)).
    { clear - Hza. induction order; simpl; [lia|]. specialize (Hza a). lia. }
    destruct Hi as [->|Hi]; [lia|]. specialize (IH Hi). specialize (Hza j). lia. }
  rewrite (map_ext_in _ (fun i => Z2float (zp i))).
  - rewrite <- (map_map zp Z2float).
    rewrite (fold_integers (fun v => v) (fun v => v) (map zp order) 0).
    + f_equal. rewrite map_id. simpl. exact Htotal.
    + reflexivity.
    + rewrite map_id. simpl.
      assert (sumZ (map Z.abs (map zp order)) <= sumZ (map za order)); [|lia].
      clear - Hzpa. induction order as [|j order IH]; simpl; [lia|].
      specialize (Hzpa j). lia.
  - intros i Hi. rewrite chunkElems_map.
    rewrite (fold_integers hf hz); [reflexivity| |].
    + intros z Hz. apply Hh. eapply In_chunkElems; eassumption.
    + fold (elems i). fold (za i). specialize (Hin i Hi). simpl. lia.
Qed.

(** The same for products of non-zero integers. *)
Lemma fold_integers_mul lz a :
  (forall z, In z lz -> z <> 0) -> a <> 0 ->
  Z.abs (a * prodZ lz) < 2 ^ 53 ->
  fold_left (fun result info => PrimFloat.mul result info)
            (map Z2float lz) (Z2float a)
  = Z2float (a * prodZ lz).
Proof.
  revert a. induction lz as [|z lz IH]; intros a Hnz Ha Hb; simpl in *.
  - f_equal. lia.
  - assert (Hz : z <> 0) by (apply Hnz; now left).
    assert (Hl : prodZ lz <> 0) by (apply prodZ_nonzero; intros; apply Hnz; now right).
    rewrite Z2float_mul; [|assumption|assumption|nia].
    rewrite IH; [f_equal; lia| |nia|].
    + intros y Hy. apply Hnz. now right.
    + replace (a * z * prodZ lz) with (a * (z * prodZ lz)) by lia. assumption.
Qed.

Lemma reduce_integers_mul (dataZ : list Z) (P : Z) (order : list Z) :
  1 <= P -> deliveryOrder (len dataZ) P order ->
  (forall z, In z dataZ -> z <> 0) ->
  Z.abs (prodZ dataZ) < 2 ^ 53 ->
  fold_left (fun result val => PrimFloat.mul result val)
    (arrayFloatBase P order (Z2float 1) (map Z2float dataZ)
       (fun info result => PrimFloat.mul result info))
    (Z2float 1)
  = Z2float (prodZ dataZ).
Proof.
  intros HP Hord Hnz Hb. unfold arrayFloatBase. rewrite len_map.
  set (elems := fun i => chunkElems dataZ (convertChunk (len dataZ) P i)).
  set (zp := fun i => prodZ (elems i)).
  assert (Htotal : prodZ (map zp order) = prodZ dataZ).
  { rewrite <- (prodZ_Permutation _ _
                  (delivered_chunks_Permutation dataZ P HP order Hord)).
    fold elems. rewrite prodZ_concat, map_map. reflexivity. }
  assert (Hnzp : forall i, zp i <> 0).
  { intros i. apply prodZ_nonzero. intros z Hz. apply Hnz.
    eapply In_chunkElems; eassumption. }
  assert (Hsub : forall i, In i order -> Z.abs (zp i) <= Z.abs (prodZ (map zp order))).
  { intros i Hi. clear - Hi Hnzp. induction order as [|j order IH]; [contradiction|].
    simpl. assert (prodZ (map zp order) <> 0).
    { apply prodZ_nonzero. intros x Hx. apply in_map_iff in Hx.
      destruct Hx as (k & <- & _). apply Hnzp. }
    destruct Hi as [->|Hi]; [nia|]. specialize (IH Hi). specialize (Hnzp j). nia. }
  rewrite (map_ext_in _ (fun i => Z2float (zp i))).
  - rewrite <- (map_map zp Z2float).
    rewrite (fold_integers_mul (map zp order) 1).
    + f_equal. rewrite Htotal. lia.
    + intros z Hz. apply in_map_iff in Hz. destruct Hz as (k & <- & _). apply Hnzp.
    + lia.
    + rewrite Htotal. now rewrite Z.mul_1_l.
  - intros i Hi. rewrite chunkElems_map.
    rewrite (fold_integers_mul); [f_equal; fold (elems i); fold (zp i); lia| | |].
    + intros z Hz. apply Hnz. eapply In_chunkElems; eassumption.
    + lia.
    + fold (elems i). fold (zp i). specialize (Hsub i Hi). rewrite Htotal in Hsub. lia.
Qed.


Lemma arraySum_integers (dataZ : list Z) (P : Z) (order : list Z) :
  1 <= P -> deliveryOrder (len dataZ) P order ->
  sumZ (map Z.abs dataZ) < 2 ^ 53 ->
  arraySum P order (map Z2float dataZ) = Z2float (sumZ dataZ).
Proof.
  intros HP Hord Hb.
  pose proof (reduce_integers (fun v => v) (fun v => v) dataZ P order HP Hord
                (fun z _ => eq_refl)) as H.
  rewrite !map_id in H. exact (H Hb).
Qed.

Lemma arrayMean_integers (dataZ : list Z) (P : Z) (order : list Z) :
  1 <= P -> deliveryOrder (len dataZ) P order ->
  sumZ (map Z.abs dataZ) < 2 ^ 53 ->
  arrayMean P order (map Z2float dataZ)
  = PrimFloat.div (Z2float (sumZ dataZ)) (Z2float (len dataZ)).
Proof.
  intros HP Hord Hb. unfold arrayMean. rewrite len_map.
  change (fold_left _ _ _) with (arraySum P order (map Z2float dataZ)).
  now rewrite arraySum_integers.
Qed.



Lemma arrayProduct_integers (dataZ : list Z) (P : Z) (order : list Z) :
  1 <= P -> deliveryOrder (len dataZ) P order ->
  (forall z, In z dataZ -> z <> 0) ->
  Z.abs (prodZ dataZ) < 2 ^ 53 ->
  arrayProduct P order (map Z2float dataZ) = Z2float (prodZ dataZ).
Proof. intros. now apply reduce_integers_mul. Qed.

Lemma len_pos {X} (l : list X) : l <> [] -> 0 < len l.
Proof. destruct l; [congruence|]. unfold len. simpl. lia. Qed.

(** the mean of integers whose sum is a multiple of the count *)
Lemma arrayMean_integers_exact (dataZ : list Z) (P : Z) (order : list Z) (mu : Z) :
  1 <= P -> deliveryOrder (len dataZ) P order ->
  dataZ <> [] -> len dataZ < 2 ^ 53 ->
  sumZ (map Z.abs dataZ) < 2 ^ 53 ->
  sumZ dataZ = mu * len dataZ ->
  arrayMean P order (map Z2float dataZ) = Z2float mu.
Proof.
  intros HP Hord Hne Hlen Hb Hmu.
  rewrite arrayMean_integers by assumption.
  pose proof (len_pos dataZ Hne). pose proof (sumZ_abs dataZ).
  rewrite Hmu. apply Z2float_div; [lia|]. rewrite <- Hmu. lia.
Qed.

Section GroupedReductions.
Context {F : Type} {ops : Float64 F}.

Lemma arraySum_grouping (data : list F) (P : Z) (order : list Z) :
  1 <= P -> deliveryOrder (len data) P order ->
  exists t, arraySum P order data = combined fadd (ofInt 0) t /\
            Permutation (elements t) data.
Proof.
  intros HP Hord.
  destruct (reduce_is_grouping fadd (ofInt 0) (fun x => x) data P order HP Hord)
    as (t & Ht & He).
  exists t. split; [exact Ht|]. now rewrite map_id in He.
Qed.


Lemma arrayProduct_grouping (data : list F) (P : Z) (order : list Z) :
  1 <= P -> deliveryOrder (len data) P order ->
  exists t, arrayProduct P order data = combined fmul (ofInt 1) t /\
            Permutation (elements t) data.
Proof.
  intros HP Hord.
  destruct (reduce_is_grouping fmul (ofInt 1) (fun x => x) data P order HP Hord)
    as (t & Ht & He).
  exists t. split; [exact Ht|]. now rewrite map_id in He.
Qed.

End GroupedReductions.

(** * The order of binary64, continued *)

Lemma SFleb_of_not_ltb a b :
  SFeqb a a = true -> SFeqb b b = true -> SFltb a b = false -> SFleb b a = true.
Proof.
  unfold SFltb, SFleb, SFeqb, SFcompare.
  destruct a as [sa|sa| |sa ma ea], b as [sb|sb| |sb mb eb];
    sf_signs; intros; sf_compare.
Qed.

Lemma SFleb_antisym a b :
  SFleb a b = true -> SFleb b a = true -> SFeqb a b = true.
Proof.
  unfold SFleb, SFeqb, SFcompare.
  destruct a as [sa|sa| |sa ma ea], b as [sb|sb| |sb mb eb];
    sf_signs; intros; sf_compare.
Qed.



Lemma SFleb_not_ltb a b : SFleb a b = true -> SFltb b a = false.
Proof.
  unfold SFleb, SFltb, SFcompare.
  destruct a as [sa|sa| |sa ma ea], b as [sb|sb| |sb mb eb];
    sf_signs; intros; sf_compare.
Qed.

Lemma leb_of_not_ltb (a b : float) :
  PrimFloat.eqb a a = true -> PrimFloat.eqb b b = true ->
  PrimFloat.ltb a b = false -> PrimFloat.leb b a = true.
Proof. rewrite !eqb_spec, ltb_spec, leb_spec. apply SFleb_of_not_ltb. Qed.

Lemma leb_antisym (a b : float) :
  PrimFloat.leb a b = true -> PrimFloat.leb b a = true -> PrimFloat.eqb a b = true.
Proof. rewrite !leb_spec, eqb_spec. apply SFleb_antisym. Qed.



Lemma leb_not_ltb (a b : float) :
  PrimFloat.leb a b = true -> PrimFloat.ltb b a = false.
Proof. rewrite leb_spec, ltb_spec. apply SFleb_not_ltb. Qed.

Lemma leastOf_unique cap data m m' :
  leastOf cap data m -> leastOf cap data m' -> PrimFloat.eqb m m' = true.
Proof.
  intros (Hn & Hc & Hl & Hm) (Hn' & Hc' & Hl' & Hm').
  apply leb_antisym.
  - destruct Hm' as [->|Hin]; [assumption|now apply Hl].
  - destruct Hm as [->|Hin]; [assumption|now apply Hl'].
Qed.

Lemma greatestOf_unique floor data m m' :
  greatestOf floor data m -> greatestOf floor data m' -> PrimFloat.eqb m m' = true.
Proof.
  intros (Hn & Hc & Hl & Hm) (Hn' & Hc' & Hl' & Hm').
  apply leb_antisym.
  - destruct Hm as [->|Hin]; [assumption|now apply Hl'].
  - destruct Hm' as [->|Hin]; [assumption|now apply Hl].
Qed.

Lemma arrayMin_leastOf (data : list float) (P : Z) (order : list Z) :
  1 <= P -> deliveryOrder (len data) P order -> data <> [] ->
  leastOf 0x1.fffffffffffffp+1023 data (arrayMin P order data).
Proof.
  intros HP Hord Hne.
  destruct (selectReduce_selects (ops := float64) PrimFloat.ltb
              (fun x => PrimFloat.eqb x x) ltb_irrefl ltb_trans ltb_lt_le
              (fun a b H => proj1 (ltb_not_nan a b H))
              0x1.fffffffffffffp+1023%float data P order
              HP Hord Hne eq_refl)
    as (Hlow & Hcap & Hmem & Hok).
  change (selectReduce PrimFloat.ltb 0x1.fffffffffffffp+1023%float P order data)
    with (arrayMin P order data) in *.
  split; [exact Hok|]. split; [|split; [|exact Hmem]].
  - now apply leb_of_not_ltb.
  - intros x Hx Hnum. apply leb_of_not_ltb; try assumption. now apply Hlow.
Qed.

Lemma arrayMax_greatestOf (data : list float) (P : Z) (order : list Z) :
  1 <= P -> deliveryOrder (len data) P order -> data <> [] ->
  greatestOf (-0x1.fffffffffffffp+1023) data (arrayMax P order data).
Proof.
  intros HP Hord Hne.
  destruct (selectReduce_selects (ops := float64)
              (fun a b => PrimFloat.ltb b a) (fun x => PrimFloat.eqb x x)
              ltb_irrefl
              (fun x y z H1 H2 => ltb_trans z y x H2 H1)
              (fun a b c => ltb_le_lt a b c)
              (fun a b H => proj2 (ltb_not_nan b a H))
              (-0x1.fffffffffffffp+1023)%float data P order
              HP Hord Hne eq_refl)
    as (Hup & Hcap & Hmem & Hok).
  change (selectReduce (fun a b => PrimFloat.ltb b a)
            (-0x1.fffffffffffffp+1023)%float P order data)
    with (arrayMax P order data) in *.
  split; [exact Hok|]. split; [|split; [|exact Hmem]].
  - now apply leb_of_not_ltb.
  - intros x Hx Hnum. apply leb_of_not_ltb; try assumption. now apply Hup.
Qed.

(** * Sorting *)

Section SortPermutation.
Context {F : Type} {ops : Float64 F}.


End SortPermutation.






(** * Reductions: the values returned *)

Lemma GetLength_nonempty series :
  DataType series = "float" -> Float series <> [] -> GetLength series <> 0.
Proof.
  intros Hf Hne. rewrite (GetLength_float _ Hf).
  pose proof (len_pos _ Hne). lia.
Qed.

Lemma Permutation_rotate3 : Permutation [2; 0; 1] (zrange 0 3).
Proof. apply (Permutation_cons_app [0; 1] [] 2), Permutation_refl. Qed.

(** ** GetVariance *)




(** ** arraySum, arrayMean, arrayProduct and arrayVariance in binary64 *)

(** X15: arraySum and arrayMean in binary64, for every number of workers and
    every order in which the partial sums arrive.  On every slice arraySum
    is a binary64 sum of the elements, each taken once, in the order and
    grouping of the chunks received, and arrayMean is that sum divided by
    float64(count).  On integers whose absolute values add up to less than
    2^53 no addition rounds: arraySum is float64 of the integer sum for
    every schedule, arrayMean is that value divided by float64(count), and
    it is float64(mu) when the sum is mu * count. *)
Theorem arraySum_arrayMean_binary64 (numCPU : Z) (order : list Z) :
  1 <= numCPU ->
  (forall data : list float,
     deliveryOrder (len data) numCPU order ->
     exists t : grouping float,
       Permutation (elements t) data /\
       arraySum numCPU order data = combined PrimFloat.add 0%float t /\
       arrayMean numCPU order data
       = PrimFloat.div (combined PrimFloat.add 0%float t) (Z2float (len data))) /\
  (forall dataZ : list Z,
     deliveryOrder (len dataZ) numCPU order ->
     sumZ (map Z.abs dataZ) < 2 ^ 53 ->
     arraySum numCPU order (map Z2float dataZ) = Z2float (sumZ dataZ) /\
     arrayMean numCPU order (map Z2float dataZ)
     = PrimFloat.div (Z2float (sumZ dataZ)) (Z2float (len dataZ)) /\
     forall mu, dataZ <> [] -> len dataZ < 2 ^ 53 ->
       sumZ dataZ = mu * len dataZ ->
       arrayMean numCPU order (map Z2float dataZ) = Z2float mu).
Proof.
  intros HP. split.
  - intros data Hord.
    destruct (arraySum_grouping (ops := float64) data numCPU order HP Hord)
      as (t & Ht & Hp).
    exists t. split; [exact Hp|]. split; [exact Ht|].
    unfold arrayMean.
    change (fold_left _ _ _) with (arraySum numCPU order data).
    now rewrite Ht.
  - intros dataZ Hord Hb.
    split; [now apply arraySum_integers|].
    split; [now apply arrayMean_integers|].
    intros mu Hne Hlen Hmu. now apply arrayMean_integers_exact.
Qed.

Lemma arraySum_arrayMean_binary64_witness :
  arraySum 3 [2; 0; 1] (map Z2float [1; -2; 3; 4; -5; 6; 7]) = 14%float /\
  arrayMean 3 [2; 0; 1] (map Z2float [1; -2; 3; 4; -5; 6; 7]) = 2%float.
Proof.
  destruct (arraySum_arrayMean_binary64 3 [2; 0; 1] ltac:(lia)) as [_ Hint].
  destruct (Hint [1; -2; 3; 4; -5; 6; 7]) as (Hs & _ & Hm).
  - right. apply Permutation_rotate3.
  - reflexivity.
  - split; [exact Hs|]. apply (Hm 2); [discriminate|reflexivity|reflexivity].
Defined.

(** X16: arrayProduct in binary64, for every number of workers and every
    order in which the partial products arrive.  On every slice it is a
    binary64 product of the elements, each taken once, in the order and
    grouping of the chunks received.  On non-zero integers whose product is
    below 2^53 in absolute value no multiplication rounds: it is float64 of
    the integer product for every schedule. *)
Theorem arrayProduct_binary64 (numCPU : Z) (order : list Z) :
  1 <= numCPU ->
  (forall data : list float,
     deliveryOrder (len data) numCPU order ->
     exists t : grouping float,
       Permutation (elements t) data /\
       arrayProduct numCPU order data = combined PrimFloat.mul 1%float t) /\
  (forall dataZ : list Z,
     deliveryOrder (len dataZ) numCPU order ->
     (forall z, In z dataZ -> z <> 0) ->
     Z.abs (prodZ dataZ) < 2 ^ 53 ->
     arrayProduct numCPU order (map Z2float dataZ) = Z2float (prodZ dataZ)).
Proof.
  intros HP. split.
  - intros data Hord.
    destruct (arrayProduct_grouping (ops := float64) data numCPU order HP Hord)
      as (t & Ht & Hp).
    exists t. split; [exact Hp|exact Ht].
  - intros dataZ Hord Hnz Hb. now apply arrayProduct_integers.
Qed.

Lemma arrayProduct_binary64_witness :
  arrayProduct 2 [1; 0] (map Z2float [3; -4; 5; 7; -1]) = 420%float.
Proof.
  destruct (arrayProduct_binary64 2 [1; 0] ltac:(lia)) as [_ Hint].
  apply (Hint [3; -4; 5; 7; -1]).
  - right. apply perm_swap.
  - intros z Hz. simpl in Hz.
    repeat (destruct Hz as [<-|Hz]; [discriminate|]). contradiction.
  - reflexivity.
Defined.



(** ** The seven reductions *)








(** ** GetMin and GetMax in binary64 *)

(** X18: GetMin on a non-empty float-typed Series, in binary64, for every number
    of workers and every order of their partial results: the error is nil
    and the value m is the least of math.MaxFloat64 and the elements that
    are not NaN.  That is: m is not NaN, m <= MaxFloat64 (+Inf is never
    returned), m <= x for every element x that is not NaN, and m is an
    element or MaxFloat64 itself.  It is an element as soon as one element
    is below MaxFloat64, and it is the same number (binary64 ==) for every
    other number of workers and order of results. *)
Theorem GetMin_is_the_least_number (numCPU : Z) (order : list Z) (series : Series) :
  1 <= numCPU -> deliveryOrder (len (Float series)) numCPU order ->
  DataType series = "float" -> Float series <> [] ->
  exists m,
    GetMin numCPU order series = (m, None) /\
    leastOf 0x1.fffffffffffffp+1023 (Float series) m /\
    ((exists x, In x (Float series) /\
        PrimFloat.ltb x 0x1.fffffffffffffp+1023 = true) ->
     In m (Float series)) /\
    (forall numCPU' order',
       1 <= numCPU' -> deliveryOrder (len (Float series)) numCPU' order' ->
       PrimFloat.eqb (fst (GetMin numCPU' order' series)) m = true).
Proof.
  intros HP Hord Hf Hne.
  assert (Hval : forall P o, GetMin P o series = (arrayMin P o (Float series), None)).
  { intros P o. unfold GetMin. apply guard_value; [assumption|].
    now apply GetLength_nonempty. }
  pose proof (arrayMin_leastOf (Float series) numCPU order HP Hord Hne) as Hleast.
  exists (arrayMin numCPU order (Float series)).
  split; [apply Hval|]. split; [exact Hleast|]. split.
  - intros (x & Hx & Hlt).
    destruct Hleast as (_ & _ & Hlow & [Hm|Hm]); [|assumption].
    destruct (ltb_not_nan _ _ Hlt) as [Hxnum _].
    specialize (Hlow x Hx Hxnum). rewrite Hm in Hlow.
    apply leb_not_ltb in Hlow. congruence.
  - intros P o HP' Hord'. rewrite Hval. cbn [fst].
    eapply leastOf_unique; [|exact Hleast].
    now apply arrayMin_leastOf.
Qed.

Lemma GetMin_is_the_least_number_witness :
  GetMin 3 [2; 0; 1] (mkSeries [4; nan; -2; infinity; 7]%float [] "float")
  = ((-2)%float, None).
Proof.
  destruct (GetMin_is_the_least_number 3 [2; 0; 1]
              (mkSeries [4; nan; -2; infinity; 7]%float [] "float"))
    as (m & Hr & (Hnum & _ & Hlow & _) & Hin & _).
  - lia.
  - right. apply Permutation_rotate3.
  - reflexivity.
  - discriminate.
  - rewrite Hr. f_equal.
    specialize (Hlow (-2)%float (or_intror (or_intror (or_introl eq_refl))) eq_refl).
    destruct Hin as [<-|[<-|[<-|[<-|[<-|[]]]]]];
      [exists 4%float; split; [now left|reflexivity]
      |discriminate|discriminate|reflexivity|discriminate|discriminate].
Defined.

(** X19: GetMax, symmetrically: the value m is the greatest of -math.MaxFloat64
    and the elements that are not NaN: m is not NaN, -MaxFloat64 <= m (-Inf
    is never returned), x <= m for every element x that is not NaN, and m is
    an element or -MaxFloat64 itself.  It is an element as soon as one
    element is above -MaxFloat64, and it is the same number for every other
    number of workers and order of results. *)
Theorem GetMax_is_the_greatest_number (numCPU : Z) (order : list Z)
    (series : Series) :
  1 <= numCPU -> deliveryOrder (len (Float series)) numCPU order ->
  DataType series = "float" -> Float series <> [] ->
  exists m,
    GetMax numCPU order series = (m, None) /\
    greatestOf (-0x1.fffffffffffffp+1023) (Float series) m /\
    ((exists x, In x (Float series) /\
        PrimFloat.ltb (-0x1.fffffffffffffp+1023) x = true) ->
     In m (Float series)) /\
    (forall numCPU' order',
       1 <= numCPU' -> deliveryOrder (len (Float series)) numCPU' order' ->
       PrimFloat.eqb (fst (GetMax numCPU' order' series)) m = true).
Proof.
  intros HP Hord Hf Hne.
  assert (Hval : forall P o, GetMax P o series = (arrayMax P o (Float series), None)).
  { intros P o. unfold GetMax. apply guard_value; [assumption|].
    now apply GetLength_nonempty. }
  pose proof (arrayMax_greatestOf (Float series) numCPU order HP Hord Hne) as Hgr.
  exists (arrayMax numCPU order (Float series)).
  split; [apply Hval|]. split; [exact Hgr|]. split.
  - intros (x & Hx & Hlt).
    destruct Hgr as (_ & _ & Hup & [Hm|Hm]); [|assumption].
    destruct (ltb_not_nan _ _ Hlt) as [_ Hxnum].
    specialize (Hup x Hx Hxnum). rewrite Hm in Hup.
    apply leb_not_ltb in Hup. congruence.
  - intros P o HP' Hord'. rewrite Hval. cbn [fst].
    eapply greatestOf_unique; [|exact Hgr].
    now apply arrayMax_greatestOf.
Qed.

Lemma GetMax_is_the_greatest_number_witness :
  GetMax 3 [2; 0; 1] (mkSeries [4; nan; -2; neg_infinity; 7]%float [] "float")
  = (7%float, None).
Proof.
  destruct (GetMax_is_the_greatest_number 3 [2; 0; 1]
              (mkSeries [4; nan; -2; neg_infinity; 7]%float [] "float"))
    as (m & Hr & (Hnum & _ & Hup & _) & Hin & _).
  - lia.
  - right. apply Permutation_rotate3.
  - reflexivity.
  - discriminate.
  - rewrite Hr. f_equal.
    specialize (Hup 7%float
                  (or_intror (or_intror (or_intror (or_intror (or_introl eq_refl)))))
                  eq_refl).
    destruct Hin as [<-|[<-|[<-|[<-|[<-|[]]]]]];
      [exists 4%float; split; [now left|reflexivity]
      |discriminate|discriminate|discriminate|discriminate|reflexivity].
Defined.

(** ** arrayCalculatePercentile *)

(** With p = 100 the index (p/100)*N is N itself, and nums[N] is read. *)
Lemma percentile_100_reads_past_the_end (nums : list float) :
  nums <> [] -> len nums < 2 ^ 53 ->
  arrayCalculatePercentile nums 100%float = Panic "index out of range".
Proof.
  intros Hne Hlen. pose proof (len_pos nums Hne) as Hpos.
  unfold arrayCalculatePercentile.
  change (fmul (fdiv 100%float (ofInt 100)) (ofInt (len nums)))
    with (PrimFloat.mul (Z2float 1) (Z2float (len nums))).
  rewrite Z2float_mul by lia. rewrite Z.mul_1_l.
  change (toInt (Z2float (len nums))) with (float2Z (Z2float (len nums))).
  rewrite float2Z_Z2float by lia.
  destruct (Z.geb_spec (len nums + 1) (len nums)); [|lia].
  unfold at_, index.
  destruct (Z.ltb_spec (len nums) 0); [reflexivity|].
  replace (nth_error nums (Z.to_nat (len nums))) with (@None float); [reflexivity|].
  symmetry. apply nth_error_None. unfold len. lia.
Qed.

(** C4: arrayCalculatePercentile on [10, 20, 30, 40] with p = 50 returns 30,
    not the 25 of the claim.  The index is (p/100)*N = 2, so lower = 2,
    upper = 3, weight = 0 and the result is nums[2].  arrayMedian, on the
    same data, returns 25, and so does the interpolation when the index is
    scaled by N - 1: (50/100)*3 = 1.5, lower = 1, weight = 0.5,
    20*0.5 + 30*0.5 = 25.  Scaled by N, the index reaches the last
    position already at p = 75 (40 is returned for p = 75 and p = 99),
    and at p = 100 it is N: nums[N] is read and the call panics, on every
    non-empty slice. *)
Theorem percentile_index_is_scaled_by_N :
  let nums := [10; 20; 30; 40]%float in
  (arrayCalculatePercentile nums 50%float = Ok 30%float /\
   arrayCalculatePercentile nums 50%float <> Ok 25%float) /\
  (let idx := ((50 / 100) * Z2float (len nums))%float in
   idx = 2%float /\ float2Z idx = Some 2 /\ (2 + 1 >=? len nums) = false /\
   (idx - Z2float 2)%float = 0%float /\
   index nums 2 = Some 30%float /\ index nums 3 = Some 40%float /\
   (30 * (1 - 0) + 40 * 0)%float = 30%float) /\
  arrayMedian nums = Ok 25%float /\
  (let idx := ((50 / 100) * Z2float (len nums - 1))%float in
   idx = 1.5%float /\ float2Z idx = Some 1 /\
   (idx - Z2float 1)%float = 0.5%float /\
   index nums 1 = Some 20%float /\ index nums 2 = Some 30%float /\
   (20 * (1 - 0.5) + 30 * 0.5)%float = 25%float) /\
  (arrayCalculatePercentile nums 75%float = Ok 40%float /\
   arrayCalculatePercentile nums 99%float = Ok 40%float) /\
  (forall nums' : list float,
     nums' <> [] -> len nums' < 2 ^ 53 ->
     arrayCalculatePercentile nums' 100%float = Panic "index out of range").
Proof.
  cbn zeta.
  split; [split; [reflexivity|]|].
  { intros H. vm_compute in H. apply Ok_inj in H. revert H.
    apply float_neq; reflexivity. }
  split; [vm_compute; repeat split; reflexivity|].
  split; [reflexivity|].
  split; [vm_compute; repeat split; reflexivity|].
  split; [split; reflexivity|].
  exact percentile_100_reads_past_the_end.
Qed.

Lemma percentile_index_is_scaled_by_N_witness :
  arrayCalculatePercentile [10; 20; 30; 40]%float 100%float
  = Panic "index out of range".
Proof.
  destruct percentile_index_is_scaled_by_N as (_ & _ & _ & _ & _ & Hpanic).
  apply Hpanic; [discriminate|reflexivity].
Defined.
